(** * The math editor's document model and cursor engine

    A shallow embedding of the editor's sources: the expression tree
    ([MathExpression], [MathNode] and its subclasses, from math.ts and
    mathelements.ts), the cursor module that math.ts imports as [./cursor]
    ([CursorLocation], [Cursor] and its operations) and the [ALPHANUM]
    table of util.ts, followed by the properties established about them.

    Modelling conventions.

    - JavaScript numbers used as indices are integers of [Z]; array
      indexing out of range yields [None] (JavaScript's [undefined]), and
      a property access on [undefined] raises [TypeError].
    - The document is modelled twice.  First as a tree of values: that is
      the document in which no node object is held by two expressions, or
      twice by one, which is what the editor's own call sites produce (each
      builds the node it inserts with [new]).  There an expression object
      is identified by its address, the list of (node index, child index)
      pairs leading to it from the root, and the identity test [===] on
      expressions is equality of addresses; an operation that takes a node
      takes a value, and stands for the call on a node object that the
      document does not hold yet.  Then, in [Shared], as a store of
      expression objects, where [insertNodeAtCursor] stores the very node
      it is passed, whatever else holds it: the cursor invariant is stated
      and settled there.
    - A method that mutates cursor state is a function of the monad [M]:
      it takes the state and gives back an outcome (a value or a thrown
      exception) together with the state at that moment, so that whatever
      was mutated before a [throw] remains visible.
    - Observer callbacks are opaque: a callback is a name, and invoking it
      appends the name to the trace [invoked] kept in the state.
    - Left out: the blink timer the constructor starts, the contents of
      the search menu, the [console.log] calls and the DOM. *)

From Stdlib Require Import ZArith String Ascii Lia.
From stdpp Require Import base option list.

Local Open Scope string_scope.
Local Open Scope list_scope.
Local Open Scope Z_scope.
Set Warnings "-register-all".

(** ** JavaScript primitives used by the sources *)

Module Js.

(** [arr[i]]: the element, or [undefined] out of range. *)
Definition index {A} (l : list A) (i : Z) : option A :=
  if decide (0 ≤ i) then l !! Z.to_nat i else None.

(** The start position [Array.prototype.splice] computes from its first
    argument: a negative argument counts from the end, and the result is
    clamped to the array. *)
Definition splice_start (len start : Z) : Z :=
  if decide (start < 0) then Z.max (len + start) 0 else Z.min start len.

(** [arr.splice(start, 0, x)] *)
Definition splice_insert {A} (l : list A) (start : Z) (x : A) : list A :=
  let k := Z.to_nat (splice_start (Z.of_nat (length l)) start) in
  take k l ++ x :: drop k l.

(** [arr.splice(start, 1)] *)
Definition splice_remove {A} (l : list A) (start : Z) : list A :=
  let k := Z.to_nat (splice_start (Z.of_nat (length l)) start) in
  take k l ++ drop (S k) l.

(** [parts.join(sep)] *)
Fixpoint join (sep : string) (parts : list string) : string :=
  match parts with
  | [] => ""
  | [p] => p
  | p :: rest => (p ++ sep ++ join sep rest)%string
  end.

Fixpoint starts_with (s prefix : string) : bool :=
  match prefix, s with
  | EmptyString, _ => true
  | String _ _, EmptyString => false
  | String a prefix', String b s' =>
      if Ascii.eqb a b then starts_with s' prefix' else false
  end.

(** [s.includes(sub)]: [sub] occurs in [s] as a substring. *)
Fixpoint includes (s sub : string) : bool :=
  starts_with s sub ||
  match s with
  | EmptyString => false
  | String _ s' => includes s' sub
  end.

(** What a call can do: return a value or throw. *)
Inductive Exn : Type :=
| Error (message : string)
| TypeError.

Inductive Outcome (A : Type) : Type :=
| Returned (a : A)
| Thrown (e : Exn).
Arguments Returned {A} a.
Arguments Thrown {A} e.

End Js.
Import Js.
Arguments Js.index : simpl never.
Arguments Js.splice_insert : simpl never.
Arguments Js.splice_remove : simpl never.

(** ** math.ts and mathelements.ts: the expression tree *)

(** The concrete classes with one child expression.  [Superscript] and
    [Subscript] extend [MathNode] directly, and their constructors set
    [children] to one fresh expression as [SingleChildMathNode] does. *)
Inductive SingleChildKind : Type :=
| SubscriptableFunction (functionName : string)
| CommandEnclosable (command : string)
| Limit
| Bracket (opening closing : string)
| Superscript
| Subscript.

(** The concrete classes with two child expressions. *)
Inductive DoubleChildKind : Type :=
| Fraction
| IntegralType (commandName : string)
| EvaluatedFrom
| Sum
| Product
| BigUnion
| BigIntersection.

(** A [MathExpression] is its node array; a [MathNode] carries its [id]
    and, by class, no child, one child or two. *)
Inductive MathNode : Type :=
| MathCharacter (id : string) (character : string)
| SingleChildMathNode (id : string) (kind : SingleChildKind)
    (child0 : list MathNode)
| DoubleChildMathNode (id : string) (kind : DoubleChildKind)
    (child0 child1 : list MathNode).

Abbreviation MathExpression := (list MathNode).

Definition MathNode_id (n : MathNode) : string :=
  match n with
  | MathCharacter i _ | SingleChildMathNode i _ _
  | DoubleChildMathNode i _ _ _ => i
  end.

(** The [children] field. *)
Definition children (n : MathNode) : list MathExpression :=
  match n with
  | MathCharacter _ _ => []
  | SingleChildMathNode _ _ c0 => [c0]
  | DoubleChildMathNode _ _ c0 c1 => [c0; c1]
  end.

(** The node whose [c]-th child expression has been replaced by [e]: the
    effect on a node of mutating that child in place. *)
Definition with_child (n : MathNode) (c : Z) (e : MathExpression) : MathNode :=
  match n with
  | MathCharacter _ _ => n
  | SingleChildMathNode i k c0 =>
      if decide (c = 0) then SingleChildMathNode i k e else n
  | DoubleChildMathNode i k c0 c1 =>
      if decide (c = 0) then DoubleChildMathNode i k e c1
      else if decide (c = 1) then DoubleChildMathNode i k c0 e
      else n
  end.

(** Addresses of expression objects in the tree under the root. *)
Abbreviation Address := (list (Z * Z)).

(** A reference to an expression object: where it is, and its node array
    as it stands. *)
Record ExprRef : Type := mkExprRef {
  address : Address;
  getNodes : list MathNode;
}.

(** The expression found at an address under [e]. *)
Fixpoint expr_at (e : MathExpression) (a : Address) : option MathExpression :=
  match a with
  | [] => Some e
  | (n, c) :: rest =>
      node ← Js.index e n;
      child ← Js.index (children node) c;
      expr_at child rest
  end.

(** The tree after the expression at address [a] has been given the node
    array [new]: in-place mutation of one expression object, seen from the
    root. *)
Fixpoint write_expr (e : MathExpression) (a : Address) (new : list MathNode)
  : MathExpression :=
  match a with
  | [] => new
  | (n, c) :: rest =>
      match Js.index e n with
      | Some node =>
          match Js.index (children node) c with
          | Some child =>
              <[Z.to_nat n := with_child node c (write_expr child rest new)]> e
          | None => e
          end
      | None => e
      end
  end.

Module MathExpression.

(** [insertNode(before, node)] *)
Definition insertNode (nodes : list MathNode) (before : Z) (node : MathNode)
  : list MathNode :=
  Js.splice_insert nodes before node.

(** [removeNthNode(index)] *)
Definition removeNthNode (nodes : list MathNode) (index : Z)
  : Outcome (list MathNode) :=
  if decide (index < 0 ∨ Z.of_nat (length nodes) ≤ index) then
    Thrown (Error "Attempted to remove node out of bounds")
  else Returned (Js.splice_remove nodes index).

End MathExpression.

(** ** cursor.ts: the cursor location *)

Record CursorPathLink : Type := mkLink {
  nodeIndex : Z;
  childIndex : Z;
  _i : Z;
}.

Record LocationInfo : Type := mkLocationInfo {
  enclosingExpression : option ExprRef;
  enclosingNode : option MathNode;
}.

Record CursorLocation : Type := mkLocation {
  _path : list CursorPathLink;
  _root : MathExpression;
}.

(** The address a path denotes. *)
Definition path_address (p : list CursorPathLink) : Address :=
  map (λ l, (nodeIndex l, childIndex l)) p.

Module CursorLocation.

Definition new (root : MathExpression) : CursorLocation :=
  {| _path := []; _root := root |}.

Definition moveInto (this : CursorLocation) (nodeIndex childIndex : Z)
  : CursorLocation :=
  {| _path := _path this ++
              [mkLink nodeIndex childIndex (Z.of_nat (length (_path this)))];
     _root := _root this |}.

Definition getParent (this : CursorLocation) (link : CursorPathLink)
  : option CursorPathLink :=
  if decide (_i link = 0) then None
  else Js.index (_path this) (_i link - 1).

(** The body of the [while (i <= link._i)] loop of [resolveLinkInfo], run
    [trips] times from index [i]. *)
Fixpoint resolveLoop (path : list CursorPathLink) (trips : nat) (i : Z)
    (currentExpression : option ExprRef) (currentNode : option MathNode)
  : Outcome LocationInfo :=
  match trips with
  | O => Returned (mkLocationInfo currentExpression currentNode)
  | S trips' =>
      match Js.index path i, currentExpression with
      | Some nextLink, Some expr =>
          match Js.index (getNodes expr) (nodeIndex nextLink) with
          | Some node =>
              resolveLoop path trips' (i + 1)
                (child ← Js.index (children node) (childIndex nextLink);
                 Some (mkExprRef
                         (address expr ++
                            [(nodeIndex nextLink, childIndex nextLink)])
                         child))
                (Some node)
          | None => Thrown TypeError
          end
      | _, _ => Thrown TypeError
      end
  end.

Definition resolveLinkInfo (this : CursorLocation) (link : CursorPathLink)
  : Outcome LocationInfo :=
  resolveLoop (_path this) (Z.to_nat (_i link + 1)) 0
    (Some (mkExprRef [] (_root this))) None.

Definition atRoot (this : CursorLocation) : bool :=
  bool_decide (length (_path this) = 0%nat).

(** The result is [None] (JavaScript's [undefined]) when only the last
    link's child index is out of range. *)
Definition getEnclosingExpression (this : CursorLocation)
  : Outcome (option ExprRef) :=
  if negb (atRoot this) then
    match Js.index (_path this) (Z.of_nat (length (_path this)) - 1) with
    | Some topLevelLink =>
        match resolveLinkInfo this topLevelLink with
        | Returned info => Returned (enclosingExpression info)
        | Thrown e => Thrown e
        end
    | None => Thrown TypeError
    end
  else Returned (Some (mkExprRef [] (_root this))).

(** In the first branch the path is not empty, so the element read (its
    last) exists. *)
Definition getTopLevelLink (this : CursorLocation) : Outcome CursorPathLink :=
  if negb (atRoot this) then
    match Js.index (_path this) (Z.of_nat (length (_path this)) - 1) with
    | Some l => Returned l
    | None => Thrown TypeError
    end
  else Thrown (Error "Cannot get top level cursor path link; stack is empty").

(** [this._path.pop()] past the guard: the path is not empty there, so it
    has a last link. *)
Definition pop (this : CursorLocation)
  : Outcome CursorPathLink * CursorLocation :=
  if atRoot this then
    (Thrown (Error "Cannot pop cursor path link off stack; stack is empty"),
     this)
  else
    match last (_path this) with
    | Some l =>
        (Returned l,
         {| _path := removelast (_path this); _root := _root this |})
    | None => (Thrown TypeError, this)
    end.

End CursorLocation.
Arguments CursorLocation.resolveLoop : simpl never.
Arguments CursorLocation.resolveLinkInfo : simpl never.
Arguments CursorLocation.getEnclosingExpression : simpl never.
Arguments CursorLocation.getTopLevelLink : simpl never.
Arguments CursorLocation.pop : simpl never.
Arguments CursorLocation.atRoot : simpl never.

(** ** cursor.ts: the cursor *)

Definition CURSOR_ID : string := "__cursor".

(** The [direction] argument of [enterNode] and [leaveNode]: the string
    literals ["left"] and ["right"]. *)
Inductive Direction : Type := Left | Right.

(** An observer callback, by name. *)
Definition Callback : Type := nat.

(** Of the search menu only the open flag is kept. *)
Record SearchMenu : Type := mkSearchMenu { _isOpen : bool }.

Record Cursor : Type := mkCursor {
  _location : CursorLocation;
  _cursorIndex : Z;
  _onUpdateCallbacks : list Callback;
  _onRequestFocusCallbacks : list Callback;
  _blinkState : bool;
  _lastBlinkInterrupt : Z;
  _focused : bool;
  searchMenu : SearchMenu;
  (** every callback invocation so far, oldest first *)
  invoked : list Callback;
}.

(** The [root] field is the object [_location._root] refers to. *)
Definition root (c : Cursor) : MathExpression := _root (_location c).

Definition set_location (f : CursorLocation → CursorLocation) (c : Cursor) :=
  mkCursor (f (_location c)) (_cursorIndex c) (_onUpdateCallbacks c)
    (_onRequestFocusCallbacks c) (_blinkState c) (_lastBlinkInterrupt c)
    (_focused c) (searchMenu c) (invoked c).

Definition set_cursorIndex (f : Z → Z) (c : Cursor) :=
  mkCursor (_location c) (f (_cursorIndex c)) (_onUpdateCallbacks c)
    (_onRequestFocusCallbacks c) (_blinkState c) (_lastBlinkInterrupt c)
    (_focused c) (searchMenu c) (invoked c).

Definition set_invoked (f : list Callback → list Callback) (c : Cursor) :=
  mkCursor (_location c) (_cursorIndex c) (_onUpdateCallbacks c)
    (_onRequestFocusCallbacks c) (_blinkState c) (_lastBlinkInterrupt c)
    (_focused c) (searchMenu c) (f (invoked c)).

Definition set_root (f : MathExpression → MathExpression) (c : Cursor) :=
  set_location (λ l, mkLocation (_path l) (f (_root l))) c.

(** *** The monad of cursor methods *)

Definition M (A : Type) : Type := Cursor → Outcome A * Cursor.

Definition ret {A} (a : A) : M A := λ c, (Returned a, c).
Definition throw {A} (e : Exn) : M A := λ c, (Thrown e, c).
Definition bind {A B} (m : M A) (k : A → M B) : M B :=
  λ c, match m c with
       | (Returned a, c') => k a c'
       | (Thrown e, c') => (Thrown e, c')
       end.
Definition get : M Cursor := λ c, (Returned c, c).
Definition modify (f : Cursor → Cursor) : M unit := λ c, (Returned tt, f c).
Definition lift {A} (o : Outcome A) : M A := λ c, (o, c).

(** A member access on a value that may be [undefined] or [null]. *)
Definition defined {A} (o : option A) : M A :=
  match o with
  | Some a => ret a
  | None => throw TypeError
  end.

Declare Scope cursor_scope.
Delimit Scope cursor_scope with cursor.
Notation "'let*' x ':=' m 'in' k" := (bind m (λ x, k))
  (at level 10, x name, m at level 100, k at level 200) : cursor_scope.
Notation "m '>>' k" := (bind m (λ _, k))
  (at level 60, right associativity) : cursor_scope.

Module Cursor.
Local Open Scope cursor_scope.

(** The constructor, up to the search menu's contents and the blink
    timer. *)
Definition new (root : MathExpression) : Cursor :=
  {| _location := CursorLocation.new root;
     _cursorIndex := 0;
     _onUpdateCallbacks := [];
     _onRequestFocusCallbacks := [];
     _blinkState := true;
     _lastBlinkInterrupt := 0;
     _focused := false;
     searchMenu := mkSearchMenu false;
     invoked := [] |}.

Definition notifyUpdates : M unit :=
  modify (λ c, set_invoked (λ t, t ++ _onUpdateCallbacks c) c).

Definition requestFocus : M unit :=
  modify (λ c, set_invoked (λ t, t ++ _onRequestFocusCallbacks c) c).

Definition onUpdate (callback : Callback) : M unit :=
  modify (λ c,
    mkCursor (_location c) (_cursorIndex c)
      (_onUpdateCallbacks c ++ [callback])
      (_onRequestFocusCallbacks c) (_blinkState c) (_lastBlinkInterrupt c)
      (_focused c) (searchMenu c) (invoked c)).

Definition onFocusRequested (callback : Callback) : M unit :=
  modify (λ c,
    mkCursor (_location c) (_cursorIndex c) (_onUpdateCallbacks c)
      (_onRequestFocusCallbacks c ++ [callback])
      (_blinkState c) (_lastBlinkInterrupt c)
      (_focused c) (searchMenu c) (invoked c)).

(** [focus()], at time [now] *)
Definition focus (now : Z) : M unit :=
  modify (λ c,
    mkCursor (_location c) (_cursorIndex c) (_onUpdateCallbacks c)
      (_onRequestFocusCallbacks c) true now true (searchMenu c)
      (invoked c)) >>
  notifyUpdates.

Definition blur : M unit :=
  modify (λ c,
    mkCursor (_location c) (_cursorIndex c) (_onUpdateCallbacks c)
      (_onRequestFocusCallbacks c) (_blinkState c) (_lastBlinkInterrupt c)
      false (searchMenu c) (invoked c)) >>
  notifyUpdates.

Definition renderAsLatex (c : Cursor) : string :=
  if negb (_focused c) then ""
  else ("\!\htmlId{" ++ CURSOR_ID ++ "}{\textcolor{"
        ++ (if _blinkState c then "black" else "white") ++ "}{|}}")%string.

Definition getCursorIndex (c : Cursor) : Z := _cursorIndex c.

Definition getEnclosingExpression : M (option ExprRef) :=
  let* c := get in
  lift (CursorLocation.getEnclosingExpression (_location c)).

(** [expression.insertNode(before, node)] on the expression object
    [expression] of the tree *)
Definition insertNode (expression : option ExprRef) (before : Z)
    (node : MathNode) : M unit :=
  let* e := defined expression in
  modify (set_root (λ r,
    write_expr r (address e)
      (MathExpression.insertNode (getNodes e) before node))).

(** [expression.removeNthNode(index)] on the expression object
    [expression] of the tree *)
Definition removeNthNode (expression : option ExprRef) (index : Z)
  : M unit :=
  let* e := defined expression in
  let* nodes := lift (MathExpression.removeNthNode (getNodes e) index) in
  modify (set_root (λ r, write_expr r (address e) nodes)).

Definition enterNode (nodeIndex childIndex : Z) (direction : Direction)
  : M unit :=
  modify (set_location
            (λ l, CursorLocation.moveInto l nodeIndex childIndex)) >>
  match direction with
  | Right => modify (set_cursorIndex (λ _, 0))
  | Left =>
      let* expression := getEnclosingExpression in
      let* e := defined expression in
      modify (set_cursorIndex (λ _, Z.of_nat (length (getNodes e))))
  end >>
  notifyUpdates.

(** [this._location.pop()] *)
Definition pop : M CursorPathLink :=
  λ c, let (r, l) := CursorLocation.pop (_location c) in
       (r, set_location (λ _, l) c).

Definition leaveNode (direction : Direction) : M CursorPathLink :=
  let* link := pop in
  match direction with
  | Left => modify (set_cursorIndex (λ _, nodeIndex link))
  | Right => modify (set_cursorIndex (λ _, nodeIndex link + 1))
  end >>
  notifyUpdates >>
  ret link.

(** [insertCharacterAtCursor(character)]; [id] is the identifier drawn by
    [_provisionNewID] for the new [MathCharacter]. *)
Definition insertCharacterAtCursor (id character : string) : M unit :=
  let* expression := getEnclosingExpression in
  let* c := get in
  insertNode expression (_cursorIndex c) (MathCharacter id character) >>
  modify (set_cursorIndex (λ i, i + 1)) >>
  notifyUpdates.

(** [insertNodeAtCursor(node)] for a node object that no expression of
    the document holds, [node] being its value; the call on a node the
    document may hold already is [Shared.insertNodeAtCursor]. *)
Definition insertNodeAtCursor (node : MathNode) : M Z :=
  let* expression := getEnclosingExpression in
  let* c := get in
  insertNode expression (_cursorIndex c) node >>
  modify (set_cursorIndex (λ i, i + 1)) >>
  notifyUpdates >>
  let* c := get in
  ret (_cursorIndex c - 1).

Definition deleteCharacterAtCursor : M unit :=
  let* expression := getEnclosingExpression in
  let* c := get in
  removeNthNode expression (_cursorIndex c - 1) >>
  modify (set_cursorIndex (λ i, i - 1)) >>
  notifyUpdates.

Definition removeEnclosingNode : M unit :=
  let* c := get in
  if CursorLocation.atRoot (_location c) then
    throw (Error "No enclosing node to remove")
  else
    let* link := pop in
    let* expression := getEnclosingExpression in
    removeNthNode expression (nodeIndex link) >>
    modify (set_cursorIndex (λ _, nodeIndex link)) >>
    notifyUpdates.

Definition moveRight : M unit :=
  let* expression := getEnclosingExpression in
  let* e := defined expression in
  let* c := get in
  (if decide (_cursorIndex c = Z.of_nat (length (getNodes e))) then
     if negb (CursorLocation.atRoot (_location c)) then
       leaveNode Right >> ret tt
     else ret tt
   else
     let* nextNode := defined (Js.index (getNodes e) (_cursorIndex c)) in
     if negb (bool_decide (length (children nextNode) = 0%nat)) then
       enterNode (_cursorIndex c) 0 Right
     else modify (set_cursorIndex (λ i, i + 1))) >>
  notifyUpdates.

Definition moveLeft : M unit :=
  let* expression := getEnclosingExpression in
  let* c := get in
  (if decide (_cursorIndex c = 0) then
     if negb (CursorLocation.atRoot (_location c)) then
       leaveNode Left >> ret tt
     else ret tt
   else
     let* e := defined expression in
     let* previousNode :=
       defined (Js.index (getNodes e) (_cursorIndex c - 1)) in
     if negb (bool_decide (length (children previousNode) = 0%nat)) then
       enterNode (_cursorIndex c - 1) 0 Left
     else modify (set_cursorIndex (λ i, i - 1))) >>
  notifyUpdates.

Definition moveDown : M unit :=
  let* c := get in
  if negb (CursorLocation.atRoot (_location c)) then
    let* link := lift (CursorLocation.getTopLevelLink (_location c)) in
    let* info := lift (CursorLocation.resolveLinkInfo (_location c) link) in
    let currentChildIndex := childIndex link in
    let* enclosingNode := defined (enclosingNode info) in
    if decide (currentChildIndex
               < Z.of_nat (length (children enclosingNode)) - 1) then
      leaveNode Left >>
      enterNode (nodeIndex link) (currentChildIndex + 1) Left
    else ret tt
  else ret tt.

Definition moveUp : M unit :=
  let* c := get in
  if negb (CursorLocation.atRoot (_location c)) then
    let* link := lift (CursorLocation.getTopLevelLink (_location c)) in
    let* info := lift (CursorLocation.resolveLinkInfo (_location c) link) in
    let currentChildIndex := childIndex link in
    if decide (currentChildIndex > 0) then
      leaveNode Left >>
      enterNode (nodeIndex link) (currentChildIndex - 1) Right
    else ret tt
  else ret tt.

(** What a [keydown] event brings with it: the key, the clock
    ([Date.now()]), the identifier [_provisionNewID] draws should a node be
    built, and the corner of the cursor's element on screen if the
    document has one ([getCursorElement] and its bounding rectangle). *)
Record KeyboardEvent : Type := mkKeyboardEvent {
  key : string;
  now : Z;
  newID : string;
  cursorElement : option (Z * Z);
}.

Definition ALPHANUM : string :=
  "abcdefghijklmnopqrstuvwxyzABCDEFGHIJKLMNOPQRSTUVWXYZ0123456789".

Definition getCursorElement (event : KeyboardEvent) : M (Z * Z) :=
  match cursorElement event with
  | Some rect => ret rect
  | None => throw (Error "Cursor is not being displayed!")
  end.

(** [insertNodeAtCursor(new K(...))] followed by [enterNode(index, 0,
    "right")], for a one-child class [K] *)
Definition insertAndEnter (node : MathNode) : M unit :=
  let* index := insertNodeAtCursor node in
  enterNode index 0 Right.

Definition handleKeydown (event : KeyboardEvent) : M unit :=
  let key := key event in
  modify (λ c,
    mkCursor (_location c) (_cursorIndex c) (_onUpdateCallbacks c)
      (_onRequestFocusCallbacks c) true (now event)
      (_focused c) (searchMenu c) (invoked c)) >>
  notifyUpdates >>
  if Js.includes ALPHANUM key then
    insertCharacterAtCursor (newID event) key
  else if Js.includes "!@#&-=+':<>,.?|" key then
    insertCharacterAtCursor (newID event) key
  else if String.eqb key "*" then
    insertCharacterAtCursor (newID event) "\cdot"
  else if String.eqb key "%" then
    insertCharacterAtCursor (newID event) "\%"
  else if String.eqb key "$" then
    insertCharacterAtCursor (newID event) "\$"
  else if String.eqb key " " then
    insertCharacterAtCursor (newID event) "~"
  else if String.eqb key "Backspace" then
    let* c := get in
    if decide (_cursorIndex c = 0) then removeEnclosingNode
    else deleteCharacterAtCursor
  else if String.eqb key "\" then
    let* rect := getCursorElement event in
    modify (λ c,
      mkCursor (_location c) (_cursorIndex c) (_onUpdateCallbacks c)
        (_onRequestFocusCallbacks c) (_blinkState c)
        (_lastBlinkInterrupt c) (_focused c) (mkSearchMenu true)
        (invoked c))
  else if String.eqb key "(" then
    insertAndEnter
      (SingleChildMathNode (newID event) (Bracket "(" ")") [])
  else if String.eqb key "{" then
    insertAndEnter
      (SingleChildMathNode (newID event) (Bracket "\{" "\}") [])
  else if String.eqb key "[" then
    insertAndEnter
      (SingleChildMathNode (newID event) (Bracket "[" "]") [])
  else if String.eqb key "/" then
    insertAndEnter (DoubleChildMathNode (newID event) Fraction [] [])
  else if String.eqb key "_" then
    insertAndEnter (SingleChildMathNode (newID event) Subscript [])
  else if String.eqb key "^" then
    insertAndEnter (SingleChildMathNode (newID event) Superscript [])
  else if String.eqb key "ArrowRight" then moveRight
  else if String.eqb key "ArrowLeft" then moveLeft
  else if String.eqb key "ArrowDown" then moveDown
  else if String.eqb key "ArrowUp" then moveUp
  else ret tt.

End Cursor.
Arguments Cursor.notifyUpdates : simpl never.
Arguments Cursor.getEnclosingExpression : simpl never.
Arguments Cursor.insertNode : simpl never.
Arguments Cursor.removeNthNode : simpl never.
Arguments Cursor.enterNode : simpl never.
Arguments Cursor.pop : simpl never.
Arguments Cursor.leaveNode : simpl never.
Arguments Cursor.insertCharacterAtCursor : simpl never.
Arguments Cursor.insertNodeAtCursor : simpl never.
Arguments Cursor.deleteCharacterAtCursor : simpl never.
Arguments Cursor.removeEnclosingNode : simpl never.
Arguments Cursor.moveRight : simpl never.
Arguments Cursor.moveLeft : simpl never.
Arguments Cursor.moveDown : simpl never.
Arguments Cursor.moveUp : simpl never.

(** ** Rendering *)

Definition getElementID (n : MathNode) : string :=
  ("node-" ++ MathNode_id n)%string.

Definition getHTMLPrefix (n : MathNode) : string :=
  ("\htmlId{" ++ getElementID n ++ "}")%string.

(** [arr.map(f)] for an [f] that may throw, with the element's index at
    hand, from index [i] on. *)
Definition map_from {A B} (f : Z → A → Outcome B)
  : Z → list A → Outcome (list B) :=
  fix go (i : Z) (l : list A) : Outcome (list B) :=
    match l with
    | [] => Returned []
    | x :: l' =>
        match f i x with
        | Returned y =>
            match go (i + 1) l' with
            | Returned ys => Returned (y :: ys)
            | Thrown e => Thrown e
            end
        | Thrown e => Thrown e
        end
    end.

(** The body of [MathExpression.renderAsLaTeX] for the expression object at
    address [this] with node array [nodes], given how its nodes render. *)
Definition render_expression (cursor : Cursor)
    (renderNode : Z → MathNode → Outcome string)
    (this : Address) (nodes : list MathNode) : Outcome string :=
  match map_from renderNode 0 nodes with
  | Thrown e => Thrown e
  | Returned renderedParts =>
      match CursorLocation.getEnclosingExpression (_location cursor) with
      | Thrown e => Thrown e
      | Returned enclosing =>
          let renderedParts :=
            if decide (address <$> enclosing = Some this) then
              Js.splice_insert renderedParts (Cursor.getCursorIndex cursor)
                (Cursor.renderAsLatex cursor)
            else renderedParts in
          let rendered := Js.join " " renderedParts in
          if String.eqb rendered "" then Returned "~" else Returned rendered
      end
  end.

(** The templates of mathelements.ts around the rendered children. *)
Definition single_template (k : SingleChildKind) (content : string) : string :=
  match k with
  | SubscriptableFunction functionName =>
      "{\displaystyle\" ++ functionName ++ "_{" ++ content ++ "}}"
  | CommandEnclosable command => "{" ++ command ++ "{" ++ content ++ "}}"
  | Limit => "{\displaystyle\lim_{" ++ content ++ "}}"
  | Bracket opening closing =>
      "{\kern-0.1em\left" ++ opening ++ content ++ "\right" ++ closing ++ "}"
  | Superscript => "{{}^{" ++ content ++ "}}"
  | Subscript => "{{}_{" ++ content ++ "}}"
  end%string.

Definition double_template (k : DoubleChildKind) (first second : string)
  : string :=
  match k with
  | Fraction => "{\frac{" ++ first ++ "}{" ++ second ++ "}}"
  | IntegralType commandName =>
      "{\displaystyle\" ++ commandName ++ "_{" ++ second ++ "}^{"
      ++ first ++ "}}"
  | EvaluatedFrom =>
      "{\displaystyle{\Large\vert}_{" ++ second ++ "}^{" ++ first ++ "}}"
  | Sum => "{\displaystyle\sum_{" ++ second ++ "}^{" ++ first ++ "}}"
  | Product => "{\displaystyle\prod_{" ++ second ++ "}^{" ++ first ++ "}}"
  | BigUnion => "{\displaystyle\bigcup_{" ++ second ++ "}^{" ++ first ++ "}}"
  | BigIntersection =>
      "{\displaystyle\bigcap_{" ++ second ++ "}^{" ++ first ++ "}}"
  end%string.

(** [node.renderAsLaTeX(cursor)] for the node at index [index] of the
    expression at address [parent]. *)
Fixpoint MathNode_renderAsLaTeX (cursor : Cursor) (parent : Address)
    (index : Z) (n : MathNode) {struct n} : Outcome string :=
  let child (c : Z) (e : list MathNode) : Outcome string :=
    render_expression cursor
      (MathNode_renderAsLaTeX cursor (parent ++ [(index, c)]))
      (parent ++ [(index, c)]) e in
  match n with
  | MathCharacter _ character =>
      Returned (getHTMLPrefix n ++ character)%string
  | SingleChildMathNode _ k c0 =>
      match child 0 c0 with
      | Returned content =>
          Returned (getHTMLPrefix n ++ single_template k content)%string
      | Thrown e => Thrown e
      end
  | DoubleChildMathNode _ k c0 c1 =>
      match child 0 c0 with
      | Returned first =>
          match child 1 c1 with
          | Returned second =>
              Returned (getHTMLPrefix n ++ double_template k first second)%string
          | Thrown e => Thrown e
          end
      | Thrown e => Thrown e
      end
  end.

(** [expression.renderAsLaTeX(cursor)] for the expression object at address
    [this] with node array [nodes]. *)
Definition MathExpression_renderAsLaTeX (cursor : Cursor) (this : Address)
    (nodes : list MathNode) : Outcome string :=
  render_expression cursor (MathNode_renderAsLaTeX cursor this) this nodes.

(** * Specification *)

(** ** Paths *)

(** Every link records its own index in the path. *)
Definition numbered (p : list CursorPathLink) : Prop :=
  ∀ (k : nat) (l : CursorPathLink), p !! k = Some l → _i l = Z.of_nat k.

(** ** What each operation does to a cursor *)

(** The cursor's path. *)
Definition path (c : Cursor) : list CursorPathLink := _path (_location c).

(** The observers' trace after [k] more rounds of notification. *)
Definition notified (c : Cursor) (k : nat) : list Callback :=
  invoked c ++ concat (replicate k (_onUpdateCallbacks c)).

(** The cursor [c] once its tree, path and position have become [r], [p]
    and [i] and its observers have been notified [k] times; nothing else
    changes. *)
Definition relocate (c : Cursor) (r : MathExpression)
    (p : list CursorPathLink) (i : Z) (k : nat) : Cursor :=
  mkCursor (mkLocation p r) i (_onUpdateCallbacks c)
    (_onRequestFocusCallbacks c) (_blinkState c) (_lastBlinkInterrupt c)
    (_focused c) (searchMenu c) (notified c k).

(** A tree [r], a path [p] and a position [i] that fit together: the links
    are numbered, the path leads to an expression of the tree, and the
    position lies within that expression. *)
Definition wf_at (r : MathExpression) (p : list CursorPathLink) (i : Z)
  : Prop :=
  numbered p ∧
  ∃ e, expr_at r (path_address p) = Some e ∧ 0 ≤ i ≤ Z.of_nat (length e).

(** A well-formed cursor. *)
Definition wf (c : Cursor) : Prop := wf_at (root c) (path c) (_cursorIndex c).

(** ** Well-formed cursors and the moves as a step relation *)

(** Where [moveRight] takes a cursor. *)
Inductive moveRight_step (c : Cursor) : Cursor → Prop :=
| moveRight_stays (e : MathExpression) :
    expr_at (root c) (path_address (path c)) = Some e →
    _cursorIndex c = Z.of_nat (length e) → path c = [] →
    moveRight_step c (relocate c (root c) [] (_cursorIndex c) 1)
| moveRight_leaves (e : MathExpression) (p : list CursorPathLink)
    (l : CursorPathLink) :
    expr_at (root c) (path_address (path c)) = Some e →
    _cursorIndex c = Z.of_nat (length e) → path c = p ++ [l] →
    moveRight_step c (relocate c (root c) p (nodeIndex l + 1) 2)
| moveRight_enters (e : MathExpression) (node : MathNode)
    (child : MathExpression) :
    expr_at (root c) (path_address (path c)) = Some e →
    Js.index e (_cursorIndex c) = Some node →
    Js.index (children node) 0 = Some child →
    moveRight_step c
      (relocate c (root c)
         (path c ++ [mkLink (_cursorIndex c) 0 (Z.of_nat (length (path c)))])
         0 2)
| moveRight_passes (e : MathExpression) (node : MathNode) :
    expr_at (root c) (path_address (path c)) = Some e →
    Js.index e (_cursorIndex c) = Some node →
    children node = [] →
    moveRight_step c
      (relocate c (root c) (path c) (_cursorIndex c + 1) 1).

(** Where [moveLeft] takes a cursor. *)
Inductive moveLeft_step (c : Cursor) : Cursor → Prop :=
| moveLeft_stays :
    _cursorIndex c = 0 → path c = [] →
    moveLeft_step c (relocate c (root c) [] (_cursorIndex c) 1)
| moveLeft_leaves (p : list CursorPathLink) (l : CursorPathLink) :
    _cursorIndex c = 0 → path c = p ++ [l] →
    moveLeft_step c (relocate c (root c) p (nodeIndex l) 2)
| moveLeft_enters (e : MathExpression) (node : MathNode)
    (child : MathExpression) :
    expr_at (root c) (path_address (path c)) = Some e →
    _cursorIndex c ≠ 0 →
    Js.index e (_cursorIndex c - 1) = Some node →
    Js.index (children node) 0 = Some child →
    moveLeft_step c
      (relocate c (root c)
         (path c ++
            [mkLink (_cursorIndex c - 1) 0 (Z.of_nat (length (path c)))])
         (Z.of_nat (length child)) 2)
| moveLeft_passes (e : MathExpression) (node : MathNode) :
    expr_at (root c) (path_address (path c)) = Some e →
    _cursorIndex c ≠ 0 →
    Js.index e (_cursorIndex c - 1) = Some node →
    children node = [] →
    moveLeft_step c
      (relocate c (root c) (path c) (_cursorIndex c - 1) 1).

(** ** Reachable cursors *)

(** The public operations that move the cursor or edit the tree. *)
Inductive Operation : Type :=
| EnterNode (nodeIndex childIndex : Z) (direction : Direction)
| LeaveNode (direction : Direction)
| RemoveEnclosingNode
| DeleteCharacterAtCursor
| MoveRight
| MoveLeft
| MoveUp
| MoveDown
| InsertCharacterAtCursor (id character : string)
| InsertNodeAtCursor (node : MathNode).

(** The call an operation stands for, its result dropped. *)
Definition perform (op : Operation) : M unit :=
  match op with
  | EnterNode n ch d => Cursor.enterNode n ch d
  | LeaveNode d => bind (Cursor.leaveNode d) (λ _, ret tt)
  | RemoveEnclosingNode => Cursor.removeEnclosingNode
  | DeleteCharacterAtCursor => Cursor.deleteCharacterAtCursor
  | MoveRight => Cursor.moveRight
  | MoveLeft => Cursor.moveLeft
  | MoveUp => Cursor.moveUp
  | MoveDown => Cursor.moveDown
  | InsertCharacterAtCursor id ch => Cursor.insertCharacterAtCursor id ch
  | InsertNodeAtCursor node =>
      bind (Cursor.insertNodeAtCursor node) (λ _, ret tt)
  end.

(** What the caller owes each operation. *)
Definition precondition (op : Operation) (c : Cursor) : Prop :=
  match op with
  | EnterNode n ch _ =>
      ∃ e node child,
        Cursor.getEnclosingExpression c = (Returned (Some e), c) ∧
        Js.index (getNodes e) n = Some node ∧
        Js.index (children node) ch = Some child
  | LeaveNode _ | RemoveEnclosingNode =>
      CursorLocation.atRoot (_location c) = false
  | DeleteCharacterAtCursor => 0 < _cursorIndex c
  | _ => True
  end.

(** The cursors the operations can produce from an initial one: any tree,
    the empty path, position 0.  The document being a tree of values, a
    node inserted is one the document does not hold yet. *)
Inductive reachable : Cursor → Prop :=
| reachable_initial (c : Cursor) :
    path c = [] → _cursorIndex c = 0 → reachable c
| reachable_step (c : Cursor) (op : Operation) :
    reachable c → precondition op c → reachable (snd (perform op c)).

(** The operations that end with a call of [notifyUpdates] of their own or
    of the operation they end with. *)
Definition notifies (op : Operation) : bool :=
  match op with
  | MoveUp | MoveDown => false
  | _ => true
  end.

(** ** A cursor inside a fraction *)

(** The tree of [x] followed by an empty fraction. *)
Definition fraction_root : MathExpression :=
  [MathCharacter "n1" "x"; DoubleChildMathNode "n2" Fraction [] []].

(** A cursor over that tree, inside the fraction's denominator. *)
Definition in_denominator : Cursor :=
  snd (perform (EnterNode 1 1 Right) (Cursor.new fraction_root)).

(** ** moveRight followed by moveLeft *)

(** Two cursors at the same place: same path, same position. *)
Definition same_place (c c' : Cursor) : Prop :=
  path c = path c' ∧ _cursorIndex c = _cursorIndex c'.

(** The cursor is at the end of its enclosing expression. *)
Definition at_end (c : Cursor) : Prop :=
  ∃ e : ExprRef,
    Cursor.getEnclosingExpression c = (Returned (Some e), c) ∧
    _cursorIndex c = Z.of_nat (length (getNodes e)).

(** The cursor is at root or in the first child expression of its enclosing
    node. *)
Definition in_first_child (c : Cursor) : Prop :=
  ∀ l : CursorPathLink, last (path c) = Some l → childIndex l = 0.

(** ** moveDown and moveUp *)

(** What the vertical moves do from [c]. *)
Definition vertical_moves_spec (c : Cursor) : Prop :=
  (* at root neither moves *)
  (path c = [] →
   Cursor.moveDown c = (Returned tt, c) ∧ Cursor.moveUp c = (Returned tt, c))
  ∧
  (* below root, with top-level link [l] on the node [node] *)
  (∀ (p : list CursorPathLink) (l : CursorPathLink),
     path c = p ++ [l] →
     ∃ (info : LocationInfo) (node : MathNode),
       CursorLocation.resolveLinkInfo (_location c) l = Returned info ∧
       enclosingNode info = Some node ∧
       let last_child := Z.of_nat (length (children node)) - 1 in
       (childIndex l ≠ last_child →
        ∃ (sibling : MathExpression) (c' : Cursor),
          Js.index (children node) (childIndex l + 1) = Some sibling ∧
          Cursor.moveDown c = (Returned tt, c') ∧
          path c' = p ++ [mkLink (nodeIndex l) (childIndex l + 1) (_i l)] ∧
          _cursorIndex c' = Z.of_nat (length sibling) ∧
          root c' = root c) ∧
       (childIndex l = last_child → Cursor.moveDown c = (Returned tt, c)) ∧
       (childIndex l > 0 →
        ∃ (sibling : MathExpression) (c' : Cursor),
          Js.index (children node) (childIndex l - 1) = Some sibling ∧
          Cursor.moveUp c = (Returned tt, c') ∧
          path c' = p ++ [mkLink (nodeIndex l) (childIndex l - 1) (_i l)] ∧
          _cursorIndex c' = 0 ∧
          root c' = root c) ∧
       (childIndex l = 0 → Cursor.moveUp c = (Returned tt, c))).

(** ** Notification of observers *)

(** Every callback registered with [c] was invoked between [c] and [c']. *)
Definition all_notified (c c' : Cursor) : Prop :=
  ∃ newer : list Callback,
    invoked c' = invoked c ++ newer ∧
    ∀ cb : Callback, cb ∈ _onUpdateCallbacks c → cb ∈ newer.

(** A cursor at root with one observer, named 7. *)
Definition observed_at_root : Cursor :=
  snd (Cursor.onUpdate 7%nat (Cursor.new [MathCharacter "n1" "x"])).

(** ** Deleting *)

(** What [deleteCharacterAtCursor] does from [c]. *)
Definition deleteCharacterAtCursor_outcome (c : Cursor) : Prop :=
  (_cursorIndex c = 0 →
   Cursor.deleteCharacterAtCursor c
   = (Thrown (Error "Attempted to remove node out of bounds"), c)) ∧
  (_cursorIndex c > 0 →
   ∃ (enclosing : ExprRef) (c' : Cursor),
     Cursor.getEnclosingExpression c = (Returned (Some enclosing), c) ∧
     Cursor.deleteCharacterAtCursor c = (Returned tt, c') ∧
     Cursor.getEnclosingExpression c'
     = (Returned
          (Some (mkExprRef (address enclosing)
                   (delete (Z.to_nat (_cursorIndex c - 1))
                      (getNodes enclosing)))), c') ∧
     root c'
     = write_expr (root c) (address enclosing)
         (delete (Z.to_nat (_cursorIndex c - 1)) (getNodes enclosing)) ∧
     length (getNodes enclosing)
     = S (length (delete (Z.to_nat (_cursorIndex c - 1))
                    (getNodes enclosing))) ∧
     path c' = path c ∧
     _cursorIndex c' = _cursorIndex c - 1).

(** ** Removing the enclosing node *)

(** The error [removeEnclosingNode] throws at root. *)
Definition NoEnclosingNode : Exn := Error "No enclosing node to remove".

(** What [removeEnclosingNode] does from [c]. *)
Definition removeEnclosingNode_outcome (c : Cursor) : Prop :=
  ((∃ c', Cursor.removeEnclosingNode c = (Thrown NoEnclosingNode, c'))
   ↔ path c = []) ∧
  (path c = [] →
   Cursor.removeEnclosingNode c = (Thrown NoEnclosingNode, c)) ∧
  (∀ (p : list CursorPathLink) (l : CursorPathLink),
     path c = p ++ [l] →
     ∃ (parent : MathExpression) (removed : MathNode) (c' : Cursor),
       expr_at (root c) (path_address p) = Some parent ∧
       Js.index parent (nodeIndex l) = Some removed ∧
       Cursor.removeEnclosingNode c = (Returned tt, c') ∧
       path c' = p ∧
       _cursorIndex c' = nodeIndex l ∧
       Cursor.getEnclosingExpression c'
       = (Returned
            (Some (mkExprRef (path_address p)
                     (delete (Z.to_nat (nodeIndex l)) parent))), c') ∧
       root c'
       = write_expr (root c) (path_address p)
           (delete (Z.to_nat (nodeIndex l)) parent)).

(** ** Inserting into an expression *)

(** What [insertNode(before, node)] makes of the node array [nodes]. *)
Definition insertNode_outcome (nodes : list MathNode) (before : Z)
    (node : MathNode) : Prop :=
  let result := MathExpression.insertNode nodes before node in
  let k := Z.to_nat (Z.min before (Z.of_nat (length nodes))) in
  length result = S (length nodes) ∧
  (Z.of_nat (length nodes) < before → result = nodes ++ [node]) ∧
  result !! k = Some node ∧
  (∀ j : nat, (j < k)%nat → result !! j = nodes !! j) ∧
  (∀ j : nat, (k ≤ j)%nat → result !! S j = nodes !! j).

(** ** Rendering *)

(** Induction over a node and the nodes of its child expressions. *)
Fixpoint MathNode_nested_ind (P : MathNode → Prop)
    (Hcharacter : ∀ id character, P (MathCharacter id character))
    (Hsingle : ∀ id kind child0,
        Forall P child0 → P (SingleChildMathNode id kind child0))
    (Hdouble : ∀ id kind child0 child1,
        Forall P child0 → Forall P child1 →
        P (DoubleChildMathNode id kind child0 child1))
    (n : MathNode) {struct n} : P n :=
  let all :=
    fix all (e : list MathNode) : Forall P e :=
      match e with
      | [] => @List.Forall_nil _ P
      | n' :: e' =>
          @List.Forall_cons _ P n' e'
            (MathNode_nested_ind P Hcharacter Hsingle Hdouble n') (all e')
      end in
  match n with
  | MathCharacter id character => Hcharacter id character
  | SingleChildMathNode id kind child0 => Hsingle id kind child0 (all child0)
  | DoubleChildMathNode id kind child0 child1 =>
      Hdouble id kind child0 child1 (all child0) (all child1)
  end.

(** What [renderAsLaTeX(cursor)] gives for the expression object at
    address [this] with node array [nodes], when the cursor's enclosing
    expression is [enclosing]. *)
Definition renderAsLaTeX_outcome (c : Cursor) (enclosing : option ExprRef)
    (this : Address) (nodes : list MathNode) : Prop :=
  ∃ fragments : list string,
    (* one fragment per node, in order: the node's own rendering *)
    length fragments = length nodes ∧
    (∀ (i : nat) (n : MathNode),
       nodes !! i = Some n →
       ∃ s, fragments !! i = Some s ∧
            MathNode_renderAsLaTeX c this (Z.of_nat i) n = Returned s) ∧
    let position := Z.to_nat (_cursorIndex c) in
    let spliced :=
      take position fragments ++ Cursor.renderAsLatex c
        :: drop position fragments in
    let is_enclosing := address <$> enclosing = Some this in
    (* the cursor's expression: the marker goes in at [position] *)
    (is_enclosing → nodes ≠ [] ∨ _focused c = true →
     MathExpression_renderAsLaTeX c this nodes
     = Returned (Js.join " " spliced)) ∧
    (* any other expression: no marker *)
    (¬ is_enclosing → nodes ≠ [] →
     MathExpression_renderAsLaTeX c this nodes
     = Returned (Js.join " " fragments)) ∧
    (* no nodes, no cursor: the placeholder *)
    (¬ is_enclosing → nodes = [] →
     MathExpression_renderAsLaTeX c this nodes = Returned "~") ∧
    (* no nodes and an empty marker: the joined text is empty, and the
       placeholder stands for it *)
    (is_enclosing → nodes = [] → _focused c = false →
     MathExpression_renderAsLaTeX c this nodes = Returned "~").

(** The focused cursor in the denominator of [x] followed by an empty
    fraction. *)
Definition focused_in_denominator : Cursor :=
  snd (Cursor.focus 0 in_denominator).

(** ** Further operations and outcomes *)

(** What [insertNode] does with a negative [before]. *)
Definition insertNode_negative_outcome (nodes : list MathNode) (before : Z)
    (node : MathNode) : Prop :=
  let result := MathExpression.insertNode nodes before node in
  let k := Z.to_nat (Z.max (Z.of_nat (length nodes) + before) 0) in
  length result = S (length nodes) ∧
  (before ≤ - Z.of_nat (length nodes) → result = node :: nodes) ∧
  result !! k = Some node ∧
  (∀ j : nat, (j < k)%nat → result !! j = nodes !! j) ∧
  (∀ j : nat, (k ≤ j)%nat → result !! S j = nodes !! j).


(** What [enterNode] does when its indices do not address a child
    expression. *)
Definition enterNode_unchecked_outcome (c : Cursor) (n ch : Z) : Prop :=
  let link := mkLink n ch (Z.of_nat (length (path c))) in
  (∃ c',
     Cursor.enterNode n ch Left c = (Thrown TypeError, c') ∧
     path c' = path c ++ [link] ∧
     _cursorIndex c' = _cursorIndex c ∧
     root c' = root c ∧
     invoked c' = invoked c) ∧
  (∃ c',
     Cursor.enterNode n ch Right c = (Returned tt, c') ∧
     path c' = path c ++ [link] ∧
     _cursorIndex c' = 0 ∧
     root c' = root c ∧
     ∀ e, Cursor.getEnclosingExpression c' ≠ (Returned (Some e), c')).

(** Where the cursor is after [enterNode] and then [leaveNode]. *)
Definition enterNode_leaveNode_outcome (c : Cursor) (n ch : Z)
    (d d' : Direction) : Prop :=
  let c1 := snd (Cursor.enterNode n ch d c) in
  ∃ c2,
    Cursor.leaveNode d' c1
    = (Returned (mkLink n ch (Z.of_nat (length (path c)))), c2) ∧
    root c2 = root c ∧
    path c2 = path c ∧
    _cursorIndex c2 = match d' with Left => n | Right => n + 1 end ∧
    wf c2.

(** Where [moveDown] then [moveUp], and [moveUp] then [moveDown], leave
    the cursor. *)
Definition vertical_round_trips (c : Cursor) : Prop :=
  (¬ same_place c (snd (Cursor.moveDown c)) →
   let c2 := snd (Cursor.moveUp (snd (Cursor.moveDown c))) in
   path c2 = path c ∧ _cursorIndex c2 = 0 ∧ root c2 = root c) ∧
  (¬ same_place c (snd (Cursor.moveUp c)) →
   let c2 := snd (Cursor.moveDown (snd (Cursor.moveUp c))) in
   ∃ e : ExprRef,
     Cursor.getEnclosingExpression c = (Returned (Some e), c) ∧
     path c2 = path c ∧
     _cursorIndex c2 = Z.of_nat (length (getNodes e)) ∧
     root c2 = root c).

(** The cursor after [insertCharacterAtCursor] and then
    [deleteCharacterAtCursor]. *)
Definition insert_delete_outcome (c : Cursor) (id character : string)
  : Prop :=
  ∃ c1 c2,
    Cursor.insertCharacterAtCursor id character c = (Returned tt, c1) ∧
    Cursor.deleteCharacterAtCursor c1 = (Returned tt, c2) ∧
    root c2 = root c ∧ path c2 = path c ∧ _cursorIndex c2 = _cursorIndex c.


(** The operations that only move the cursor. *)
Definition navigates (op : Operation) : bool :=
  match op with
  | EnterNode _ _ _ | LeaveNode _ | MoveRight | MoveLeft | MoveUp
  | MoveDown => true
  | _ => false
  end.

(** The cursor [c] once a key pressed at time [now] has reset its blink
    state; [menu] is its search menu. *)
Definition keyed (c : Cursor) (now : Z) (menu : SearchMenu) : Cursor :=
  mkCursor (_location c) (_cursorIndex c) (_onUpdateCallbacks c)
    (_onRequestFocusCallbacks c) true now (_focused c) menu (invoked c).

(** The ways [handleKeydown] ends: it returns, or it throws on Backspace
    at the very start of the root, or on a backslash when the cursor is
    not on screen. *)
Definition keydown_end (event : Cursor.KeyboardEvent) (c : Cursor)
    (o : Outcome unit) : Prop :=
  o = Returned tt ∨
  (o = Thrown NoEnclosingNode ∧ Cursor.key event = "Backspace" ∧
   path c = [] ∧ _cursorIndex c = 0) ∨
  (o = Thrown (Error "Cursor is not being displayed!") ∧
   Cursor.key event = "\" ∧ Cursor.cursorElement event = None).

(** What every key press leaves behind. *)
Definition keydown_effects (event : Cursor.KeyboardEvent) (c : Cursor)
  : Prop :=
  let c' := snd (Cursor.handleKeydown event c) in
  wf c' ∧
  _blinkState c' = true ∧
  _lastBlinkInterrupt c' = Cursor.now event ∧
  _focused c' = _focused c ∧
  _onUpdateCallbacks c' = _onUpdateCallbacks c ∧
  all_notified c c'.

(** The keys that insert a node and enter it. *)
Definition shorthand_keys : list string := ["("; "{"; "["; "/"; "_"; "^"].

(** What [handleKeydown] does before it dispatches on the key. *)
Definition keydown_prologue (event : Cursor.KeyboardEvent) : M unit :=
  bind
    (modify (λ c,
       mkCursor (_location c) (_cursorIndex c) (_onUpdateCallbacks c)
         (_onRequestFocusCallbacks c) true (Cursor.now event)
         (_focused c) (searchMenu c) (invoked c)))
    (λ _, Cursor.notifyUpdates).

(** The cursor after a shorthand key. *)
Definition shorthand_outcome (event : Cursor.KeyboardEvent) (c : Cursor)
  : Prop :=
  ∃ (c' : Cursor) (parent : ExprRef) (node : MathNode),
    Cursor.handleKeydown event c = (Returned tt, c') ∧
    Cursor.getEnclosingExpression c = (Returned (Some parent), c) ∧
    (* the new node, all of its child expressions empty, stands where the
       cursor was *)
    MathNode_id node = Cursor.newID event ∧
    children node ≠ [] ∧
    (∀ e, e ∈ children node → e = []) ∧
    root c'
    = write_expr (root c) (address parent)
        (MathExpression.insertNode (getNodes parent) (_cursorIndex c) node) ∧
    (* and the cursor is in its first child expression *)
    path c'
    = path c ++ [mkLink (_cursorIndex c) 0 (Z.of_nat (length (path c)))] ∧
    _cursorIndex c' = 0 ∧
    Cursor.getEnclosingExpression c'
    = (Returned (Some (mkExprRef (path_address (path c')) [])), c').

(** The cursor after a shorthand key and then Backspace. *)
Definition shorthand_undone (event backspace : Cursor.KeyboardEvent)
    (c : Cursor) : Prop :=
  ∃ c1 c2,
    Cursor.handleKeydown event c = (Returned tt, c1) ∧
    Cursor.handleKeydown backspace c1 = (Returned tt, c2) ∧
    root c2 = root c ∧ path c2 = path c ∧ _cursorIndex c2 = _cursorIndex c.

(** * The document as shared objects

    In the sources an expression is an object: [insertNode] stores the
    caller's node object in the array, so the same node — and through its
    [children] field the same child expressions — can be held by several
    expressions, or by one of its own child expressions.  The tree of
    values above is the document in which that never happens.  Here the
    document is a store of expression objects instead.

    - An expression object is a reference (a number); the store gives the
      node array [_nodes] of each.  An expression the document does not
      use is an empty one that nothing refers to.
    - A node object is never mutated by the cursor and never compared, so
      it is the record of its fields; its [children] field lists the
      references of its child expressions.  A node held twice has the same
      child references at both places.
    - The identity test [===] on expressions is equality of references.

    The cursor keeps the fields its ten operations read or write. *)

Module Shared.

Inductive NodeClass : Type :=
| CharacterClass (character : string)
| SingleChildClass (kind : SingleChildKind)
| DoubleChildClass (kind : DoubleChildKind).

Record MathNode : Type := mkMathNode {
  node_id : string;
  node_class : NodeClass;
  children : list nat;
}.

(** The [_nodes] array of every expression object. *)
Abbreviation Store := (nat → list MathNode).

(** The store after the array of [expression] has become [nodes]. *)
Definition write (s : nat → list MathNode) (expression : nat)
    (nodes : list MathNode) : nat → list MathNode :=
  λ e, if decide (e = expression) then nodes else s e.

Record LocationInfo : Type := mkLocationInfo {
  enclosingExpression : option nat;
  enclosingNode : option MathNode;
}.

Record Cursor : Type := mkCursor {
  store : nat → list MathNode;
  _root : nat;
  _path : list CursorPathLink;
  _cursorIndex : Z;
  _onUpdateCallbacks : list Callback;
  (** every callback invocation so far, oldest first *)
  invoked : list Callback;
}.

Definition set_store (f : (nat → list MathNode) → nat → list MathNode)
    (c : Cursor) : Cursor :=
  mkCursor (f (store c)) (_root c) (_path c) (_cursorIndex c)
    (_onUpdateCallbacks c) (invoked c).

Definition set_path (f : list CursorPathLink → list CursorPathLink)
    (c : Cursor) : Cursor :=
  mkCursor (store c) (_root c) (f (_path c)) (_cursorIndex c)
    (_onUpdateCallbacks c) (invoked c).

Definition set_cursorIndex (f : Z → Z) (c : Cursor) : Cursor :=
  mkCursor (store c) (_root c) (_path c) (f (_cursorIndex c))
    (_onUpdateCallbacks c) (invoked c).

Definition set_invoked (f : list Callback → list Callback) (c : Cursor)
  : Cursor :=
  mkCursor (store c) (_root c) (_path c) (_cursorIndex c)
    (_onUpdateCallbacks c) (f (invoked c)).

(** *** The monad of cursor methods *)

Definition M (A : Type) : Type := Cursor → Outcome A * Cursor.

Definition ret {A} (a : A) : M A := λ c, (Returned a, c).
Definition throw {A} (e : Exn) : M A := λ c, (Thrown e, c).
Definition bind {A B} (m : M A) (k : A → M B) : M B :=
  λ c, match m c with
       | (Returned a, c') => k a c'
       | (Thrown e, c') => (Thrown e, c')
       end.
Definition get : M Cursor := λ c, (Returned c, c).
Definition modify (f : Cursor → Cursor) : M unit := λ c, (Returned tt, f c).
Definition lift {A} (o : Outcome A) : M A := λ c, (o, c).

(** A member access on a value that may be [undefined] or [null]. *)
Definition defined {A} (o : option A) : M A :=
  match o with
  | Some a => ret a
  | None => throw TypeError
  end.

Declare Scope shared_scope.
Delimit Scope shared_scope with shared.
Notation "'let*' x ':=' m 'in' k" := (bind m (λ x, k))
  (at level 10, x name, m at level 100, k at level 200) : shared_scope.
Notation "m '>>' k" := (bind m (λ _, k))
  (at level 60, right associativity) : shared_scope.
Local Open Scope shared_scope.

(** *** The cursor location *)

(** [moveInto(nodeIndex, childIndex)] *)
Definition moveInto (nodeIndex childIndex : Z) : M unit :=
  modify (set_path (λ p,
    p ++ [mkLink nodeIndex childIndex (Z.of_nat (length p))])).

(** The body of the [while (i <= link._i)] loop of [resolveLinkInfo], run
    [trips] times from index [i]. *)
Fixpoint resolveLoop (s : nat → list MathNode) (path : list CursorPathLink)
    (trips : nat) (i : Z)
    (currentExpression : option nat) (currentNode : option MathNode)
  : Outcome LocationInfo :=
  match trips with
  | O => Returned (mkLocationInfo currentExpression currentNode)
  | S trips' =>
      match Js.index path i, currentExpression with
      | Some nextLink, Some expr =>
          match Js.index (s expr) (nodeIndex nextLink) with
          | Some node =>
              resolveLoop s path trips' (i + 1)
                (Js.index (children node) (childIndex nextLink))
                (Some node)
          | None => Thrown TypeError
          end
      | _, _ => Thrown TypeError
      end
  end.

Definition resolveLinkInfo (c : Cursor) (link : CursorPathLink)
  : Outcome LocationInfo :=
  resolveLoop (store c) (_path c) (Z.to_nat (_i link + 1)) 0
    (Some (_root c)) None.

Definition atRoot (c : Cursor) : bool :=
  bool_decide (length (_path c) = 0%nat).

(** The result is [None] (JavaScript's [undefined]) when only the last
    link's child index is out of range. *)
Definition getEnclosingExpression (c : Cursor) : Outcome (option nat) :=
  if negb (atRoot c) then
    match Js.index (_path c) (Z.of_nat (length (_path c)) - 1) with
    | Some topLevelLink =>
        match resolveLinkInfo c topLevelLink with
        | Returned info => Returned (enclosingExpression info)
        | Thrown e => Thrown e
        end
    | None => Thrown TypeError
    end
  else Returned (Some (_root c)).

Definition getTopLevelLink (c : Cursor) : Outcome CursorPathLink :=
  if negb (atRoot c) then
    match Js.index (_path c) (Z.of_nat (length (_path c)) - 1) with
    | Some l => Returned l
    | None => Thrown TypeError
    end
  else Thrown (Error "Cannot get top level cursor path link; stack is empty").

(** [this._location.pop()] *)
Definition pop : M CursorPathLink :=
  λ c,
    if atRoot c then
      (Thrown (Error "Cannot pop cursor path link off stack; stack is empty"),
       c)
    else
      match last (_path c) with
      | Some l => (Returned l, set_path (λ p, removelast p) c)
      | None => (Thrown TypeError, c)
      end.

(** *** The expression objects *)

(** [expression.insertNode(before, node)]: the object [node] itself goes
    into the array. *)
Definition insertNode (expression : option nat) (before : Z)
    (node : MathNode) : M unit :=
  let* e := defined expression in
  modify (set_store (λ s, write s e (Js.splice_insert (s e) before node))).

(** [expression.removeNthNode(index)] *)
Definition removeNthNode (expression : option nat) (index : Z) : M unit :=
  let* e := defined expression in
  let* c := get in
  if decide (index < 0 ∨ Z.of_nat (length (store c e)) ≤ index) then
    throw (Error "Attempted to remove node out of bounds")
  else
    modify (set_store (λ s, write s e (Js.splice_remove (s e) index))).

(** *** The cursor *)

Definition notifyUpdates : M unit :=
  modify (λ c, set_invoked (λ t, t ++ _onUpdateCallbacks c) c).

Definition enterNode (nodeIndex childIndex : Z) (direction : Direction)
  : M unit :=
  moveInto nodeIndex childIndex >>
  match direction with
  | Right => modify (set_cursorIndex (λ _, 0))
  | Left =>
      let* c := get in
      let* expression := lift (getEnclosingExpression c) in
      let* e := defined expression in
      modify (set_cursorIndex (λ _, Z.of_nat (length (store c e))))
  end >>
  notifyUpdates.

Definition leaveNode (direction : Direction) : M CursorPathLink :=
  let* link := pop in
  match direction with
  | Left => modify (set_cursorIndex (λ _, nodeIndex link))
  | Right => modify (set_cursorIndex (λ _, nodeIndex link + 1))
  end >>
  notifyUpdates >>
  ret link.

(** [insertCharacterAtCursor(character)]; [id] is the identifier drawn by
    [_provisionNewID] for the new [MathCharacter], which has no child. *)
Definition insertCharacterAtCursor (id character : string) : M unit :=
  let* c := get in
  let* expression := lift (getEnclosingExpression c) in
  insertNode expression (_cursorIndex c)
    (mkMathNode id (CharacterClass character) []) >>
  modify (set_cursorIndex (λ i, i + 1)) >>
  notifyUpdates.

(** [insertNodeAtCursor(node)]: [node] is the caller's object, whatever
    else holds it. *)
Definition insertNodeAtCursor (node : MathNode) : M Z :=
  let* c := get in
  let* expression := lift (getEnclosingExpression c) in
  insertNode expression (_cursorIndex c) node >>
  modify (set_cursorIndex (λ i, i + 1)) >>
  notifyUpdates >>
  let* c := get in
  ret (_cursorIndex c - 1).

Definition deleteCharacterAtCursor : M unit :=
  let* c := get in
  let* expression := lift (getEnclosingExpression c) in
  removeNthNode expression (_cursorIndex c - 1) >>
  modify (set_cursorIndex (λ i, i - 1)) >>
  notifyUpdates.

Definition removeEnclosingNode : M unit :=
  let* c := get in
  if atRoot c then throw (Error "No enclosing node to remove")
  else
    let* link := pop in
    let* c := get in
    let* expression := lift (getEnclosingExpression c) in
    removeNthNode expression (nodeIndex link) >>
    modify (set_cursorIndex (λ _, nodeIndex link)) >>
    notifyUpdates.

Definition moveRight : M unit :=
  let* c := get in
  let* expression := lift (getEnclosingExpression c) in
  let* e := defined expression in
  (if decide (_cursorIndex c = Z.of_nat (length (store c e))) then
     if negb (atRoot c) then leaveNode Right >> ret tt
     else ret tt
   else
     let* nextNode := defined (Js.index (store c e) (_cursorIndex c)) in
     if negb (bool_decide (length (children nextNode) = 0%nat)) then
       enterNode (_cursorIndex c) 0 Right
     else modify (set_cursorIndex (λ i, i + 1))) >>
  notifyUpdates.

Definition moveLeft : M unit :=
  let* c := get in
  let* expression := lift (getEnclosingExpression c) in
  (if decide (_cursorIndex c = 0) then
     if negb (atRoot c) then leaveNode Left >> ret tt
     else ret tt
   else
     let* e := defined expression in
     let* previousNode :=
       defined (Js.index (store c e) (_cursorIndex c - 1)) in
     if negb (bool_decide (length (children previousNode) = 0%nat)) then
       enterNode (_cursorIndex c - 1) 0 Left
     else modify (set_cursorIndex (λ i, i - 1))) >>
  notifyUpdates.

Definition moveDown : M unit :=
  let* c := get in
  if negb (atRoot c) then
    let* link := lift (getTopLevelLink c) in
    let* info := lift (resolveLinkInfo c link) in
    let currentChildIndex := childIndex link in
    let* enclosingNode := defined (enclosingNode info) in
    if decide (currentChildIndex
               < Z.of_nat (length (children enclosingNode)) - 1) then
      leaveNode Left >>
      enterNode (nodeIndex link) (currentChildIndex + 1) Left
    else ret tt
  else ret tt.

Definition moveUp : M unit :=
  let* c := get in
  if negb (atRoot c) then
    let* link := lift (getTopLevelLink c) in
    let* info := lift (resolveLinkInfo c link) in
    let currentChildIndex := childIndex link in
    if decide (currentChildIndex > 0) then
      leaveNode Left >>
      enterNode (nodeIndex link) (currentChildIndex - 1) Right
    else ret tt
  else ret tt.

(** *** Reachable cursors and the invariant *)

(** The public operations that move the cursor or edit the document. *)
Inductive Operation : Type :=
| EnterNode (nodeIndex childIndex : Z) (direction : Direction)
| LeaveNode (direction : Direction)
| RemoveEnclosingNode
| DeleteCharacterAtCursor
| MoveRight
| MoveLeft
| MoveUp
| MoveDown
| InsertCharacterAtCursor (id character : string)
| InsertNodeAtCursor (node : MathNode).

(** The call an operation stands for, its result dropped. *)
Definition perform (op : Operation) : M unit :=
  match op with
  | EnterNode n ch d => enterNode n ch d
  | LeaveNode d => bind (leaveNode d) (λ _, ret tt)
  | RemoveEnclosingNode => removeEnclosingNode
  | DeleteCharacterAtCursor => deleteCharacterAtCursor
  | MoveRight => moveRight
  | MoveLeft => moveLeft
  | MoveUp => moveUp
  | MoveDown => moveDown
  | InsertCharacterAtCursor id ch => insertCharacterAtCursor id ch
  | InsertNodeAtCursor node => bind (insertNodeAtCursor node) (λ _, ret tt)
  end.

(** What the caller owes each operation. *)
Definition precondition (op : Operation) (c : Cursor) : Prop :=
  match op with
  | EnterNode n ch _ =>
      ∃ e node child,
        getEnclosingExpression c = Returned (Some e) ∧
        Js.index (store c e) n = Some node ∧
        Js.index (children node) ch = Some child
  | LeaveNode _ | RemoveEnclosingNode => atRoot c = false
  | DeleteCharacterAtCursor => 0 < _cursorIndex c
  | _ => True
  end.

(** The cursors the operations can produce from an initial one: any
    document, the empty path, position 0. *)
Inductive reachable : Cursor → Prop :=
| reachable_initial (c : Cursor) :
    _path c = [] → _cursorIndex c = 0 → reachable c
| reachable_step (c : Cursor) (op : Operation) :
    reachable c → precondition op c → reachable (snd (perform op c)).

(** The expression object found at an address under the expression [e]. *)
Fixpoint expr_at (s : nat → list MathNode) (e : nat) (a : Address)
  : option nat :=
  match a with
  | [] => Some e
  | (n, c) :: rest =>
      node ← Js.index (s e) n;
      child ← Js.index (children node) c;
      expr_at s child rest
  end.

(** The link [l], found after the links [prefix], indexes a node of the
    expression [prefix] leads to, and a child expression of that node. *)
Definition link_valid (c : Cursor) (prefix : list CursorPathLink)
    (l : CursorPathLink) : Prop :=
  ∃ (e : nat) (node : MathNode),
    expr_at (store c) (_root c) (path_address prefix) = Some e ∧
    0 ≤ nodeIndex l < Z.of_nat (length (store c e)) ∧
    store c e !! Z.to_nat (nodeIndex l) = Some node ∧
    0 ≤ childIndex l < Z.of_nat (length (children node)).

(** The position lies within the enclosing expression, and every link of
    the path is valid in the document as it stands. *)
Definition invariant (c : Cursor) : Prop :=
  (∃ e : nat,
     getEnclosingExpression c = Returned (Some e) ∧
     0 ≤ _cursorIndex c ≤ Z.of_nat (length (store c e))) ∧
  (∀ (k : nat) (l : CursorPathLink),
     _path c !! k = Some l → link_valid c (take k (_path c)) l).

(** *** Documents in which no expression contains itself *)

(** The expression [e] lies inside the node: under one of its children. *)
Definition contains (s : nat → list MathNode) (node : MathNode) (e : nat)
  : Prop :=
  ∃ (c : Z) (child : nat) (a : Address),
    Js.index (children node) c = Some child ∧ expr_at s child a = Some e.

(** No expression object of the store is found under itself. *)
Definition acyclic (s : nat → list MathNode) : Prop :=
  ∀ (e : nat) (a : Address), a ≠ [] → expr_at s e a ≠ Some e.

(** The node the caller passes to [insertNodeAtCursor] does not contain
    the expression the cursor is in. *)
Definition outside (c : Cursor) (node : MathNode) : Prop :=
  ∀ e, getEnclosingExpression c = Returned (Some e) →
       ¬ contains (store c) node e.

(** What the caller owes each operation on such a document. *)
Definition precondition_acyclic (op : Operation) (c : Cursor) : Prop :=
  precondition op c ∧
  match op with
  | InsertNodeAtCursor node => outside c node
  | _ => True
  end.

(** The cursors the operations can produce from an initial one when no
    expression object contains itself at the start: none of the document,
    and none under a node the caller inserts later. *)
Inductive reachable_acyclic : Cursor → Prop :=
| reachable_acyclic_initial (c : Cursor) :
    acyclic (store c) → _path c = [] → _cursorIndex c = 0 →
    reachable_acyclic c
| reachable_acyclic_step (c : Cursor) (op : Operation) :
    reachable_acyclic c → precondition_acyclic op c →
    reachable_acyclic (snd (perform op c)).

(** A store, a root, a path and a position that fit together: the links
    are numbered, the path leads to an expression, and the position lies
    within that expression. *)
Definition wf_at (s : nat → list MathNode) (r : nat)
    (p : list CursorPathLink) (i : Z) : Prop :=
  numbered p ∧
  ∃ e, expr_at s r (path_address p) = Some e ∧
       0 ≤ i ≤ Z.of_nat (length (s e)).

(** A well-formed cursor over a document in which no expression contains
    itself. *)
Definition wf (c : Cursor) : Prop :=
  acyclic (store c) ∧ wf_at (store c) (_root c) (_path c) (_cursorIndex c).

(** The operations that end with a call of [notifyUpdates] of their own or
    of the operation they end with. *)
Definition notifies (op : Operation) : bool :=
  match op with
  | MoveUp | MoveDown => false
  | _ => true
  end.

(** The observers' trace after [k] more rounds of notification. *)
Definition notified (c : Cursor) (k : nat) : list Callback :=
  invoked c ++ concat (replicate k (_onUpdateCallbacks c)).

(** The cursor [c] once its store, path and position have become [s], [p]
    and [i] and its observers have been notified [k] times. *)
Definition relocate (c : Cursor) (s : nat → list MathNode)
    (p : list CursorPathLink) (i : Z) (k : nat) : Cursor :=
  mkCursor s (_root c) p i (_onUpdateCallbacks c) (notified c k).

(** Every callback registered with [c] was invoked between [c] and [c']. *)
Definition all_notified (c c' : Cursor) : Prop :=
  ∃ newer : list Callback,
    invoked c' = invoked c ++ newer ∧
    ∀ cb : Callback, cb ∈ _onUpdateCallbacks c → cb ∈ newer.

(** *** A fraction inserted into its own numerator *)

(** The cursor after a list of calls. *)
Definition run (ops : list Operation) (c : Cursor) : Cursor :=
  foldl (λ c op, snd (perform op c)) c ops.

(** What [new Fraction()] builds: a node whose numerator and denominator
    are two new expressions, here 1 and 2. *)
Definition fraction : MathNode :=
  mkMathNode "f" (DoubleChildClass Fraction) [1%nat; 2%nat].

(** The cursor [new Cursor(root)] on an empty root expression, here 0, with
    one observer, named 7. *)
Definition initial : Cursor :=
  mkCursor (λ _, []) 0%nat [] 0 [7%nat] [].

(** The calls [insertNodeAtCursor(f)] and [enterNode(0, 0, "right")]: the
    cursor is in the numerator of [f]. *)
Definition in_numerator : Cursor :=
  run [InsertNodeAtCursor fraction; EnterNode 0 0 Right] initial.

(** Then [insertNodeAtCursor(f)] with the same [f], [moveLeft()] and
    [deleteCharacterAtCursor()]. *)
Definition fraction_in_itself : Cursor :=
  run [InsertNodeAtCursor fraction; MoveLeft; DeleteCharacterAtCursor]
    in_numerator.

(** A root expression built before the cursor, by
    [root.insertNode(0, f)] and [f.children[0].insertNode(0, f)]: the
    numerator of [f] holds [f]. *)
Definition cyclic_root : Cursor :=
  mkCursor (λ e, if decide (e = 0%nat ∨ e = 1%nat) then [fraction] else [])
    0%nat [] 0 [] [].

End Shared.
Arguments Shared.resolveLoop : simpl never.
Arguments Shared.resolveLinkInfo : simpl never.
Arguments Shared.getEnclosingExpression : simpl never.
Arguments Shared.getTopLevelLink : simpl never.
Arguments Shared.pop : simpl never.
Arguments Shared.atRoot : simpl never.
Arguments Shared.notifyUpdates : simpl never.
Arguments Shared.insertNode : simpl never.
Arguments Shared.removeNthNode : simpl never.
Arguments Shared.enterNode : simpl never.
Arguments Shared.leaveNode : simpl never.
Arguments Shared.insertCharacterAtCursor : simpl never.
Arguments Shared.insertNodeAtCursor : simpl never.
Arguments Shared.deleteCharacterAtCursor : simpl never.
Arguments Shared.removeEnclosingNode : simpl never.
Arguments Shared.moveRight : simpl never.
Arguments Shared.moveLeft : simpl never.
Arguments Shared.moveDown : simpl never.
Arguments Shared.moveUp : simpl never.

(** * Properties *)

(** ** Arrays *)

Lemma index_Some {A} (l : list A) (i : Z) (x : A) :
  Js.index l i = Some x ↔ 0 ≤ i ∧ l !! Z.to_nat i = Some x.
Proof.
  unfold Js.index. case_decide; split; intros H'; try tauto; easy.
Qed.

Lemma index_bounds {A} (l : list A) (i : Z) (x : A) :
  Js.index l i = Some x → 0 ≤ i < Z.of_nat (length l).
Proof.
  intros [Hi Hl]%index_Some. apply lookup_lt_Some in Hl. lia.
Qed.

Lemma index_in_range {A} (l : list A) (i : Z) :
  0 ≤ i < Z.of_nat (length l) → ∃ x, Js.index l i = Some x.
Proof.
  intros Hi. destruct (lookup_lt_is_Some_2 l (Z.to_nat i)) as [x Hx]; [lia|].
  exists x. apply index_Some. split; [lia|done].
Qed.

Lemma index_None {A} (l : list A) (i : Z) :
  i < 0 ∨ Z.of_nat (length l) ≤ i → Js.index l i = None.
Proof.
  intros Hi. unfold Js.index. case_decide; [|done].
  apply lookup_ge_None_2. lia.
Qed.

Lemma index_middle {A} (l1 l2 : list A) (x : A) :
  Js.index (l1 ++ x :: l2) (Z.of_nat (length l1)) = Some x.
Proof.
  apply index_Some. split; [lia|].
  rewrite Nat2Z.id. apply list_lookup_middle. done.
Qed.

Lemma index_last {A} (l : list A) (x : A) :
  Js.index (l ++ [x]) (Z.of_nat (length (l ++ [x])) - 1) = Some x.
Proof.
  rewrite length_app. simpl.
  replace (Z.of_nat (length l + 1) - 1) with (Z.of_nat (length l)) by lia.
  apply index_middle.
Qed.

Lemma index_insert {A} (l : list A) (i : Z) (x y : A) :
  Js.index l i = Some x → Js.index (<[Z.to_nat i := y]> l) i = Some y.
Proof.
  intros [Hi Hl]%index_Some. apply index_Some. split; [done|].
  apply list_lookup_insert_eq. by eapply lookup_lt_Some.
Qed.

(** ** The tree *)

Lemma children_with_child (node : MathNode) (c : Z) (child e : MathExpression) :
  Js.index (children node) c = Some child →
  Js.index (children (with_child node c e)) c = Some e.
Proof.
  intros H. pose proof (index_bounds _ _ _ H) as Hc.
  destruct node as [i ch|i k c0|i k c0 c1]; simpl in *.
  - lia.
  - assert (c = 0) as -> by lia. done.
  - assert (c = 0 ∨ c = 1) as [-> | ->] by lia; done.
Qed.

Lemma expr_at_app (e : MathExpression) (a b : Address) :
  expr_at e (a ++ b) = expr_at e a ≫= λ e', expr_at e' b.
Proof.
  revert e. induction a as [|[n c] a IH]; intros e; simpl; [done|].
  destruct (Js.index e n) as [node|]; simpl; [|done].
  destruct (Js.index (children node) c) as [child|]; simpl; [|done].
  apply IH.
Qed.

Lemma expr_at_snoc (e : MathExpression) (a : Address) (n c : Z)
    (e' : MathExpression) :
  expr_at e (a ++ [(n, c)]) = Some e' ↔
  ∃ ep node, expr_at e a = Some ep ∧ Js.index ep n = Some node ∧
             Js.index (children node) c = Some e'.
Proof.
  rewrite expr_at_app. split.
  - destruct (expr_at e a) as [ep|]; simpl; [|done].
    destruct (Js.index ep n) as [node|] eqn:Hn; simpl; [|done].
    destruct (Js.index (children node) c) as [child|] eqn:Hc; simpl; [|done].
    intros [= <-]. eauto.
  - intros (ep & node & -> & Hn & Hc). simpl. rewrite Hn. simpl.
    rewrite Hc. done.
Qed.

(** Writing an expression and reading it back. *)
Lemma expr_at_write (e : MathExpression) (a : Address)
    (old new : list MathNode) :
  expr_at e a = Some old → expr_at (write_expr e a new) a = Some new.
Proof.
  revert e. induction a as [|[n c] a IH]; intros e; simpl; [done|].
  destruct (Js.index e n) as [node|] eqn:Hn; simpl; [|done].
  destruct (Js.index (children node) c) as [child|] eqn:Hc; simpl; [|done].
  intros Hold.
  erewrite index_insert by done. simpl.
  erewrite children_with_child by done. simpl.
  by apply IH.
Qed.

(** ** Paths *)

Lemma path_address_snoc (p : list CursorPathLink) (l : CursorPathLink) :
  path_address (p ++ [l]) = path_address p ++ [(nodeIndex l, childIndex l)].
Proof. unfold path_address. by rewrite map_app. Qed.

Lemma numbered_nil : numbered [].
Proof. intros k l. by rewrite lookup_nil. Qed.

Lemma numbered_snoc (p : list CursorPathLink) (l : CursorPathLink) :
  numbered (p ++ [l]) ↔ numbered p ∧ _i l = Z.of_nat (length p).
Proof.
  split.
  - intros H. split.
    + intros k l' Hk. apply H. by apply lookup_app_l_Some.
    + apply H. by apply list_lookup_middle.
  - intros [Hp Hl] k l' Hk. apply lookup_app_Some in Hk as [Hk|[Hlen Hk]].
    + by apply Hp.
    + apply list_lookup_singleton_Some in Hk as [Hk <-]. lia.
Qed.

(** ** The cursor location on a path that resolves *)

Lemma atRoot_snoc (p : list CursorPathLink) (l : CursorPathLink)
    (r : MathExpression) :
  CursorLocation.atRoot (mkLocation (p ++ [l]) r) = false.
Proof.
  unfold CursorLocation.atRoot. apply bool_decide_eq_false. simpl.
  rewrite length_app. simpl. lia.
Qed.

Lemma atRoot_true (l : CursorLocation) :
  CursorLocation.atRoot l = true ↔ _path l = [].
Proof.
  unfold CursorLocation.atRoot. rewrite bool_decide_eq_true.
  apply length_zero_iff_nil.
Qed.

Lemma pop_snoc (p : list CursorPathLink) (l : CursorPathLink)
    (r : MathExpression) :
  CursorLocation.pop (mkLocation (p ++ [l]) r) = (Returned l, mkLocation p r).
Proof.
  unfold CursorLocation.pop. rewrite atRoot_snoc. simpl.
  by rewrite last_snoc, removelast_last.
Qed.

Lemma getTopLevelLink_snoc (p : list CursorPathLink) (l : CursorPathLink)
    (r : MathExpression) :
  CursorLocation.getTopLevelLink (mkLocation (p ++ [l]) r) = Returned l.
Proof.
  unfold CursorLocation.getTopLevelLink. rewrite atRoot_snoc. simpl.
  by rewrite index_last.
Qed.

Lemma resolveLoop_step (path : list CursorPathLink) (trips : nat) (i : Z)
    (expr : ExprRef) (node0 : option MathNode) (nextLink : CursorPathLink)
    (node : MathNode) :
  Js.index path i = Some nextLink →
  Js.index (getNodes expr) (nodeIndex nextLink) = Some node →
  CursorLocation.resolveLoop path (S trips) i (Some expr) node0
  = CursorLocation.resolveLoop path trips (i + 1)
      (child ← Js.index (children node) (childIndex nextLink);
       Some (mkExprRef
               (address expr ++ [(nodeIndex nextLink, childIndex nextLink)])
               child))
      (Some node).
Proof.
  intros Hl Hn. unfold CursorLocation.resolveLoop at 1.
  fold CursorLocation.resolveLoop. by rewrite Hl, Hn.
Qed.

(** The loop of [resolveLinkInfo] walks a valid path to its end. *)
Lemma resolveLoop_snoc (prefix : list CursorPathLink) :
  ∀ (done : list CursorPathLink) (a : Address) (cur : MathExpression)
    (node0 : option MathNode) (l : CursorPathLink)
    (ep : MathExpression) (node : MathNode) (child : MathExpression),
    expr_at cur (path_address prefix) = Some ep →
    Js.index ep (nodeIndex l) = Some node →
    Js.index (children node) (childIndex l) = Some child →
    CursorLocation.resolveLoop (done ++ prefix ++ [l]) (S (length prefix))
      (Z.of_nat (length done)) (Some (mkExprRef a cur)) node0
    = Returned (mkLocationInfo
                  (Some (mkExprRef (a ++ path_address (prefix ++ [l])) child))
                  (Some node)).
Proof.
  induction prefix as [|l0 prefix IH];
    intros done a cur node0 l ep node child Hep Hn Hc.
  - simpl in Hep. injection Hep as <-.
    erewrite resolveLoop_step; [|apply index_middle|exact Hn].
    simpl. by rewrite Hc.
  - simpl in Hep.
    destruct (Js.index cur (nodeIndex l0)) as [nd|] eqn:Hn0; [|done].
    simpl in Hep.
    destruct (Js.index (children nd) (childIndex l0)) as [ch|] eqn:Hc0;
      [|done].
    simpl in Hep.
    erewrite resolveLoop_step;
      [|rewrite <- app_comm_cons; apply index_middle|exact Hn0].
    rewrite Hc0. simpl mbind. simpl address.
    specialize (IH (done ++ [l0]) (a ++ [(nodeIndex l0, childIndex l0)])
                  ch (Some nd) l ep node child Hep Hn Hc).
    rewrite length_app in IH. simpl length in IH.
    replace (Z.of_nat (length done + 1)) with (Z.of_nat (length done) + 1)
      in IH by lia.
    rewrite <- !app_assoc in IH. simpl app in IH.
    rewrite <- app_comm_cons. simpl length. rewrite IH.
    reflexivity.
Qed.

Lemma resolveLinkInfo_valid (p : list CursorPathLink) (l : CursorPathLink)
    (r ep : MathExpression) (node : MathNode) (child : MathExpression) :
  _i l = Z.of_nat (length p) →
  expr_at r (path_address p) = Some ep →
  Js.index ep (nodeIndex l) = Some node →
  Js.index (children node) (childIndex l) = Some child →
  CursorLocation.resolveLinkInfo (mkLocation (p ++ [l]) r) l
  = Returned (mkLocationInfo
                (Some (mkExprRef (path_address (p ++ [l])) child))
                (Some node)).
Proof.
  intros Hi Hep Hn Hc. unfold CursorLocation.resolveLinkInfo. simpl _path.
  rewrite Hi.
  replace (Z.to_nat (Z.of_nat (length p) + 1)) with (S (length p)) by lia.
  exact (resolveLoop_snoc p [] [] r None l ep node child Hep Hn Hc).
Qed.

Lemma getEnclosingExpression_valid (p : list CursorPathLink)
    (r e : MathExpression) :
  numbered p →
  expr_at r (path_address p) = Some e →
  CursorLocation.getEnclosingExpression (mkLocation p r)
  = Returned (Some (mkExprRef (path_address p) e)).
Proof.
  intros Hnum He. destruct p as [|l0 p0] using rev_ind.
  - simpl in He. by injection He as <-.
  - clear IHp0. unfold CursorLocation.getEnclosingExpression.
    rewrite atRoot_snoc. simpl negb. cbv iota. simpl _path.
    rewrite index_last.
    apply numbered_snoc in Hnum as [_ Hi].
    rewrite path_address_snoc in He.
    apply expr_at_snoc in He as (ep & node & Hep & Hn & Hc).
    by erewrite resolveLinkInfo_valid.
Qed.

(** ** What each operation does to a cursor *)

Lemma relocate_relocate (c : Cursor) (r r' : MathExpression)
    (p p' : list CursorPathLink) (i i' : Z) (k k' : nat) :
  relocate (relocate c r p i k) r' p' i' k' = relocate c r' p' i' (k + k').
Proof.
  unfold relocate, notified. simpl. f_equal.
  by rewrite replicate_add, concat_app, app_assoc.
Qed.

Lemma relocate_same (c : Cursor) :
  relocate c (root c) (path c) (_cursorIndex c) 0 = c.
Proof.
  destruct c as [[p r] i cbs fcbs bl lb fo sm inv].
  unfold relocate, notified. simpl. by rewrite app_nil_r.
Qed.

Lemma notified_1 (c : Cursor) :
  notified c 1 = invoked c ++ _onUpdateCallbacks c.
Proof. unfold notified. simpl. by rewrite app_nil_r. Qed.

Ltac fields c :=
  let p := fresh "p" in
  let r := fresh "r" in
  let i := fresh "i" in
  destruct c as [[p r] i ? ? ? ? ? ? ?];
  unfold wf, root, path in *; simpl in *.

Ltac run :=
  unfold bind, get, modify, lift, ret, throw, defined, set_root,
    set_location, set_cursorIndex, set_invoked, CursorLocation.moveInto;
  simpl.

Ltac same_cursor :=
  unfold relocate, notified, set_root, set_location, set_cursorIndex,
    set_invoked; simpl;
  rewrite ?app_nil_r, <- ?app_assoc; try reflexivity.

Lemma notifyUpdates_spec (c : Cursor) :
  Cursor.notifyUpdates c
  = (Returned tt, relocate c (root c) (path c) (_cursorIndex c) 1).
Proof.
  fields c. unfold Cursor.notifyUpdates. run. f_equal. same_cursor.
Qed.

Lemma getEnclosingExpression_spec (c : Cursor) (e : MathExpression) :
  numbered (path c) →
  expr_at (root c) (path_address (path c)) = Some e →
  Cursor.getEnclosingExpression c
  = (Returned (Some (mkExprRef (path_address (path c)) e)), c).
Proof.
  intros Hnum He. fields c. unfold Cursor.getEnclosingExpression. run.
  by erewrite getEnclosingExpression_valid.
Qed.

Lemma enterNode_spec (c : Cursor) (n ch : Z) (d : Direction)
    (e : MathExpression) (node : MathNode) (child : MathExpression) :
  numbered (path c) →
  expr_at (root c) (path_address (path c)) = Some e →
  Js.index e n = Some node →
  Js.index (children node) ch = Some child →
  Cursor.enterNode n ch d c
  = (Returned tt,
     relocate c (root c)
       (path c ++ [mkLink n ch (Z.of_nat (length (path c)))])
       (match d with Right => 0 | Left => Z.of_nat (length child) end) 1).
Proof.
  intros Hnum He Hn Hc. fields c. unfold Cursor.enterNode. run.
  destruct d; run.
  - unfold Cursor.getEnclosingExpression. run.
    erewrite getEnclosingExpression_valid.
    + simpl. unfold Cursor.notifyUpdates. run. f_equal. same_cursor.
    + apply numbered_snoc. done.
    + rewrite path_address_snoc. apply expr_at_snoc. simpl. eauto.
  - unfold Cursor.notifyUpdates. run. f_equal. same_cursor.
Qed.

Lemma leaveNode_spec (c : Cursor) (d : Direction)
    (p : list CursorPathLink) (l : CursorPathLink) :
  path c = p ++ [l] →
  Cursor.leaveNode d c
  = (Returned l,
     relocate c (root c) p
       (match d with Left => nodeIndex l | Right => nodeIndex l + 1 end) 1).
Proof.
  intros Hp. fields c. subst. unfold Cursor.leaveNode, Cursor.pop. run.
  rewrite pop_snoc. destruct d; unfold Cursor.notifyUpdates; run;
    f_equal; same_cursor.
Qed.

Lemma insertNodeAtCursor_spec (c : Cursor) (node : MathNode)
    (e : MathExpression) :
  numbered (path c) →
  expr_at (root c) (path_address (path c)) = Some e →
  Cursor.insertNodeAtCursor node c
  = (Returned (_cursorIndex c),
     relocate c
       (write_expr (root c) (path_address (path c))
          (MathExpression.insertNode e (_cursorIndex c) node))
       (path c) (_cursorIndex c + 1) 1).
Proof.
  intros Hnum He. fields c.
  unfold Cursor.insertNodeAtCursor, Cursor.getEnclosingExpression. run.
  erewrite getEnclosingExpression_valid by done.
  unfold Cursor.insertNode, Cursor.notifyUpdates. run.
  f_equal; [f_equal; lia|same_cursor].
Qed.

Lemma insertCharacterAtCursor_spec (c : Cursor) (id character : string)
    (e : MathExpression) :
  numbered (path c) →
  expr_at (root c) (path_address (path c)) = Some e →
  Cursor.insertCharacterAtCursor id character c
  = (Returned tt,
     relocate c
       (write_expr (root c) (path_address (path c))
          (MathExpression.insertNode e (_cursorIndex c)
             (MathCharacter id character)))
       (path c) (_cursorIndex c + 1) 1).
Proof.
  intros Hnum He. fields c.
  unfold Cursor.insertCharacterAtCursor, Cursor.getEnclosingExpression. run.
  erewrite getEnclosingExpression_valid by done.
  unfold Cursor.insertNode, Cursor.notifyUpdates. run.
  f_equal. same_cursor.
Qed.

Lemma removeNthNode_in_range (nodes : list MathNode) (index : Z) :
  0 ≤ index < Z.of_nat (length nodes) →
  MathExpression.removeNthNode nodes index
  = Returned (delete (Z.to_nat index) nodes).
Proof.
  intros Hi. unfold MathExpression.removeNthNode.
  case_decide; [lia|]. f_equal. unfold Js.splice_remove, Js.splice_start.
  case_decide; [lia|]. rewrite Z.min_l by lia.
  by rewrite delete_take_drop.
Qed.

Lemma removeNthNode_out_of_range (nodes : list MathNode) (index : Z) :
  index < 0 ∨ Z.of_nat (length nodes) ≤ index →
  MathExpression.removeNthNode nodes index
  = Thrown (Error "Attempted to remove node out of bounds").
Proof.
  intros Hi. unfold MathExpression.removeNthNode. by case_decide.
Qed.

Lemma deleteCharacterAtCursor_spec (c : Cursor) (e : MathExpression) :
  numbered (path c) →
  expr_at (root c) (path_address (path c)) = Some e →
  0 < _cursorIndex c ≤ Z.of_nat (length e) →
  Cursor.deleteCharacterAtCursor c
  = (Returned tt,
     relocate c
       (write_expr (root c) (path_address (path c))
          (delete (Z.to_nat (_cursorIndex c - 1)) e))
       (path c) (_cursorIndex c - 1) 1).
Proof.
  intros Hnum He Hi. fields c.
  unfold Cursor.deleteCharacterAtCursor, Cursor.getEnclosingExpression. run.
  erewrite getEnclosingExpression_valid by done.
  unfold Cursor.removeNthNode. run.
  rewrite removeNthNode_in_range by lia.
  unfold Cursor.notifyUpdates. run. f_equal. same_cursor.
Qed.

Lemma removeEnclosingNode_spec (c : Cursor) (p : list CursorPathLink)
    (l : CursorPathLink) (ep : MathExpression) (node : MathNode) :
  path c = p ++ [l] →
  numbered p →
  expr_at (root c) (path_address p) = Some ep →
  Js.index ep (nodeIndex l) = Some node →
  Cursor.removeEnclosingNode c
  = (Returned tt,
     relocate c
       (write_expr (root c) (path_address p)
          (delete (Z.to_nat (nodeIndex l)) ep))
       p (nodeIndex l) 1).
Proof.
  intros Hp Hnum Hep Hn. fields c. subst.
  unfold Cursor.removeEnclosingNode. run. rewrite atRoot_snoc.
  unfold Cursor.pop. run. rewrite pop_snoc.
  unfold Cursor.getEnclosingExpression. run.
  erewrite getEnclosingExpression_valid by done.
  unfold Cursor.removeNthNode. run.
  rewrite removeNthNode_in_range by (by eapply index_bounds).
  unfold Cursor.notifyUpdates. run. f_equal. same_cursor.
Qed.

(** *** Running a method step by step *)

Lemma bind_returned {A B} (m : M A) (k : A → M B) (c c' : Cursor) (a : A) :
  m c = (Returned a, c') → bind m k c = k a c'.
Proof. intros H. unfold bind. by rewrite H. Qed.

Lemma bind_thrown {A B} (m : M A) (k : A → M B) (c c' : Cursor) (e : Exn) :
  m c = (Thrown e, c') → bind m k c = (Thrown e, c').
Proof. intros H. unfold bind. by rewrite H. Qed.

Lemma root_relocate c r p i k : root (relocate c r p i k) = r.
Proof. done. Qed.
Lemma path_relocate c r p i k : path (relocate c r p i k) = p.
Proof. done. Qed.
Lemma index_relocate c r p i k : _cursorIndex (relocate c r p i k) = i.
Proof. done. Qed.
Lemma location_relocate c r p i k :
  _location (relocate c r p i k) = mkLocation p r.
Proof. done. Qed.

Create Rewrite HintDb relocate.
Hint Rewrite root_relocate path_relocate index_relocate : relocate.

Lemma notify_relocate c r p i k :
  Cursor.notifyUpdates (relocate c r p i k)
  = (Returned tt, relocate c r p i (k + 1)).
Proof.
  rewrite notifyUpdates_spec.
  by rewrite root_relocate, path_relocate, index_relocate, relocate_relocate.
Qed.

Lemma notify_first c :
  Cursor.notifyUpdates c
  = (Returned tt, relocate c (root c) (path c) (_cursorIndex c) 1).
Proof. apply notifyUpdates_spec. Qed.

Lemma location_eta (c : Cursor) : _location c = mkLocation (path c) (root c).
Proof. by destruct c as [[p r] ? ? ? ? ? ? ? ?]. Qed.

Section Moves.
Context (c : Cursor) (e : MathExpression).
Hypothesis Hnum : numbered (path c).
Hypothesis He : expr_at (root c) (path_address (path c)) = Some e.

Lemma moveRight_at_end_of_root :
  _cursorIndex c = Z.of_nat (length e) → path c = [] →
  Cursor.moveRight c
  = (Returned tt, relocate c (root c) [] (_cursorIndex c) 1).
Proof using Hnum He.
  intros Hi Hp. unfold Cursor.moveRight.
  erewrite bind_returned by (by apply getEnclosingExpression_spec).
  run. rewrite decide_True by done.
  rewrite location_eta, Hp. simpl. rewrite notify_first.
  by rewrite Hp.
Qed.

Lemma moveRight_at_end (p : list CursorPathLink) (l : CursorPathLink) :
  _cursorIndex c = Z.of_nat (length e) → path c = p ++ [l] →
  Cursor.moveRight c
  = (Returned tt, relocate c (root c) p (nodeIndex l + 1) 2).
Proof using Hnum He.
  intros Hi Hp. unfold Cursor.moveRight.
  erewrite bind_returned by (by apply getEnclosingExpression_spec).
  run. rewrite decide_True by done.
  rewrite location_eta, Hp, atRoot_snoc. cbn.
  erewrite leaveNode_spec by done. by rewrite notify_relocate.
Qed.

Lemma moveRight_into (node : MathNode) (child : MathExpression) :
  Js.index e (_cursorIndex c) = Some node →
  Js.index (children node) 0 = Some child →
  Cursor.moveRight c
  = (Returned tt,
     relocate c (root c)
       (path c ++ [mkLink (_cursorIndex c) 0 (Z.of_nat (length (path c)))])
       0 2).
Proof using Hnum He.
  intros Hn Hc. unfold Cursor.moveRight.
  erewrite bind_returned by (by apply getEnclosingExpression_spec).
  run. pose proof (index_bounds _ _ _ Hn).
  rewrite decide_False by lia. rewrite Hn. run.
  apply index_bounds in Hc as Hlen.
  rewrite bool_decide_eq_false_2 by lia. cbn.
  erewrite enterNode_spec by done. by rewrite notify_relocate.
Qed.

Lemma moveRight_over (node : MathNode) :
  Js.index e (_cursorIndex c) = Some node →
  children node = [] →
  Cursor.moveRight c
  = (Returned tt, relocate c (root c) (path c) (_cursorIndex c + 1) 1).
Proof using Hnum He.
  intros Hn Hc. unfold Cursor.moveRight.
  erewrite bind_returned by (by apply getEnclosingExpression_spec).
  run. pose proof (index_bounds _ _ _ Hn).
  rewrite decide_False by lia. rewrite Hn. run. rewrite Hc. simpl.
  by rewrite notifyUpdates_spec.
Qed.

Lemma moveLeft_at_start_of_root :
  _cursorIndex c = 0 → path c = [] →
  Cursor.moveLeft c
  = (Returned tt, relocate c (root c) [] (_cursorIndex c) 1).
Proof using Hnum He.
  intros Hi Hp. unfold Cursor.moveLeft.
  erewrite bind_returned by (by apply getEnclosingExpression_spec).
  run. rewrite decide_True by done.
  rewrite location_eta, Hp. simpl. rewrite notify_first.
  by rewrite Hp.
Qed.

Lemma moveLeft_at_start (p : list CursorPathLink) (l : CursorPathLink) :
  _cursorIndex c = 0 → path c = p ++ [l] →
  Cursor.moveLeft c
  = (Returned tt, relocate c (root c) p (nodeIndex l) 2).
Proof using Hnum He.
  intros Hi Hp. unfold Cursor.moveLeft.
  erewrite bind_returned by (by apply getEnclosingExpression_spec).
  run. rewrite decide_True by done.
  rewrite location_eta, Hp, atRoot_snoc. cbn.
  erewrite leaveNode_spec by done. by rewrite notify_relocate.
Qed.

Lemma moveLeft_into (node : MathNode) (child : MathExpression) :
  _cursorIndex c ≠ 0 →
  Js.index e (_cursorIndex c - 1) = Some node →
  Js.index (children node) 0 = Some child →
  Cursor.moveLeft c
  = (Returned tt,
     relocate c (root c)
       (path c ++
          [mkLink (_cursorIndex c - 1) 0 (Z.of_nat (length (path c)))])
       (Z.of_nat (length child)) 2).
Proof using Hnum He.
  intros Hi Hn Hc. unfold Cursor.moveLeft.
  erewrite bind_returned by (by apply getEnclosingExpression_spec).
  run. rewrite decide_False by done. rewrite Hn. run.
  apply index_bounds in Hc as Hlen.
  rewrite bool_decide_eq_false_2 by lia. cbn.
  erewrite enterNode_spec by done. by rewrite notify_relocate.
Qed.

Lemma moveLeft_over (node : MathNode) :
  _cursorIndex c ≠ 0 →
  Js.index e (_cursorIndex c - 1) = Some node →
  children node = [] →
  Cursor.moveLeft c
  = (Returned tt, relocate c (root c) (path c) (_cursorIndex c - 1) 1).
Proof using Hnum He.
  intros Hi Hn Hc. unfold Cursor.moveLeft.
  erewrite bind_returned by (by apply getEnclosingExpression_spec).
  run. rewrite decide_False by done. rewrite Hn. run. rewrite Hc. simpl.
  by rewrite notifyUpdates_spec.
Qed.

End Moves.

Lemma moveDown_at_root (c : Cursor) :
  path c = [] → Cursor.moveDown c = (Returned tt, c).
Proof.
  intros Hp. unfold Cursor.moveDown. run.
  by rewrite location_eta, Hp.
Qed.

Lemma moveUp_at_root (c : Cursor) :
  path c = [] → Cursor.moveUp c = (Returned tt, c).
Proof.
  intros Hp. unfold Cursor.moveUp. run.
  by rewrite location_eta, Hp.
Qed.

Section VerticalMoves.
Context (c : Cursor) (p : list CursorPathLink) (l : CursorPathLink).
Context (ep : MathExpression) (node : MathNode) (child : MathExpression).
Hypothesis Hp : path c = p ++ [l].
Hypothesis Hnum : numbered (path c).
Hypothesis Hep : expr_at (root c) (path_address p) = Some ep.
Hypothesis Hn : Js.index ep (nodeIndex l) = Some node.
Hypothesis Hc : Js.index (children node) (childIndex l) = Some child.

Lemma not_atRoot : CursorLocation.atRoot (_location c) = false.
Proof using Hp. rewrite location_eta, Hp. apply atRoot_snoc. Qed.

Lemma top_link : CursorLocation.getTopLevelLink (_location c) = Returned l.
Proof using Hp. rewrite location_eta, Hp. apply getTopLevelLink_snoc. Qed.

Lemma top_link_resolves :
  CursorLocation.resolveLinkInfo (_location c) l
  = Returned (mkLocationInfo
                (Some (mkExprRef (path_address (p ++ [l])) child))
                (Some node)).
Proof using Hp Hnum Hep Hn Hc.
  rewrite location_eta, Hp.
  rewrite Hp in Hnum. apply numbered_snoc in Hnum as [_ Hi].
  by erewrite resolveLinkInfo_valid.
Qed.

Lemma numbered_prefix : numbered p.
Proof using Hp Hnum.
  rewrite Hp in Hnum. by apply numbered_snoc in Hnum as [? _].
Qed.

Lemma moveDown_to_sibling (sibling : MathExpression) :
  Js.index (children node) (childIndex l + 1) = Some sibling →
  Cursor.moveDown c
  = (Returned tt,
     relocate c (root c)
       (p ++ [mkLink (nodeIndex l) (childIndex l + 1) (Z.of_nat (length p))])
       (Z.of_nat (length sibling)) 2).
Proof using Hp Hnum Hep Hn Hc.
  intros Hs. unfold Cursor.moveDown, bind, get, lift.
  rewrite not_atRoot, top_link, top_link_resolves. run.
  apply index_bounds in Hs as Hlen. rewrite decide_True by lia.
  erewrite leaveNode_spec by done.
  erewrite enterNode_spec; [|apply numbered_prefix|done..].
  by rewrite root_relocate, path_relocate, relocate_relocate.
Qed.

Lemma moveDown_at_last_child :
  childIndex l = Z.of_nat (length (children node)) - 1 →
  Cursor.moveDown c = (Returned tt, c).
Proof using Hp Hnum Hep Hn Hc.
  intros Hlast. unfold Cursor.moveDown, bind, get, lift.
  rewrite not_atRoot, top_link, top_link_resolves. run.
  by rewrite decide_False by lia.
Qed.

Lemma moveUp_to_sibling (sibling : MathExpression) :
  0 < childIndex l →
  Js.index (children node) (childIndex l - 1) = Some sibling →
  Cursor.moveUp c
  = (Returned tt,
     relocate c (root c)
       (p ++ [mkLink (nodeIndex l) (childIndex l - 1) (Z.of_nat (length p))])
       0 2).
Proof using Hp Hnum Hep Hn Hc.
  intros Hpos Hs. unfold Cursor.moveUp, bind, get, lift.
  rewrite not_atRoot, top_link, top_link_resolves. run.
  rewrite decide_True by lia.
  erewrite leaveNode_spec by done.
  erewrite enterNode_spec; [|apply numbered_prefix|done..].
  by rewrite root_relocate, path_relocate, relocate_relocate.
Qed.

Lemma moveUp_at_first_child :
  childIndex l = 0 → Cursor.moveUp c = (Returned tt, c).
Proof using Hp Hnum Hep Hn Hc.
  intros Hfirst. unfold Cursor.moveUp, bind, get, lift.
  rewrite not_atRoot, top_link, top_link_resolves. run.
  by rewrite decide_False by lia.
Qed.

End VerticalMoves.

(** ** Well-formed cursors and the moves as a step relation *)

Lemma snoc_cases {A} (l : list A) : l = [] ∨ ∃ p x, l = p ++ [x].
Proof. destruct l using rev_ind; eauto. Qed.

Lemma wf_at_snoc (r : MathExpression) (p : list CursorPathLink)
    (l : CursorPathLink) (i : Z) :
  wf_at r (p ++ [l]) i ↔
  numbered p ∧ _i l = Z.of_nat (length p) ∧
  ∃ ep node child,
    expr_at r (path_address p) = Some ep ∧
    Js.index ep (nodeIndex l) = Some node ∧
    Js.index (children node) (childIndex l) = Some child ∧
    0 ≤ i ≤ Z.of_nat (length child).
Proof.
  unfold wf_at. rewrite numbered_snoc, path_address_snoc. split.
  - intros [[Hnum Hi] (e & He & Hpos)].
    apply expr_at_snoc in He as (ep & node & Hep & Hn & Hc).
    repeat split; try done. by exists ep, node, e.
  - intros (Hnum & Hi & ep & node & child & Hep & Hn & Hc & Hpos).
    repeat split; try done. exists child. split; [|done].
    apply expr_at_snoc. eauto.
Qed.

Lemma wf_at_prefix (r : MathExpression) (p : list CursorPathLink)
    (l : CursorPathLink) (i : Z) :
  wf_at r (p ++ [l]) i →
  wf_at r p (nodeIndex l) ∧ wf_at r p (nodeIndex l + 1).
Proof.
  intros (Hnum & _ & ep & node & child & Hep & Hn & _)%wf_at_snoc.
  apply index_bounds in Hn.
  split; (split; [done|]); exists ep; (split; [done|lia]).
Qed.

Lemma wf_relocate (c : Cursor) (r : MathExpression)
    (p : list CursorPathLink) (i : Z) (k : nat) :
  wf (relocate c r p i k) ↔ wf_at r p i.
Proof. done. Qed.

Lemma first_child (node : MathNode) :
  children node = [] ∨ ∃ child, Js.index (children node) 0 = Some child.
Proof. destruct node; simpl; eauto. Qed.

(** On a well-formed cursor [moveRight] returns, and takes one of the four
    steps. *)
Lemma moveRight_runs (c : Cursor) :
  wf c → ∃ c', Cursor.moveRight c = (Returned tt, c') ∧ moveRight_step c c'.
Proof.
  intros [Hnum (e & He & Hi)].
  destruct (decide (_cursorIndex c = Z.of_nat (length e))) as [Hend|Hin].
  - destruct (snoc_cases (path c)) as [Hp|(p & l & Hp)].
    + eexists. split; [by eapply moveRight_at_end_of_root|].
      by eapply moveRight_stays.
    + eexists. split; [by eapply moveRight_at_end|].
      by eapply moveRight_leaves.
  - destruct (index_in_range e (_cursorIndex c)) as [node Hn]; [lia|].
    destruct (first_child node) as [Hc|[child Hc]].
    + eexists. split; [by eapply moveRight_over|].
      by eapply moveRight_passes.
    + eexists. split; [by eapply moveRight_into|].
      by eapply moveRight_enters.
Qed.

Lemma moveLeft_runs (c : Cursor) :
  wf c → ∃ c', Cursor.moveLeft c = (Returned tt, c') ∧ moveLeft_step c c'.
Proof.
  intros [Hnum (e & He & Hi)].
  destruct (decide (_cursorIndex c = 0)) as [Hstart|Hin].
  - destruct (snoc_cases (path c)) as [Hp|(p & l & Hp)].
    + eexists. split; [by eapply moveLeft_at_start_of_root|].
      by eapply moveLeft_stays.
    + eexists. split; [by eapply moveLeft_at_start|].
      by eapply moveLeft_leaves.
  - destruct (index_in_range e (_cursorIndex c - 1)) as [node Hn]; [lia|].
    destruct (first_child node) as [Hc|[child Hc]].
    + eexists. split; [by eapply moveLeft_over|].
      by eapply moveLeft_passes.
    + eexists. split; [by eapply moveLeft_into|].
      by eapply moveLeft_enters.
Qed.

Lemma moveRight_step_wf (c c' : Cursor) :
  wf c → moveRight_step c c' → wf c'.
Proof.
  intros Hwf Hstep. pose proof Hwf as [Hnum (e0 & He0 & Hi0)].
  destruct Hstep as [e He Hi Hp|e p l He Hi Hp|e node child He Hn Hc
                    |e node He Hn Hc]; apply wf_relocate.
  - unfold wf in Hwf. by rewrite Hp in Hwf.
  - unfold wf in Hwf. rewrite Hp in Hwf. by apply wf_at_prefix in Hwf as [_ ?].
  - apply wf_at_snoc. repeat split; try done.
    exists e, node, child. repeat split; try done. lia.
  - split; [done|]. exists e. split; [done|].
    apply index_bounds in Hn. lia.
Qed.

Lemma moveLeft_step_wf (c c' : Cursor) :
  wf c → moveLeft_step c c' → wf c'.
Proof.
  intros Hwf Hstep. pose proof Hwf as [Hnum (e0 & He0 & Hi0)].
  destruct Hstep as [Hi Hp|p l Hi Hp|e node child He Hi Hn Hc
                    |e node He Hi Hn Hc]; apply wf_relocate.
  - unfold wf in Hwf. by rewrite Hp in Hwf.
  - unfold wf in Hwf. rewrite Hp in Hwf. by apply wf_at_prefix in Hwf as [? _].
  - apply wf_at_snoc. repeat split; try done.
    exists e, node, child. repeat split; try done; lia.
  - split; [done|]. exists e. split; [done|].
    apply index_bounds in Hn. lia.
Qed.

(** ** Reachable cursors *)

Lemma not_atRoot_snoc (c : Cursor) :
  CursorLocation.atRoot (_location c) = false → ∃ p l, path c = p ++ [l].
Proof.
  intros Hroot. destruct (snoc_cases (path c)) as [Hp|?]; [|done].
  apply atRoot_true in Hp. unfold path in *. congruence.
Qed.

Lemma length_insertNode (e : list MathNode) (before : Z) (node : MathNode) :
  length (MathExpression.insertNode e before node) = S (length e).
Proof.
  unfold MathExpression.insertNode, Js.splice_insert.
  rewrite length_app. simpl. rewrite length_take, length_drop. lia.
Qed.

Lemma moveRight_step_notifies (c c' : Cursor) :
  moveRight_step c c' → ∃ p i k, c' = relocate c (root c) p i (S k).
Proof. destruct 1; by eexists _, _, _. Qed.

Lemma moveLeft_step_notifies (c c' : Cursor) :
  moveLeft_step c c' → ∃ p i k, c' = relocate c (root c) p i (S k).
Proof. destruct 1; by eexists _, _, _. Qed.

(** One operation, from a well-formed cursor within its precondition: the
    call returns, only the tree, the path, the position and the observers'
    trace have changed, the cursor is well-formed again, and the observers
    have been notified, except possibly by [moveUp] and [moveDown]. *)
Lemma perform_relocates (c : Cursor) (op : Operation) :
  wf c → precondition op c →
  ∃ r p i k,
    perform op c = (Returned tt, relocate c r p i k) ∧ wf_at r p i ∧
    (notifies op = true → (1 ≤ k)%nat).
Proof.
  intros Hwf Hpre. pose proof Hwf as [Hnum (e & He & Hi)].
  destruct op as [n ch d|d| | | | | | |id ch|node]; simpl in *.
  - destruct Hpre as (e' & node & child & He' & Hn & Hc).
    erewrite getEnclosingExpression_spec in He' by done.
    injection He' as <-. simpl in Hn.
    eexists _, _, _, _. split; [by eapply enterNode_spec|]. split; [|done].
    apply wf_at_snoc. repeat split; try done.
    exists e, node, child. repeat split; try done; destruct d; lia.
  - apply not_atRoot_snoc in Hpre as (p & l & Hp).
    erewrite bind_returned by (by eapply leaveNode_spec).
    eexists _, _, _, _. split; [done|]. split; [|done].
    unfold wf in Hwf. rewrite Hp in Hwf.
    apply wf_at_prefix in Hwf as [? ?]. by destruct d.
  - apply not_atRoot_snoc in Hpre as (p & l & Hp).
    unfold wf in Hwf. rewrite Hp in Hwf.
    apply wf_at_snoc in Hwf
        as (Hnp & _ & ep & node & child & Hep & Hn & _).
    eexists _, _, _, _. split; [by eapply removeEnclosingNode_spec|].
    split; [|done]. split; [done|].
    eexists. split; [by eapply expr_at_write|].
    apply index_bounds in Hn.
    rewrite length_delete by (apply lookup_lt_is_Some; lia). lia.
  - eexists _, _, _, _.
    split; [eapply deleteCharacterAtCursor_spec; [done..|lia]|].
    split; [|done]. split; [done|].
    eexists. split; [by eapply expr_at_write|].
    rewrite length_delete by (apply lookup_lt_is_Some; lia). lia.
  - destruct (moveRight_runs c Hwf) as (c' & Hrun & Hstep).
    pose proof (moveRight_step_wf c c' Hwf Hstep) as Hwf'.
    apply moveRight_step_notifies in Hstep as (p & i & k & ->).
    eexists _, _, _, _. split; [done|]. split; [done|lia].
  - destruct (moveLeft_runs c Hwf) as (c' & Hrun & Hstep).
    pose proof (moveLeft_step_wf c c' Hwf Hstep) as Hwf'.
    apply moveLeft_step_notifies in Hstep as (p & i & k & ->).
    eexists _, _, _, _. split; [done|]. split; [done|lia].
  - destruct (snoc_cases (path c)) as [Hp|(p & l & Hp)].
    { exists (root c), (path c), (_cursorIndex c), 0%nat.
      rewrite relocate_same. split; [by apply moveUp_at_root|done]. }
    unfold wf in Hwf. rewrite Hp in Hwf. pose proof Hwf as Hwf'.
    apply wf_at_snoc in Hwf'
        as (Hnp & Hil & ep & node & child & Hep & Hn & Hc & Hic).
    destruct (decide (childIndex l = 0)) as [Hfirst|Hmore].
    { exists (root c), (path c), (_cursorIndex c), 0%nat.
      rewrite relocate_same. split; [by eapply moveUp_at_first_child|].
      by rewrite Hp. }
    apply index_bounds in Hc as Hcb.
    destruct (index_in_range (children node) (childIndex l - 1))
      as [sibling Hs]; [lia|].
    eexists _, _, _, _.
    split; [eapply moveUp_to_sibling; [done..|lia|done]|]. split; [|done].
    apply wf_at_snoc. repeat split; try done.
    exists ep, node, sibling. repeat split; try done; lia.
  - destruct (snoc_cases (path c)) as [Hp|(p & l & Hp)].
    { exists (root c), (path c), (_cursorIndex c), 0%nat.
      rewrite relocate_same. split; [by apply moveDown_at_root|done]. }
    unfold wf in Hwf. rewrite Hp in Hwf. pose proof Hwf as Hwf'.
    apply wf_at_snoc in Hwf'
        as (Hnp & Hil & ep & node & child & Hep & Hn & Hc & Hic).
    apply index_bounds in Hc as Hcb.
    destruct (decide (childIndex l = Z.of_nat (length (children node)) - 1))
      as [Hlast|Hmore].
    { exists (root c), (path c), (_cursorIndex c), 0%nat.
      rewrite relocate_same. split; [by eapply moveDown_at_last_child|].
      by rewrite Hp. }
    destruct (index_in_range (children node) (childIndex l + 1))
      as [sibling Hs]; [lia|].
    eexists _, _, _, _. split; [by eapply moveDown_to_sibling|].
    split; [|done].
    apply wf_at_snoc. repeat split; try done.
    exists ep, node, sibling. repeat split; try done; lia.
  - eexists _, _, _, _. split; [by eapply insertCharacterAtCursor_spec|].
    split; [|done]. split; [done|].
    eexists. split; [by eapply expr_at_write|].
    rewrite length_insertNode. lia.
  - erewrite bind_returned by (by eapply insertNodeAtCursor_spec).
    eexists _, _, _, _. split; [done|].
    split; [|done]. split; [done|].
    eexists. split; [by eapply expr_at_write|].
    rewrite length_insertNode. lia.
Qed.

Lemma perform_wf (c : Cursor) (op : Operation) :
  wf c → precondition op c →
  ∃ c', perform op c = (Returned tt, c') ∧ wf c'.
Proof.
  intros Hwf Hpre.
  destruct (perform_relocates c op Hwf Hpre) as (r & p & i & k & Hrun & H & _).
  eauto.
Qed.

Lemma initial_wf (c : Cursor) : path c = [] → _cursorIndex c = 0 → wf c.
Proof.
  intros Hp Hi. unfold wf. rewrite Hp, Hi. split; [apply numbered_nil|].
  exists (root c). split; [done|lia].
Qed.

Lemma reachable_wf (c : Cursor) : reachable c → wf c.
Proof.
  induction 1 as [c Hp Hi|c op _ IH Hpre].
  - by apply initial_wf.
  - destruct (perform_wf c op IH Hpre) as (c' & Hrun & Hwf).
    by rewrite Hrun.
Qed.

Lemma in_denominator_reachable : reachable in_denominator.
Proof.
  apply (reachable_step (Cursor.new fraction_root) (EnterNode 1 1 Right)).
  - by apply reachable_initial.
  - exists (mkExprRef [] fraction_root),
      (DoubleChildMathNode "n2" Fraction [] []), [].
    by repeat split.
Qed.

(** ** The cursor invariant

    The invariant is a statement about the sources' objects, where
    [insertNodeAtCursor] stores the node it is passed: it is stated and
    settled on the document as shared objects. *)

Module SharedFacts.
Import Shared.

(** ** Walking the store *)

Lemma shared_expr_at_app (s : Store) (e : nat) (a b : Address) :
  expr_at s e (a ++ b) = expr_at s e a ≫= λ e', expr_at s e' b.
Proof.
  revert e. induction a as [|[n c] a IH]; intros e; simpl; [done|].
  destruct (Js.index (s e) n) as [node|]; simpl; [|done].
  destruct (Js.index (children node) c) as [child|]; simpl; [|done].
  apply IH.
Qed.

Lemma shared_expr_at_snoc (s : Store) (e : nat) (a : Address) (n c : Z)
    (e' : nat) :
  expr_at s e (a ++ [(n, c)]) = Some e' ↔
  ∃ ep node, expr_at s e a = Some ep ∧ Js.index (s ep) n = Some node ∧
             Js.index (children node) c = Some e'.
Proof.
  rewrite shared_expr_at_app. split.
  - destruct (expr_at s e a) as [ep|]; simpl; [|done].
    destruct (Js.index (s ep) n) as [node|] eqn:Hn; simpl; [|done].
    destruct (Js.index (children node) c) as [child|] eqn:Hc; simpl; [|done].
    intros [= <-]. eauto.
  - intros (ep & node & -> & Hn & Hc). simpl. rewrite Hn. simpl.
    rewrite Hc. done.
Qed.

Lemma write_same (s : Store) (e : nat) (nodes : list MathNode) :
  write s e nodes e = nodes.
Proof. unfold write. by case_decide. Qed.

Lemma write_other (s : Store) (e e' : nat) (nodes : list MathNode) :
  e' ≠ e → write s e nodes e' = s e'.
Proof. intros H. unfold write. by case_decide. Qed.

(** A walk that does not pass through the expression written to is the
    same walk after the write. *)
Lemma expr_at_write_frame (s : Store) (target : nat) (nodes : list MathNode)
    (a : Address) :
  ∀ e : nat,
    (∀ a1 a2, a = a1 ++ a2 → a2 ≠ [] → expr_at s e a1 ≠ Some target) →
    expr_at (write s target nodes) e a = expr_at s e a.
Proof.
  induction a as [|[n c] a IH]; intros e Hfree; simpl; [done|].
  assert (e ≠ target) as Hne.
  { intros ->. by apply (Hfree [] ((n, c) :: a)). }
  rewrite write_other by done.
  destruct (Js.index (s e) n) as [node|] eqn:Hn; simpl; [|done].
  destruct (Js.index (children node) c) as [child|] eqn:Hc; simpl; [|done].
  apply IH. intros a1 a2 -> Ha2 Hat.
  apply (Hfree ((n, c) :: a1) a2); [done..|].
  simpl. rewrite Hn. simpl. by rewrite Hc.
Qed.

(** A walk in the store after a write is a walk in the store before it, up
    to the first time it passes through the expression written to. *)
Lemma expr_at_write_first (s : Store) (target : nat) (nodes : list MathNode)
    (a : Address) :
  ∀ e t : nat,
    expr_at (write s target nodes) e a = Some t →
    expr_at s e a = Some t ∨
    ∃ a1 a2, a = a1 ++ a2 ∧ a2 ≠ [] ∧ expr_at s e a1 = Some target ∧
             expr_at (write s target nodes) target a2 = Some t.
Proof.
  induction a as [|[n c] a IH]; intros e t Hat; [by left|].
  destruct (decide (e = target)) as [->|Hne].
  { right. by exists [], ((n, c) :: a). }
  simpl in Hat. rewrite write_other in Hat by done.
  destruct (Js.index (s e) n) as [node|] eqn:Hn; simpl in Hat; [|done].
  destruct (Js.index (children node) c) as [child|] eqn:Hc; simpl in Hat;
    [|done].
  destruct (IH _ _ Hat) as [H|(a1 & a2 & -> & Ha2 & H1 & H2)].
  - left. simpl. rewrite Hn. simpl. by rewrite Hc.
  - right. exists ((n, c) :: a1), a2. repeat split; [done| |done].
    simpl. rewrite Hn. simpl. by rewrite Hc.
Qed.

(** ** Documents in which no expression contains itself *)

Lemma acyclic_not_contains (s : Store) (e : nat) (n : Z) (node : MathNode) :
  acyclic s → Js.index (s e) n = Some node → ¬ contains s node e.
Proof.
  intros Hs Hn (c & child & a & Hc & Ha).
  apply (Hs e ((n, c) :: a)); [done|].
  simpl. rewrite Hn. simpl. by rewrite Hc.
Qed.

(** Giving an expression an array of nodes none of which contains it keeps
    the document free of cycles. *)
Lemma acyclic_write (s : Store) (target : nat) (nodes : list MathNode) :
  acyclic s →
  (∀ node, node ∈ nodes → ¬ contains s node target) →
  acyclic (write s target nodes).
Proof.
  intros Hs Hnodes e a Ha Hat.
  destruct (expr_at_write_first _ _ _ _ _ _ Hat)
    as [H|(a1 & a2 & -> & Ha2 & H1 & H2)].
  { by apply (Hs e a). }
  destruct a2 as [|[n c] b]; [done|]. simpl in H2.
  rewrite write_same in H2.
  destruct (Js.index nodes n) as [node|] eqn:Hn; simpl in H2; [|done].
  destruct (Js.index (children node) c) as [child|] eqn:Hc; simpl in H2;
    [|done].
  apply (Hnodes node).
  { apply index_Some in Hn as [_ Hn]. by eapply list_elem_of_lookup_2. }
  exists c, child.
  destruct (expr_at_write_first _ _ _ _ _ _ H2)
    as [H|(b1 & b2 & -> & Hb2 & H3 & H4)].
  - exists (b ++ a1). split; [done|].
    rewrite shared_expr_at_app, H. done.
  - by exists b1.
Qed.

Lemma acyclic_delete (s : Store) (target : nat) (k : nat) :
  acyclic s → acyclic (write s target (delete k (s target))).
Proof.
  intros Hs. apply acyclic_write; [done|].
  intros node Hin.
  assert (node ∈ s target) as Hin'.
  { by eapply list_elem_of_delete_inv. }
  apply list_elem_of_lookup_1 in Hin' as [j Hj].
  apply (acyclic_not_contains s target (Z.of_nat j)); [done|].
  apply index_Some. split; [lia|]. by rewrite Nat2Z.id.
Qed.

Lemma elem_of_splice_insert (l : list MathNode) (before : Z)
    (node x : MathNode) :
  x ∈ Js.splice_insert l before node → x = node ∨ x ∈ l.
Proof.
  unfold Js.splice_insert. intros Hin.
  apply elem_of_app in Hin as [Hin|Hin].
  - right. eapply elem_of_sublist; [exact Hin|]. apply sublist_take.
  - apply elem_of_cons in Hin as [->|Hin]; [by left|].
    right. eapply elem_of_sublist; [exact Hin|]. apply sublist_drop.
Qed.

Lemma acyclic_insert (s : Store) (target : nat) (before : Z)
    (node : MathNode) :
  acyclic s → ¬ contains s node target →
  acyclic (write s target (Js.splice_insert (s target) before node)).
Proof.
  intros Hs Hnode. apply acyclic_write; [done|].
  intros x [->|Hin]%elem_of_splice_insert; [done|].
  apply list_elem_of_lookup_1 in Hin as [j Hj].
  apply (acyclic_not_contains s target (Z.of_nat j)); [done|].
  apply index_Some. split; [lia|]. by rewrite Nat2Z.id.
Qed.

(** On such a document the walk to an expression does not pass through that
    expression before its end, so writing to the expression leaves the walk
    as it is. *)
Lemma expr_at_write_target (s : Store) (r target : nat)
    (nodes : list MathNode) (a : Address) :
  acyclic s → expr_at s r a = Some target →
  expr_at (write s target nodes) r a = Some target.
Proof.
  intros Hs Ha. rewrite expr_at_write_frame; [done|].
  intros a1 a2 -> Ha2 H1. rewrite shared_expr_at_app, H1 in Ha.
  by apply (Hs target a2).
Qed.


(** ** The cursor location on a path that resolves *)

Lemma shared_atRoot_snoc (s : Store) (r : nat) (p : list CursorPathLink)
    (l : CursorPathLink) (i : Z) (cbs inv : list Callback) :
  atRoot (mkCursor s r (p ++ [l]) i cbs inv) = false.
Proof.
  unfold atRoot. apply bool_decide_eq_false. simpl.
  rewrite length_app. simpl. lia.
Qed.

Lemma shared_atRoot_true (c : Cursor) : atRoot c = true ↔ _path c = [].
Proof.
  unfold atRoot. rewrite bool_decide_eq_true. apply length_zero_iff_nil.
Qed.

Lemma shared_atRoot_false (c : Cursor) :
  atRoot c = false → ∃ p l, _path c = p ++ [l].
Proof.
  intros H. destruct (_path c) as [|l0 p0] eqn:Hp using rev_ind.
  - by rewrite (proj2 (shared_atRoot_true c) Hp) in H.
  - eauto.
Qed.

Lemma shared_pop_snoc (s : Store) (r : nat) (p : list CursorPathLink)
    (l : CursorPathLink) (i : Z) (cbs inv : list Callback) :
  pop (mkCursor s r (p ++ [l]) i cbs inv)
  = (Returned l, mkCursor s r p i cbs inv).
Proof.
  unfold pop. rewrite shared_atRoot_snoc. simpl.
  rewrite last_snoc. unfold set_path. simpl. by rewrite removelast_last.
Qed.

Lemma shared_getTopLevelLink_snoc (s : Store) (r : nat)
    (p : list CursorPathLink) (l : CursorPathLink) (i : Z)
    (cbs inv : list Callback) :
  getTopLevelLink (mkCursor s r (p ++ [l]) i cbs inv) = Returned l.
Proof.
  unfold getTopLevelLink. rewrite shared_atRoot_snoc. simpl.
  by rewrite index_last.
Qed.

Lemma shared_resolveLoop_step (s : Store) (path : list CursorPathLink)
    (trips : nat) (i : Z) (expr : nat) (node0 : option MathNode)
    (nextLink : CursorPathLink) (node : MathNode) :
  Js.index path i = Some nextLink →
  Js.index (s expr) (nodeIndex nextLink) = Some node →
  resolveLoop s path (S trips) i (Some expr) node0
  = resolveLoop s path trips (i + 1)
      (Js.index (children node) (childIndex nextLink)) (Some node).
Proof.
  intros Hl Hn. unfold resolveLoop at 1. fold resolveLoop.
  by rewrite Hl, Hn.
Qed.

(** The loop of [resolveLinkInfo] walks a valid path to its end. *)
Lemma shared_resolveLoop_snoc (s : Store) (prefix : list CursorPathLink) :
  ∀ (done : list CursorPathLink) (cur : nat) (node0 : option MathNode)
    (l : CursorPathLink) (ep : nat) (node : MathNode),
    expr_at s cur (path_address prefix) = Some ep →
    Js.index (s ep) (nodeIndex l) = Some node →
    resolveLoop s (done ++ prefix ++ [l]) (S (length prefix))
      (Z.of_nat (length done)) (Some cur) node0
    = Returned (mkLocationInfo
                  (Js.index (children node) (childIndex l)) (Some node)).
Proof.
  induction prefix as [|l0 prefix IH];
    intros done cur node0 l ep node Hep Hn.
  - simpl in Hep. injection Hep as <-.
    erewrite shared_resolveLoop_step; [|apply index_middle|exact Hn].
    done.
  - simpl in Hep.
    destruct (Js.index (s cur) (nodeIndex l0)) as [nd|] eqn:Hn0; [|done].
    simpl in Hep.
    destruct (Js.index (children nd) (childIndex l0)) as [ch|] eqn:Hc0;
      [|done].
    simpl in Hep.
    erewrite shared_resolveLoop_step;
      [|rewrite <- app_comm_cons; apply index_middle|exact Hn0].
    rewrite Hc0.
    specialize (IH (done ++ [l0]) ch (Some nd) l ep node Hep Hn).
    rewrite length_app in IH. simpl length in IH.
    replace (Z.of_nat (length done + 1)) with (Z.of_nat (length done) + 1)
      in IH by lia.
    rewrite <- !app_assoc in IH. simpl app in IH.
    rewrite <- app_comm_cons. simpl length. by rewrite IH.
Qed.

Lemma shared_resolveLinkInfo_valid (s : Store) (r : nat)
    (p : list CursorPathLink) (l : CursorPathLink) (i : Z)
    (cbs inv : list Callback) (ep : nat) (node : MathNode) :
  _i l = Z.of_nat (length p) →
  expr_at s r (path_address p) = Some ep →
  Js.index (s ep) (nodeIndex l) = Some node →
  resolveLinkInfo (mkCursor s r (p ++ [l]) i cbs inv) l
  = Returned (mkLocationInfo
                (Js.index (children node) (childIndex l)) (Some node)).
Proof.
  intros Hi Hep Hn. unfold resolveLinkInfo. simpl.
  rewrite Hi.
  replace (Z.to_nat (Z.of_nat (length p) + 1)) with (S (length p)) by lia.
  exact (shared_resolveLoop_snoc s p [] r None l ep node Hep Hn).
Qed.

Lemma shared_getEnclosingExpression_valid (s : Store) (r : nat)
    (p : list CursorPathLink) (i : Z) (cbs inv : list Callback) (e : nat) :
  numbered p →
  expr_at s r (path_address p) = Some e →
  getEnclosingExpression (mkCursor s r p i cbs inv) = Returned (Some e).
Proof.
  intros Hnum He. destruct p as [|l0 p0] using rev_ind.
  - simpl in He. by injection He as <-.
  - clear IHp0. unfold getEnclosingExpression.
    rewrite shared_atRoot_snoc. simpl negb. cbv iota. simpl _path.
    rewrite index_last.
    apply numbered_snoc in Hnum as [_ Hi].
    rewrite path_address_snoc in He.
    apply shared_expr_at_snoc in He as (ep & node & Hep & Hn & Hc).
    erewrite shared_resolveLinkInfo_valid by done. simpl. by rewrite Hc.
Qed.

(** ** What each operation does to a cursor *)

Lemma shared_relocate_relocate (c : Cursor) (s s' : Store)
    (p p' : list CursorPathLink) (i i' : Z) (k k' : nat) :
  relocate (relocate c s p i k) s' p' i' k' = relocate c s' p' i' (k + k').
Proof.
  unfold relocate, notified. simpl. f_equal.
  by rewrite replicate_add, concat_app, app_assoc.
Qed.

Lemma shared_relocate_same (c : Cursor) :
  relocate c (store c) (_path c) (_cursorIndex c) 0 = c.
Proof.
  destruct c as [s r p i cbs inv].
  unfold relocate, notified. simpl. by rewrite app_nil_r.
Qed.

Ltac sfields c :=
  let s := fresh "s" in
  let r := fresh "r" in
  let p := fresh "p" in
  let i := fresh "i" in
  destruct c as [s r p i ? ?]; simpl in *.

Ltac srun :=
  unfold bind, get, modify, lift, ret, throw, defined, set_store, set_path,
    set_cursorIndex, set_invoked, moveInto;
  simpl.

Ltac ssame :=
  unfold relocate, notified, set_store, set_path, set_cursorIndex,
    set_invoked; simpl;
  rewrite ?app_nil_r, <- ?app_assoc; try reflexivity.

Lemma shared_notifyUpdates_spec (c : Cursor) :
  notifyUpdates c
  = (Returned tt, relocate c (store c) (_path c) (_cursorIndex c) 1).
Proof. sfields c. unfold notifyUpdates. srun. f_equal. ssame. Qed.

Lemma shared_enterNode_spec (c : Cursor) (n ch : Z) (d : Direction)
    (e : nat) (node : MathNode) (child : nat) :
  numbered (_path c) →
  expr_at (store c) (_root c) (path_address (_path c)) = Some e →
  Js.index (store c e) n = Some node →
  Js.index (children node) ch = Some child →
  enterNode n ch d c
  = (Returned tt,
     relocate c (store c)
       (_path c ++ [mkLink n ch (Z.of_nat (length (_path c)))])
       (match d with
        | Right => 0
        | Left => Z.of_nat (length (store c child))
        end) 1).
Proof.
  intros Hnum He Hn Hc. sfields c. unfold enterNode. srun.
  destruct d; srun.
  - erewrite shared_getEnclosingExpression_valid.
    + simpl. unfold notifyUpdates. srun. f_equal. ssame.
    + apply numbered_snoc. done.
    + rewrite path_address_snoc. apply shared_expr_at_snoc. simpl. eauto.
  - unfold notifyUpdates. srun. f_equal. ssame.
Qed.

Lemma shared_leaveNode_spec (c : Cursor) (d : Direction)
    (p : list CursorPathLink) (l : CursorPathLink) :
  _path c = p ++ [l] →
  leaveNode d c
  = (Returned l,
     relocate c (store c) p
       (match d with Left => nodeIndex l | Right => nodeIndex l + 1 end) 1).
Proof.
  intros Hp. sfields c. subst. unfold leaveNode. srun.
  rewrite shared_pop_snoc. destruct d; unfold notifyUpdates; srun;
    f_equal; ssame.
Qed.

Lemma shared_insertNodeAtCursor_spec (c : Cursor) (node : MathNode)
    (e : nat) :
  numbered (_path c) →
  expr_at (store c) (_root c) (path_address (_path c)) = Some e →
  insertNodeAtCursor node c
  = (Returned (_cursorIndex c),
     relocate c
       (write (store c) e
          (Js.splice_insert (store c e) (_cursorIndex c) node))
       (_path c) (_cursorIndex c + 1) 1).
Proof.
  intros Hnum He. sfields c. unfold insertNodeAtCursor. srun.
  erewrite shared_getEnclosingExpression_valid by done.
  unfold insertNode, notifyUpdates. srun.
  f_equal; [f_equal; lia|ssame].
Qed.

Lemma shared_insertCharacterAtCursor_spec (c : Cursor)
    (id character : string) (e : nat) :
  numbered (_path c) →
  expr_at (store c) (_root c) (path_address (_path c)) = Some e →
  insertCharacterAtCursor id character c
  = (Returned tt,
     relocate c
       (write (store c) e
          (Js.splice_insert (store c e) (_cursorIndex c)
             (mkMathNode id (CharacterClass character) [])))
       (_path c) (_cursorIndex c + 1) 1).
Proof.
  intros Hnum He. sfields c. unfold insertCharacterAtCursor. srun.
  erewrite shared_getEnclosingExpression_valid by done.
  unfold insertNode, notifyUpdates. srun. f_equal. ssame.
Qed.

Lemma splice_remove_in_range {A} (l : list A) (index : Z) :
  0 ≤ index < Z.of_nat (length l) →
  Js.splice_remove l index = delete (Z.to_nat index) l.
Proof.
  intros Hi. unfold Js.splice_remove, Js.splice_start.
  case_decide; [lia|]. rewrite Z.min_l by lia.
  by rewrite delete_take_drop.
Qed.

Lemma shared_deleteCharacterAtCursor_spec (c : Cursor) (e : nat) :
  numbered (_path c) →
  expr_at (store c) (_root c) (path_address (_path c)) = Some e →
  0 < _cursorIndex c ≤ Z.of_nat (length (store c e)) →
  deleteCharacterAtCursor c
  = (Returned tt,
     relocate c
       (write (store c) e
          (delete (Z.to_nat (_cursorIndex c - 1)) (store c e)))
       (_path c) (_cursorIndex c - 1) 1).
Proof.
  intros Hnum He Hi. sfields c. unfold deleteCharacterAtCursor. srun.
  erewrite shared_getEnclosingExpression_valid by done.
  unfold removeNthNode. srun. rewrite decide_False by lia. simpl.
  rewrite splice_remove_in_range by lia.
  unfold notifyUpdates. srun. f_equal. ssame.
Qed.

Lemma shared_removeEnclosingNode_spec (c : Cursor)
    (p : list CursorPathLink) (l : CursorPathLink) (ep : nat)
    (node : MathNode) :
  _path c = p ++ [l] →
  numbered p →
  expr_at (store c) (_root c) (path_address p) = Some ep →
  Js.index (store c ep) (nodeIndex l) = Some node →
  removeEnclosingNode c
  = (Returned tt,
     relocate c
       (write (store c) ep (delete (Z.to_nat (nodeIndex l)) (store c ep)))
       p (nodeIndex l) 1).
Proof.
  intros Hp Hnum Hep Hn. sfields c. subst.
  unfold removeEnclosingNode. srun. rewrite shared_atRoot_snoc.
  rewrite shared_pop_snoc.
  erewrite shared_getEnclosingExpression_valid by done.
  unfold removeNthNode. srun.
  pose proof (index_bounds _ _ _ Hn).
  rewrite decide_False by lia. simpl.
  rewrite splice_remove_in_range by lia.
  unfold notifyUpdates. srun. f_equal. ssame.
Qed.


(** *** Running a method step by step *)

Lemma shared_bind_returned {A B} (m : M A) (k : A → M B) (c c' : Cursor)
    (a : A) :
  m c = (Returned a, c') → bind m k c = k a c'.
Proof. intros H. unfold bind. by rewrite H. Qed.

Lemma shared_cursor_eta (c : Cursor) :
  c = mkCursor (store c) (_root c) (_path c) (_cursorIndex c)
        (_onUpdateCallbacks c) (invoked c).
Proof. by destruct c. Qed.

Lemma shared_getEnclosingExpression_spec (c : Cursor) (e : nat) :
  numbered (_path c) →
  expr_at (store c) (_root c) (path_address (_path c)) = Some e →
  getEnclosingExpression c = Returned (Some e).
Proof.
  intros Hnum He. rewrite (shared_cursor_eta c).
  by apply shared_getEnclosingExpression_valid.
Qed.

Lemma shared_notify_relocate (c : Cursor) (s : Store)
    (p : list CursorPathLink) (i : Z) (k : nat) :
  notifyUpdates (relocate c s p i k) = (Returned tt, relocate c s p i (k + 1)).
Proof.
  rewrite shared_notifyUpdates_spec. simpl.
  by rewrite shared_relocate_relocate.
Qed.

Lemma shared_atRoot_path (c : Cursor) (p : list CursorPathLink)
    (l : CursorPathLink) :
  _path c = p ++ [l] → atRoot c = false.
Proof.
  intros Hp. rewrite (shared_cursor_eta c), Hp. apply shared_atRoot_snoc.
Qed.

Section SharedMoves.
Context (c : Cursor) (e : nat).
Hypothesis Hnum : numbered (_path c).
Hypothesis He :
  expr_at (store c) (_root c) (path_address (_path c)) = Some e.

Lemma shared_moveRight_at_end_of_root :
  _cursorIndex c = Z.of_nat (length (store c e)) → _path c = [] →
  moveRight c
  = (Returned tt, relocate c (store c) [] (_cursorIndex c) 1).
Proof using Hnum He.
  intros Hi Hp. unfold moveRight, bind at 1, get, bind at 1, lift.
  erewrite shared_getEnclosingExpression_spec by done.
  srun. rewrite decide_True by done.
  rewrite (proj2 (shared_atRoot_true c) Hp). simpl.
  rewrite shared_notifyUpdates_spec. by rewrite Hp.
Qed.

Lemma shared_moveRight_at_end (p : list CursorPathLink)
    (l : CursorPathLink) :
  _cursorIndex c = Z.of_nat (length (store c e)) → _path c = p ++ [l] →
  moveRight c
  = (Returned tt, relocate c (store c) p (nodeIndex l + 1) 2).
Proof using Hnum He.
  intros Hi Hp. unfold moveRight, bind at 1, get, bind at 1, lift.
  erewrite shared_getEnclosingExpression_spec by done.
  srun. rewrite decide_True by done.
  rewrite (shared_atRoot_path c p l Hp). cbn.
  erewrite shared_leaveNode_spec by done.
  by rewrite shared_notify_relocate.
Qed.

Lemma shared_moveRight_into (node : MathNode) (child : nat) :
  Js.index (store c e) (_cursorIndex c) = Some node →
  Js.index (children node) 0 = Some child →
  moveRight c
  = (Returned tt,
     relocate c (store c)
       (_path c ++ [mkLink (_cursorIndex c) 0 (Z.of_nat (length (_path c)))])
       0 2).
Proof using Hnum He.
  intros Hn Hc. unfold moveRight, bind at 1, get, bind at 1, lift.
  erewrite shared_getEnclosingExpression_spec by done.
  srun. pose proof (index_bounds _ _ _ Hn).
  rewrite decide_False by lia. rewrite Hn. srun.
  apply index_bounds in Hc as Hlen.
  rewrite bool_decide_eq_false_2 by lia. cbn.
  erewrite shared_enterNode_spec by done.
  by rewrite shared_notify_relocate.
Qed.

Lemma shared_moveRight_over (node : MathNode) :
  Js.index (store c e) (_cursorIndex c) = Some node →
  children node = [] →
  moveRight c
  = (Returned tt,
     relocate c (store c) (_path c) (_cursorIndex c + 1) 1).
Proof using Hnum He.
  intros Hn Hc. unfold moveRight, bind at 1, get, bind at 1, lift.
  erewrite shared_getEnclosingExpression_spec by done.
  srun. pose proof (index_bounds _ _ _ Hn).
  rewrite decide_False by lia. rewrite Hn. srun. rewrite Hc. simpl.
  by rewrite shared_notifyUpdates_spec.
Qed.

Lemma shared_moveLeft_at_start_of_root :
  _cursorIndex c = 0 → _path c = [] →
  moveLeft c
  = (Returned tt, relocate c (store c) [] (_cursorIndex c) 1).
Proof using Hnum He.
  intros Hi Hp. unfold moveLeft, bind at 1, get, bind at 1, lift.
  erewrite shared_getEnclosingExpression_spec by done.
  srun. rewrite decide_True by done.
  rewrite (proj2 (shared_atRoot_true c) Hp). simpl.
  rewrite shared_notifyUpdates_spec. by rewrite Hp.
Qed.

Lemma shared_moveLeft_at_start (p : list CursorPathLink)
    (l : CursorPathLink) :
  _cursorIndex c = 0 → _path c = p ++ [l] →
  moveLeft c
  = (Returned tt, relocate c (store c) p (nodeIndex l) 2).
Proof using Hnum He.
  intros Hi Hp. unfold moveLeft, bind at 1, get, bind at 1, lift.
  erewrite shared_getEnclosingExpression_spec by done.
  srun. rewrite decide_True by done.
  rewrite (shared_atRoot_path c p l Hp). cbn.
  erewrite shared_leaveNode_spec by done.
  by rewrite shared_notify_relocate.
Qed.

Lemma shared_moveLeft_into (node : MathNode) (child : nat) :
  _cursorIndex c ≠ 0 →
  Js.index (store c e) (_cursorIndex c - 1) = Some node →
  Js.index (children node) 0 = Some child →
  moveLeft c
  = (Returned tt,
     relocate c (store c)
       (_path c ++
          [mkLink (_cursorIndex c - 1) 0 (Z.of_nat (length (_path c)))])
       (Z.of_nat (length (store c child))) 2).
Proof using Hnum He.
  intros Hi Hn Hc. unfold moveLeft, bind at 1, get, bind at 1, lift.
  erewrite shared_getEnclosingExpression_spec by done.
  srun. rewrite decide_False by done. rewrite Hn. srun.
  apply index_bounds in Hc as Hlen.
  rewrite bool_decide_eq_false_2 by lia. cbn.
  erewrite shared_enterNode_spec by done.
  by rewrite shared_notify_relocate.
Qed.

Lemma shared_moveLeft_over (node : MathNode) :
  _cursorIndex c ≠ 0 →
  Js.index (store c e) (_cursorIndex c - 1) = Some node →
  children node = [] →
  moveLeft c
  = (Returned tt,
     relocate c (store c) (_path c) (_cursorIndex c - 1) 1).
Proof using Hnum He.
  intros Hi Hn Hc. unfold moveLeft, bind at 1, get, bind at 1, lift.
  erewrite shared_getEnclosingExpression_spec by done.
  srun. rewrite decide_False by done. rewrite Hn. srun. rewrite Hc. simpl.
  by rewrite shared_notifyUpdates_spec.
Qed.

End SharedMoves.

Lemma shared_moveDown_at_root (c : Cursor) :
  _path c = [] → moveDown c = (Returned tt, c).
Proof.
  intros Hp. unfold moveDown. srun.
  by rewrite (proj2 (shared_atRoot_true c) Hp).
Qed.

Lemma shared_moveUp_at_root (c : Cursor) :
  _path c = [] → moveUp c = (Returned tt, c).
Proof.
  intros Hp. unfold moveUp. srun.
  by rewrite (proj2 (shared_atRoot_true c) Hp).
Qed.

Section SharedVerticalMoves.
Context (c : Cursor) (p : list CursorPathLink) (l : CursorPathLink).
Context (ep : nat) (node : MathNode).
Hypothesis Hp : _path c = p ++ [l].
Hypothesis Hnum : numbered (_path c).
Hypothesis Hep : expr_at (store c) (_root c) (path_address p) = Some ep.
Hypothesis Hn : Js.index (store c ep) (nodeIndex l) = Some node.

Lemma shared_top_link : getTopLevelLink c = Returned l.
Proof using Hp.
  rewrite (shared_cursor_eta c), Hp. apply shared_getTopLevelLink_snoc.
Qed.

Lemma shared_top_link_resolves :
  resolveLinkInfo c l
  = Returned (mkLocationInfo
                (Js.index (children node) (childIndex l)) (Some node)).
Proof using Hp Hnum Hep Hn.
  rewrite (shared_cursor_eta c), Hp. simpl.
  rewrite Hp in Hnum. apply numbered_snoc in Hnum as [_ Hi].
  by erewrite shared_resolveLinkInfo_valid.
Qed.

Lemma shared_numbered_prefix : numbered p.
Proof using Hp Hnum.
  rewrite Hp in Hnum. by apply numbered_snoc in Hnum as [? _].
Qed.

Lemma shared_moveDown_to_sibling (sibling : nat) :
  Js.index (children node) (childIndex l + 1) = Some sibling →
  moveDown c
  = (Returned tt,
     relocate c (store c)
       (p ++ [mkLink (nodeIndex l) (childIndex l + 1) (Z.of_nat (length p))])
       (Z.of_nat (length (store c sibling))) 2).
Proof using Hp Hnum Hep Hn.
  intros Hs. unfold moveDown, bind, get, lift.
  rewrite (shared_atRoot_path c p l Hp), shared_top_link,
    shared_top_link_resolves. srun.
  apply index_bounds in Hs as Hlen. rewrite decide_True by lia.
  erewrite shared_leaveNode_spec by done.
  erewrite shared_enterNode_spec; [|apply shared_numbered_prefix|done..].
  simpl. by rewrite shared_relocate_relocate.
Qed.

Lemma shared_moveDown_at_last_child :
  Z.of_nat (length (children node)) - 1 ≤ childIndex l →
  moveDown c = (Returned tt, c).
Proof using Hp Hnum Hep Hn.
  intros Hlast. unfold moveDown, bind, get, lift.
  rewrite (shared_atRoot_path c p l Hp), shared_top_link,
    shared_top_link_resolves. srun.
  by rewrite decide_False by lia.
Qed.

Lemma shared_moveUp_to_sibling (sibling : nat) :
  0 < childIndex l →
  Js.index (children node) (childIndex l - 1) = Some sibling →
  moveUp c
  = (Returned tt,
     relocate c (store c)
       (p ++ [mkLink (nodeIndex l) (childIndex l - 1) (Z.of_nat (length p))])
       0 2).
Proof using Hp Hnum Hep Hn.
  intros Hpos Hs. unfold moveUp, bind, get, lift.
  rewrite (shared_atRoot_path c p l Hp), shared_top_link,
    shared_top_link_resolves. srun.
  rewrite decide_True by lia.
  erewrite shared_leaveNode_spec by done.
  erewrite shared_enterNode_spec; [|apply shared_numbered_prefix|done..].
  simpl. by rewrite shared_relocate_relocate.
Qed.

Lemma shared_moveUp_at_first_child :
  childIndex l ≤ 0 → moveUp c = (Returned tt, c).
Proof using Hp Hnum Hep Hn.
  intros Hfirst. unfold moveUp, bind, get, lift.
  rewrite (shared_atRoot_path c p l Hp), shared_top_link,
    shared_top_link_resolves. srun.
  by rewrite decide_False by lia.
Qed.

End SharedVerticalMoves.


(** ** Well-formed cursors *)

Lemma shared_wf_at_snoc (s : Store) (r : nat) (p : list CursorPathLink)
    (l : CursorPathLink) (i : Z) :
  wf_at s r (p ++ [l]) i ↔
  numbered p ∧ _i l = Z.of_nat (length p) ∧
  ∃ ep node child,
    expr_at s r (path_address p) = Some ep ∧
    Js.index (s ep) (nodeIndex l) = Some node ∧
    Js.index (children node) (childIndex l) = Some child ∧
    0 ≤ i ≤ Z.of_nat (length (s child)).
Proof.
  unfold wf_at. rewrite numbered_snoc, path_address_snoc. split.
  - intros [[Hnum Hi] (e & He & Hpos)].
    apply shared_expr_at_snoc in He as (ep & node & Hep & Hn & Hc).
    repeat split; try done. by exists ep, node, e.
  - intros (Hnum & Hi & ep & node & child & Hep & Hn & Hc & Hpos).
    repeat split; try done. exists child. split; [|done].
    apply shared_expr_at_snoc. eauto.
Qed.

Lemma shared_wf_at_prefix (s : Store) (r : nat) (p : list CursorPathLink)
    (l : CursorPathLink) (i : Z) :
  wf_at s r (p ++ [l]) i →
  wf_at s r p (nodeIndex l) ∧ wf_at s r p (nodeIndex l + 1).
Proof.
  intros (Hnum & _ & ep & node & child & Hep & Hn & _)%shared_wf_at_snoc.
  apply index_bounds in Hn.
  split; (split; [done|]); exists ep; (split; [done|lia]).
Qed.

Lemma shared_first_child (node : MathNode) :
  children node = [] ∨ ∃ child, Js.index (children node) 0 = Some child.
Proof. destruct (children node) as [|child rest]; [by left|eauto]. Qed.

Lemma length_splice_insert {A} (l : list A) (before : Z) (x : A) :
  length (Js.splice_insert l before x) = S (length l).
Proof.
  unfold Js.splice_insert.
  rewrite length_app. simpl. rewrite length_take, length_drop. lia.
Qed.

(** On a well-formed cursor [moveRight] returns a well-formed cursor. *)
Lemma shared_moveRight_runs (c : Cursor) :
  wf_at (store c) (_root c) (_path c) (_cursorIndex c) →
  ∃ p i k,
    moveRight c = (Returned tt, relocate c (store c) p i (S k)) ∧
    wf_at (store c) (_root c) p i.
Proof.
  intros Hwf. pose proof Hwf as [Hnum (e & He & Hi)].
  destruct (decide (_cursorIndex c = Z.of_nat (length (store c e))))
    as [Hend|Hin].
  - destruct (snoc_cases (_path c)) as [Hp|(p & l & Hp)].
    + eexists _, _, _. split; [by eapply shared_moveRight_at_end_of_root|].
      by rewrite Hp in Hwf.
    + eexists _, _, _. split; [by eapply shared_moveRight_at_end|].
      rewrite Hp in Hwf. by apply shared_wf_at_prefix in Hwf as [_ ?].
  - destruct (index_in_range (store c e) (_cursorIndex c)) as [node Hn];
      [lia|].
    destruct (shared_first_child node) as [Hc|[child Hc]].
    + eexists _, _, _. split; [by eapply shared_moveRight_over|].
      split; [done|]. exists e. split; [done|lia].
    + eexists _, _, _. split; [by eapply shared_moveRight_into|].
      apply shared_wf_at_snoc. repeat split; try done.
      exists e, node, child. repeat split; try done. lia.
Qed.

Lemma shared_moveLeft_runs (c : Cursor) :
  wf_at (store c) (_root c) (_path c) (_cursorIndex c) →
  ∃ p i k,
    moveLeft c = (Returned tt, relocate c (store c) p i (S k)) ∧
    wf_at (store c) (_root c) p i.
Proof.
  intros Hwf. pose proof Hwf as [Hnum (e & He & Hi)].
  destruct (decide (_cursorIndex c = 0)) as [Hstart|Hin].
  - destruct (snoc_cases (_path c)) as [Hp|(p & l & Hp)].
    + eexists _, _, _. split; [by eapply shared_moveLeft_at_start_of_root|].
      by rewrite Hp in Hwf.
    + eexists _, _, _. split; [by eapply shared_moveLeft_at_start|].
      rewrite Hp in Hwf. by apply shared_wf_at_prefix in Hwf as [? _].
  - destruct (index_in_range (store c e) (_cursorIndex c - 1))
      as [node Hn]; [lia|].
    destruct (shared_first_child node) as [Hc|[child Hc]].
    + eexists _, _, _. split; [by eapply shared_moveLeft_over|].
      split; [done|]. exists e. split; [done|lia].
    + eexists _, _, _. split; [by eapply shared_moveLeft_into|].
      apply shared_wf_at_snoc. repeat split; try done.
      exists e, node, child. repeat split; try done; lia.
Qed.

(** A write to the expression the path leads to, on a document without
    cycles, leaves the path leading there. *)
Lemma shared_wf_at_write (s : Store) (r : nat) (p : list CursorPathLink)
    (e : nat) (nodes : list MathNode) (i : Z) :
  acyclic s → numbered p →
  expr_at s r (path_address p) = Some e →
  0 ≤ i ≤ Z.of_nat (length nodes) →
  wf_at (write s e nodes) r p i.
Proof.
  intros Hs Hnum He Hi. split; [done|]. exists e.
  split; [by apply expr_at_write_target|]. by rewrite write_same.
Qed.

(** ** Reachable cursors *)

(** One operation, from a well-formed cursor over a document without
    cycles, within its precondition: the call returns, only the store, the
    path, the position and the observers' trace have changed, the document
    is still without cycles and the cursor well-formed, and the observers
    have been notified, except possibly by [moveUp] and [moveDown]. *)
Lemma shared_perform_relocates (c : Cursor) (op : Operation) :
  wf c → precondition_acyclic op c →
  ∃ s p i k,
    perform op c = (Returned tt, relocate c s p i k) ∧
    acyclic s ∧ wf_at s (_root c) p i ∧
    (notifies op = true → (1 ≤ k)%nat).
Proof.
  intros [Hs Hwf] [Hpre Hout]. pose proof Hwf as [Hnum (e & He & Hi)].
  destruct op as [n ch d|d| | | | | | |id ch|node]; simpl in *.
  - destruct Hpre as (e' & node & child & He' & Hn & Hc).
    erewrite shared_getEnclosingExpression_spec in He' by done.
    injection He' as <-.
    eexists _, _, _, _. split; [by eapply shared_enterNode_spec|].
    split; [done|]. split; [|done].
    apply shared_wf_at_snoc. repeat split; try done.
    exists e, node, child. repeat split; try done; destruct d; lia.
  - apply shared_atRoot_false in Hpre as (p & l & Hp).
    erewrite shared_bind_returned by (by eapply shared_leaveNode_spec).
    eexists _, _, _, _. split; [done|]. split; [done|]. split; [|done].
    rewrite Hp in Hwf.
    apply shared_wf_at_prefix in Hwf as [? ?]. by destruct d.
  - apply shared_atRoot_false in Hpre as (p & l & Hp).
    rewrite Hp in Hwf.
    apply shared_wf_at_snoc in Hwf
        as (Hnp & _ & ep & node & child & Hep & Hn & _).
    eexists _, _, _, _.
    split; [by eapply shared_removeEnclosingNode_spec|].
    split; [by apply acyclic_delete|]. split; [|done].
    apply shared_wf_at_write; try done.
    apply index_bounds in Hn.
    rewrite length_delete by (apply lookup_lt_is_Some; lia). lia.
  - eexists _, _, _, _.
    split; [eapply shared_deleteCharacterAtCursor_spec; [done..|lia]|].
    split; [by apply acyclic_delete|]. split; [|done].
    apply shared_wf_at_write; try done.
    rewrite length_delete by (apply lookup_lt_is_Some; lia). lia.
  - destruct (shared_moveRight_runs c Hwf) as (p & i & k & Hrun & Hwf').
    eexists _, _, _, _. split; [done|]. split; [done|]. split; [done|lia].
  - destruct (shared_moveLeft_runs c Hwf) as (p & i & k & Hrun & Hwf').
    eexists _, _, _, _. split; [done|]. split; [done|]. split; [done|lia].
  - destruct (snoc_cases (_path c)) as [Hp|(p & l & Hp)].
    { exists (store c), (_path c), (_cursorIndex c), 0%nat.
      rewrite shared_relocate_same.
      split; [by apply shared_moveUp_at_root|done]. }
    pose proof Hwf as Hwf'. rewrite Hp in Hwf'.
    apply shared_wf_at_snoc in Hwf'
        as (Hnp & Hil & ep & node & child & Hep & Hn & Hc & Hic).
    destruct (decide (childIndex l = 0)) as [Hfirst|Hmore].
    { exists (store c), (_path c), (_cursorIndex c), 0%nat.
      rewrite shared_relocate_same.
      split; [eapply shared_moveUp_at_first_child; [done..|lia]|done]. }
    apply index_bounds in Hc as Hcb.
    destruct (index_in_range (children node) (childIndex l - 1))
      as [sibling Hsib]; [lia|].
    eexists _, _, _, _.
    split; [eapply shared_moveUp_to_sibling; [done..|lia|done]|].
    split; [done|]. split; [|done].
    apply shared_wf_at_snoc. repeat split; try done.
    exists ep, node, sibling. repeat split; try done; lia.
  - destruct (snoc_cases (_path c)) as [Hp|(p & l & Hp)].
    { exists (store c), (_path c), (_cursorIndex c), 0%nat.
      rewrite shared_relocate_same.
      split; [by apply shared_moveDown_at_root|done]. }
    pose proof Hwf as Hwf'. rewrite Hp in Hwf'.
    apply shared_wf_at_snoc in Hwf'
        as (Hnp & Hil & ep & node & child & Hep & Hn & Hc & Hic).
    apply index_bounds in Hc as Hcb.
    destruct (decide (childIndex l = Z.of_nat (length (children node)) - 1))
      as [Hlast|Hmore].
    { exists (store c), (_path c), (_cursorIndex c), 0%nat.
      rewrite shared_relocate_same.
      split; [eapply shared_moveDown_at_last_child; [done..|lia]|done]. }
    destruct (index_in_range (children node) (childIndex l + 1))
      as [sibling Hsib]; [lia|].
    eexists _, _, _, _. split; [by eapply shared_moveDown_to_sibling|].
    split; [done|]. split; [|done].
    apply shared_wf_at_snoc. repeat split; try done.
    exists ep, node, sibling. repeat split; try done; lia.
  - eexists _, _, _, _.
    split; [by eapply shared_insertCharacterAtCursor_spec|].
    split; [|split; [|done]].
    + apply acyclic_insert; [done|].
      intros (c0 & child & a & Hc0 & _). simpl in Hc0.
      apply index_bounds in Hc0. simpl in Hc0. lia.
    + apply shared_wf_at_write; try done.
      rewrite length_splice_insert. lia.
  - erewrite shared_bind_returned
      by (by eapply shared_insertNodeAtCursor_spec).
    eexists _, _, _, _. split; [done|].
    split; [|split; [|done]].
    + apply acyclic_insert; [done|]. apply Hout.
      by apply shared_getEnclosingExpression_spec.
    + apply shared_wf_at_write; try done.
      rewrite length_splice_insert. lia.
Qed.

Lemma shared_perform_wf (c : Cursor) (op : Operation) :
  wf c → precondition_acyclic op c →
  ∃ c', perform op c = (Returned tt, c') ∧ wf c'.
Proof.
  intros Hwf Hpre.
  destruct (shared_perform_relocates c op Hwf Hpre)
    as (s & p & i & k & Hrun & Hs & H & _).
  eexists. split; [done|]. by split.
Qed.

Lemma reachable_acyclic_wf (c : Cursor) : reachable_acyclic c → wf c.
Proof.
  induction 1 as [c Hs Hp Hi|c op _ IH Hpre].
  - split; [done|]. rewrite Hp, Hi. split; [apply numbered_nil|].
    exists (_root c). split; [done|lia].
  - destruct (shared_perform_wf c op IH Hpre) as (c' & Hrun & Hwf).
    by rewrite Hrun.
Qed.

(** ** The cursor invariant *)

Lemma shared_wf_invariant (c : Cursor) :
  wf_at (store c) (_root c) (_path c) (_cursorIndex c) → invariant c.
Proof.
  intros [Hnum (e & He & Hi)]. split.
  - eexists. split; [by eapply shared_getEnclosingExpression_spec|done].
  - intros k l Hk. unfold link_valid.
    rewrite <- (take_drop_middle _ _ _ Hk) in He.
    unfold path_address in He. rewrite map_app in He. simpl in He.
    rewrite shared_expr_at_app in He.
    fold (path_address (take k (_path c))) in He.
    destruct (expr_at (store c) (_root c) (path_address (take k (_path c))))
      as [ek|]; [|done].
    simpl in He.
    destruct (Js.index (store c ek) (nodeIndex l)) as [node|] eqn:Hn; [|done].
    simpl in He.
    destruct (Js.index (children node) (childIndex l)) as [child|] eqn:Hc;
      [|done].
    exists ek, node. split; [done|].
    pose proof (index_bounds _ _ _ Hn). pose proof (index_bounds _ _ _ Hc).
    apply index_Some in Hn as [_ Hn]. done.
Qed.


(** A node as its constructor builds it, with child expressions that are
    empty and none of them the expression the cursor is in, does not
    contain that expression. *)
Lemma new_node_outside (c : Cursor) (node : MathNode) :
  (∀ child, child ∈ children node →
            store c child = [] ∧
            getEnclosingExpression c ≠ Returned (Some child)) →
  outside c node.
Proof.
  intros Hnew e He (k & child & a & Hk & Ha).
  apply index_Some in Hk as [_ Hk]. apply list_elem_of_lookup_2 in Hk.
  destruct (Hnew child Hk) as [Hempty Hother].
  destruct a as [|[n c'] a]; simpl in Ha.
  - injection Ha as ->. done.
  - rewrite Hempty in Ha. by rewrite index_None in Ha by (simpl; lia).
Qed.

(** ** The empty document *)

Lemma shared_expr_at_empty (e t : nat) (a : Address) :
  expr_at (λ _, []) e a = Some t → a = [].
Proof.
  destruct a as [|[n c] a]; [done|]. simpl.
  by rewrite index_None by (simpl; lia).
Qed.

Lemma acyclic_empty : acyclic (λ _, []).
Proof. intros e a Ha Hat. by apply shared_expr_at_empty in Hat. Qed.

Lemma initial_reachable_acyclic : reachable_acyclic initial.
Proof.
  apply reachable_acyclic_initial; [apply acyclic_empty|done..].
Qed.

Lemma in_numerator_reachable_acyclic : reachable_acyclic in_numerator.
Proof.
  apply (reachable_acyclic_step
           (snd (perform (InsertNodeAtCursor fraction) initial))
           (EnterNode 0 0 Right));
    [apply (reachable_acyclic_step initial (InsertNodeAtCursor fraction))|].
  - apply initial_reachable_acyclic.
  - split; [exact I|]. apply new_node_outside.
    intros child Hchild. split; [done|]. vm_compute.
    intros [= <-]. simpl in Hchild.
    rewrite !elem_of_cons, elem_of_nil in Hchild. lia.
  - split; [|exact I]. exists 0%nat, fraction, 1%nat. by vm_compute.
Qed.

Lemma in_numerator_reachable : reachable in_numerator.
Proof.
  apply (reachable_step
           (snd (perform (InsertNodeAtCursor fraction) initial))
           (EnterNode 0 0 Right));
    [apply (reachable_step initial (InsertNodeAtCursor fraction))|].
  - by apply reachable_initial.
  - exact I.
  - exists 0%nat, fraction, 1%nat. by vm_compute.
Qed.

Lemma fraction_in_itself_reachable : reachable fraction_in_itself.
Proof.
  pose (c1 := snd (perform (InsertNodeAtCursor fraction) in_numerator)).
  pose (c2 := snd (perform MoveLeft c1)).
  apply (reachable_step c2 DeleteCharacterAtCursor);
    [apply (reachable_step c1 MoveLeft);
     [apply (reachable_step in_numerator (InsertNodeAtCursor fraction))|]|].
  - apply in_numerator_reachable.
  - exact I.
  - exact I.
  - by vm_compute.
Qed.

End SharedFacts.

(** C1 fails as stated.  The caller builds a fraction [f] and inserts it,
    enters its numerator, inserts the same [f] there, moves left — into the
    numerator of the [f] just inserted, which is the numerator the cursor
    was in — and deletes the node before the cursor, the only node of that
    numerator.  Every call is within its precondition; the path is then
    [(0,0), (0,0)], and its second link indexes node 0 of an expression
    that has become empty; the next [moveLeft()] throws [TypeError]. *)
Lemma reachable_invariant_counterexample :
  Shared.reachable Shared.fraction_in_itself ∧
  ¬ Shared.invariant Shared.fraction_in_itself ∧
  fst (Shared.perform Shared.MoveLeft Shared.fraction_in_itself)
  = Thrown TypeError.
Proof.
  split; [exact SharedFacts.fraction_in_itself_reachable|].
  split; [|by vm_compute].
  intros [_ Hlinks].
  destruct (Hlinks 1%nat (mkLink 0 0 1) eq_refl)
    as (e & node & He & Hn & _).
  vm_compute in He. injection He as <-. vm_compute in Hn.
  by destruct Hn as [_ Hn].
Qed.

(** The same from a root expression that contains itself when the cursor
    is built: after [enterNode(0, 0, "left")] twice and
    [deleteCharacterAtCursor()] the second link is invalid. *)
Lemma cyclic_document_breaks_invariant :
  let c :=
    Shared.run
      [Shared.EnterNode 0 0 Left; Shared.EnterNode 0 0 Left;
       Shared.DeleteCharacterAtCursor] Shared.cyclic_root in
  Shared.reachable c ∧ ¬ Shared.invariant c.
Proof.
  split.
  - pose (c1 := snd (Shared.perform (Shared.EnterNode 0 0 Left)
                         Shared.cyclic_root)).
    pose (c2 := snd (Shared.perform (Shared.EnterNode 0 0 Left) c1)).
    apply (Shared.reachable_step c2 Shared.DeleteCharacterAtCursor);
      [apply (Shared.reachable_step c1 (Shared.EnterNode 0 0 Left));
       [apply (Shared.reachable_step Shared.cyclic_root
                 (Shared.EnterNode 0 0 Left))|]|].
    + by apply Shared.reachable_initial.
    + exists 0%nat, Shared.fraction, 1%nat. by vm_compute.
    + exists 1%nat, Shared.fraction, 1%nat. by vm_compute.
    + by vm_compute.
  - intros [_ Hlinks].
    destruct (Hlinks 1%nat (mkLink 0 0 1) eq_refl)
      as (e & node & He & Hn & _).
    vm_compute in He. injection He as <-. vm_compute in Hn.
    by destruct Hn as [_ Hn].
Qed.

(** C1, amended.  When no expression object contains itself at the start
    (none of the document, none under a node that is inserted later), every
    cursor reachable from an initial one (any root expression, empty path,
    position 0) by the public operations, each called within its
    precondition and [insertNodeAtCursor] with a node that does not contain
    the expression the cursor is in, satisfies the invariant: the position
    is between 0 and the length of the enclosing expression, and every link
    of the path indexes a node of the expression the links before it lead
    to and a child expression of that node. *)
Theorem reachable_acyclic_invariant (c : Shared.Cursor) :
  Shared.reachable_acyclic c → Shared.invariant c.
Proof.
  intros Hc. apply SharedFacts.shared_wf_invariant.
  by apply SharedFacts.reachable_acyclic_wf.
Qed.

Lemma reachable_acyclic_invariant_witness :
  Shared.reachable_acyclic Shared.in_numerator ∧
  Shared.invariant Shared.in_numerator.
Proof.
  split.
  - exact SharedFacts.in_numerator_reachable_acyclic.
  - exact (reachable_acyclic_invariant Shared.in_numerator
             SharedFacts.in_numerator_reachable_acyclic).
Defined.

(** ** moveRight followed by moveLeft *)

(** C2 fails as stated.  From the end of a fraction's denominator,
    [moveRight] leaves the fraction and [moveLeft] then enters its
    numerator: neither call is a no-op, and the path has changed. *)
Lemma moveRight_moveLeft_counterexample :
  let c := in_denominator in
  let c1 := snd (Cursor.moveRight c) in
  let c2 := snd (Cursor.moveLeft c1) in
  reachable c ∧ ¬ same_place c c1 ∧ ¬ same_place c1 c2 ∧
  path c = [mkLink 1 1 0] ∧ _cursorIndex c = 0 ∧
  path c2 = [mkLink 1 0 0] ∧ _cursorIndex c2 = 0 ∧
  ¬ same_place c c2.
Proof.
  repeat split; try reflexivity.
  - exact in_denominator_reachable.
  - intros [H _]. vm_compute in H. discriminate.
  - intros [H _]. vm_compute in H. discriminate.
  - intros [H _]. vm_compute in H. discriminate.
Qed.

Lemma numbered_last (p : list CursorPathLink) (l : CursorPathLink) :
  numbered (p ++ [l]) → childIndex l = 0 →
  l = mkLink (nodeIndex l) 0 (Z.of_nat (length p)).
Proof.
  intros [_ Hi]%numbered_snoc Hc. destruct l as [n ch i]. simpl in *.
  by subst.
Qed.

(** C2, amended.  From a reachable cursor where [moveRight] is not a no-op
    and the [moveLeft] after it is not a no-op, the two calls bring the
    cursor back to the original path and position, provided the cursor was
    not at the end of a child expression other than its node's first. *)
Theorem moveRight_moveLeft_round_trip (c : Cursor) :
  let c1 := snd (Cursor.moveRight c) in
  let c2 := snd (Cursor.moveLeft c1) in
  reachable c →
  ¬ same_place c c1 →
  ¬ same_place c1 c2 →
  (at_end c → in_first_child c) →
  same_place c c2.
Proof.
  intros c1 c2 Hwf%reachable_wf Hmoved1 Hmoved2 Hfirst. subst c1 c2.
  destruct (moveRight_runs c Hwf) as (c1 & Hrun1 & Hstep1).
  rewrite Hrun1 in *. simpl snd in *.
  pose proof (moveRight_step_wf c c1 Hwf Hstep1) as Hwf1.
  destruct (moveLeft_runs c1 Hwf1) as (c2 & Hrun2 & Hstep2).
  rewrite Hrun2 in *. simpl snd in *. clear Hrun1 Hrun2.
  pose proof Hwf as [Hnum (e0 & He0 & Hi0)].
  destruct Hstep1 as [e He Hi Hp|e p l He Hi Hp|e node child He Hn Hc
                     |e node He Hn Hc].
  - (* at the end of the root: nothing moved *)
    destruct Hmoved1. by split; autorewrite with relocate.
  - (* out of a node, then back into its first child *)
    assert (childIndex l = 0) as Hl0.
    { apply Hfirst.
      - eexists. split; [by eapply getEnclosingExpression_spec|].
        simpl. congruence.
      - rewrite Hp. apply last_snoc. }
    unfold wf in Hwf. rewrite Hp in Hwf.
    apply wf_at_snoc in Hwf
        as (Hnp & Hil & ep & nd & ch & Hep & Hnd & Hch & _).
    rewrite Hp, path_address_snoc in He.
    assert (e = ch) as ->.
    { apply expr_at_snoc in He as (ep' & nd' & Hep' & Hnd' & Hch').
      congruence. }
    apply index_bounds in Hnd as Hnb. rewrite Hl0 in Hch.
    inversion Hstep2 as [Hi' Hp'|p' l' Hi' Hp'|e' nd' ch' He' Hi' Hn' Hc'
                        |e' nd' He' Hi' Hn' Hc']; autorewrite with relocate in *; simpl in *; try lia.
    + replace (nodeIndex l + 1 - 1) with (nodeIndex l) in * by lia.
      assert (e' = ep) as -> by congruence.
      assert (nd' = nd) as -> by congruence.
      assert (ch' = ch) as -> by congruence.
      split; autorewrite with relocate; [|done]. rewrite Hp. do 2 f_equal.
      apply (numbered_last p); [by rewrite <- Hp|done].
    + replace (nodeIndex l + 1 - 1) with (nodeIndex l) in * by lia.
      assert (e' = ep) as -> by congruence.
      assert (nd' = nd) as -> by congruence.
      rewrite Hc' in Hch. by apply index_Some in Hch as [_ ?].
  - (* into a node, then out of it again *)
    inversion Hstep2 as [Hi' Hp'|p' l' Hi' Hp'|e' nd' ch' He' Hi' Hn' Hc'
                        |e' nd' He' Hi' Hn' Hc']; autorewrite with relocate in *; simpl in *; try done.
    + by destruct (path c).
    + apply app_inj_tail in Hp' as [<- <-].
      by split; autorewrite with relocate.
  - (* over a childless node, and back *)
    apply index_bounds in Hn as Hnb.
    inversion Hstep2 as [Hi' Hp'|p' l' Hi' Hp'|e' nd' ch' He' Hi' Hn' Hc'
                        |e' nd' He' Hi' Hn' Hc']; autorewrite with relocate in *; simpl in *; try lia.
    + replace (_cursorIndex c + 1 - 1) with (_cursorIndex c) in * by lia.
      assert (e' = e) as -> by congruence.
      assert (nd' = node) as -> by congruence.
      rewrite Hc in Hc'. by apply index_Some in Hc' as [_ ?].
    + split; autorewrite with relocate; [done|lia].
Qed.

Lemma moveRight_moveLeft_round_trip_witness :
  let c := Cursor.new [MathCharacter "n1" "x"] in
  reachable c ∧ same_place c (snd (Cursor.moveLeft (snd (Cursor.moveRight c)))).
Proof.
  assert (reachable (Cursor.new [MathCharacter "n1" "x"])) as Hreach
    by (by apply reachable_initial).
  split; [exact Hreach|].
  apply (moveRight_moveLeft_round_trip (Cursor.new [MathCharacter "n1" "x"])).
  - exact Hreach.
  - intros [_ H]. vm_compute in H. discriminate.
  - intros [_ H]. vm_compute in H. discriminate.
  - intros _ l H. vm_compute in H. discriminate.
Defined.

(** ** moveDown and moveUp *)

(** C3.  Below root, with child index [c] in the top-level link: if [c] is
    not the enclosing node's last child index, [moveDown] puts the cursor
    in child [c+1] of the same node, at the end of that expression; if
    [c > 0], [moveUp] puts it in child [c-1] of the same node, at position 0;
    at root, and at the respective boundary child, the move changes
    nothing. *)
Theorem vertical_moves (c : Cursor) : wf c → vertical_moves_spec c.
Proof.
  intros Hwf. split.
  - intros Hp. split; [by apply moveDown_at_root|by apply moveUp_at_root].
  - intros p l Hp. pose proof Hwf as [Hnum _].
    unfold wf in Hwf. rewrite Hp in Hwf.
    apply wf_at_snoc in Hwf
        as (Hnp & Hil & ep & node & child & Hep & Hn & Hc & _).
    exists (mkLocationInfo
              (Some (mkExprRef (path_address (p ++ [l])) child)) (Some node)),
      node.
    split; [by eapply top_link_resolves|]. split; [done|].
    apply index_bounds in Hc as Hcb. cbv zeta. repeat split.
    + intros Hmore.
      destruct (index_in_range (children node) (childIndex l + 1))
        as [sibling Hs]; [lia|].
      exists sibling. eexists. split; [done|].
      split; [by eapply moveDown_to_sibling|].
      autorewrite with relocate. by rewrite Hil.
    + intros Hlast. by eapply moveDown_at_last_child.
    + intros Hpos.
      destruct (index_in_range (children node) (childIndex l - 1))
        as [sibling Hs]; [lia|].
      exists sibling. eexists. split; [done|].
      split; [eapply moveUp_to_sibling; [done..|lia|done]|].
      autorewrite with relocate. by rewrite Hil.
    + intros Hfirst. by eapply moveUp_at_first_child.
Qed.

Lemma in_denominator_wf : wf in_denominator.
Proof. exact (reachable_wf in_denominator in_denominator_reachable). Qed.

Lemma vertical_moves_witness :
  wf in_denominator ∧ vertical_moves_spec in_denominator.
Proof.
  split.
  - exact in_denominator_wf.
  - exact (vertical_moves in_denominator in_denominator_wf).
Defined.

(** In the fraction 12/345, from the start of the numerator [moveDown]
    lands at the end of the denominator, and [moveUp] from there at the
    start of the numerator. *)
Example moveDown_then_moveUp :
  let fraction :=
    DoubleChildMathNode "n0" Fraction
      [MathCharacter "n1" "1"; MathCharacter "n2" "2"]
      [MathCharacter "n3" "3"; MathCharacter "n4" "4"; MathCharacter "n5" "5"]
  in
  let c := snd (Cursor.enterNode 0 0 Right (Cursor.new [fraction])) in
  let down := snd (Cursor.moveDown c) in
  let up := snd (Cursor.moveUp down) in
  path c = [mkLink 0 0 0] ∧ _cursorIndex c = 0 ∧
  path down = [mkLink 0 1 0] ∧ _cursorIndex down = 3 ∧
  path up = [mkLink 0 0 0] ∧ _cursorIndex up = 0 ∧
  Cursor.moveDown down = (Returned tt, down) ∧
  Cursor.moveUp up = (Returned tt, up).
Proof. vm_compute. by repeat split. Qed.

(** ** Notification of observers *)

(** Every operation other than [moveUp] and [moveDown], called within its
    precondition on a well-formed cursor, invokes every registered
    callback. *)
Lemma perform_notifies (c : Cursor) (op : Operation) :
  wf c → precondition op c → notifies op = true →
  all_notified c (snd (perform op c)).
Proof.
  intros Hwf Hpre Hop.
  destruct (perform_relocates c op Hwf Hpre)
    as (r & p & i & k & -> & _ & Hk).
  specialize (Hk Hop). destruct k as [|k]; [lia|].
  eexists. split; [reflexivity|]. intros cb Hcb. simpl.
  apply elem_of_app. by left.
Qed.

(** C5 (the code departs from it).  At root [moveDown] and [moveUp] return
    without invoking the registered callback, whereas [moveRight] at the
    end of the root and [moveLeft] at its start, which move nothing
    either, invoke it. *)
Theorem moveDown_moveUp_at_root_notify_nobody :
  _onUpdateCallbacks observed_at_root = [7%nat] ∧
  Cursor.moveDown observed_at_root = (Returned tt, observed_at_root) ∧
  Cursor.moveUp observed_at_root = (Returned tt, observed_at_root) ∧
  invoked (snd (Cursor.moveDown observed_at_root)) = [] ∧
  invoked (snd (Cursor.moveUp observed_at_root)) = [] ∧
  invoked (snd (Cursor.moveLeft observed_at_root)) = [7%nat] ∧
  invoked (snd (Cursor.moveRight (snd (Cursor.moveRight observed_at_root))))
  = [7%nat; 7%nat].
Proof. by repeat split. Qed.

(** The same from the last child of a node ([moveDown]) and from its first
    child ([moveUp]). *)
Lemma moveDown_moveUp_at_boundary_notify_nobody :
  let c := snd (Cursor.onUpdate 7%nat in_denominator) in
  let c' := snd (Cursor.moveUp c) in
  invoked c = [] ∧
  Cursor.moveDown c = (Returned tt, c) ∧ Cursor.moveUp c' = (Returned tt, c').
Proof. by repeat split. Qed.

(** ** Deleting *)

Lemma resolveLoop_throws (path : list CursorPathLink) (trips : nat) :
  ∀ (i : Z) (cur : option ExprRef) (node : option MathNode) (e : Exn),
    CursorLocation.resolveLoop path trips i cur node = Thrown e →
    e = TypeError.
Proof.
  induction trips as [|trips IH]; intros i cur node e;
    unfold CursorLocation.resolveLoop; fold CursorLocation.resolveLoop;
    [done|].
  destruct (Js.index path i) as [l|]; [|congruence].
  destruct cur as [expr|]; [|congruence].
  destruct (Js.index (getNodes expr) (nodeIndex l)); [|congruence].
  apply IH.
Qed.

(** [getEnclosingExpression] throws nothing but [TypeError]. *)
Lemma getEnclosingExpression_throws (l : CursorLocation) (e : Exn) :
  CursorLocation.getEnclosingExpression l = Thrown e → e = TypeError.
Proof.
  unfold CursorLocation.getEnclosingExpression.
  destruct (negb (CursorLocation.atRoot l)); [|done].
  destruct (Js.index _ _) as [top|]; [|congruence].
  destruct (CursorLocation.resolveLinkInfo l top) as [info|e'] eqn:Hres;
    [done|].
  intros [= <-]. by eapply resolveLoop_throws.
Qed.

(** At position 0 [deleteCharacterAtCursor] throws and changes nothing,
    whatever the cursor. *)
Lemma deleteCharacterAtCursor_at_0 (c : Cursor) :
  _cursorIndex c = 0 →
  ∃ e : Exn, Cursor.deleteCharacterAtCursor c = (Thrown e, c).
Proof.
  intros Hi.
  unfold Cursor.deleteCharacterAtCursor, Cursor.getEnclosingExpression. run.
  destruct (CursorLocation.getEnclosingExpression (_location c))
    as [[enc|]|e]; eauto.
  unfold Cursor.removeNthNode. run.
  rewrite removeNthNode_out_of_range by lia. eauto.
Qed.

(** C6.  At position 0 [deleteCharacterAtCursor] throws and leaves the
    tree, the path and the position (the whole cursor) as they were; at a
    position above 0 it removes the node at index position-1 of the
    enclosing expression and decrements the position. *)
Theorem deleteCharacterAtCursor_claim (c : Cursor) :
  wf c → deleteCharacterAtCursor_outcome c.
Proof.
  intros [Hnum (e & He & Hi)]. split.
  - intros H0.
    unfold Cursor.deleteCharacterAtCursor.
    erewrite bind_returned by (by eapply getEnclosingExpression_spec).
    run. unfold Cursor.removeNthNode. run.
    by rewrite removeNthNode_out_of_range by lia.
  - intros Hpos. eexists _, _.
    split; [by eapply getEnclosingExpression_spec|].
    split; [eapply deleteCharacterAtCursor_spec; [done..|lia]|].
    simpl. split.
    { rewrite getEnclosingExpression_spec
        with (e := delete (Z.to_nat (_cursorIndex c - 1)) e); [done..|].
      autorewrite with relocate. by eapply expr_at_write. }
    repeat split.
    rewrite length_delete by (apply lookup_lt_is_Some; lia).
    lia.
Qed.

Lemma deleteCharacterAtCursor_claim_witness :
  wf in_denominator ∧ deleteCharacterAtCursor_outcome in_denominator.
Proof.
  split.
  - exact in_denominator_wf.
  - exact (deleteCharacterAtCursor_claim in_denominator in_denominator_wf).
Defined.

(** In the spec's scenario: typing [x], deleting it leaves the empty root
    and position 0; deleting again throws. *)
Example delete_after_insert :
  let c1 := snd (Cursor.insertCharacterAtCursor "n1" "x" (Cursor.new [])) in
  let c2 := snd (Cursor.deleteCharacterAtCursor c1) in
  root c1 = [MathCharacter "n1" "x"] ∧ _cursorIndex c1 = 1 ∧
  root c2 = [] ∧ _cursorIndex c2 = 0 ∧
  Cursor.deleteCharacterAtCursor c2
  = (Thrown (Error "Attempted to remove node out of bounds"), c2).
Proof. by repeat split. Qed.

(** ** Removing the enclosing node *)

Lemma removeEnclosingNode_at_root (c : Cursor) :
  path c = [] → Cursor.removeEnclosingNode c = (Thrown NoEnclosingNode, c).
Proof.
  intros Hp. unfold Cursor.removeEnclosingNode. run.
  by rewrite location_eta, Hp.
Qed.

(** Below root the call may still throw on a cursor whose path does not
    resolve, but never with that error. *)
Lemma removeEnclosingNode_below_root (c c' : Cursor) (p : list CursorPathLink)
    (l : CursorPathLink) :
  path c = p ++ [l] →
  Cursor.removeEnclosingNode c ≠ (Thrown NoEnclosingNode, c').
Proof.
  intros Hp. unfold Cursor.removeEnclosingNode. run.
  rewrite location_eta, Hp, atRoot_snoc.
  unfold Cursor.pop. run. rewrite location_eta, Hp, pop_snoc.
  unfold Cursor.getEnclosingExpression. run.
  destruct (CursorLocation.getEnclosingExpression (mkLocation p (root c)))
    as [[enc|]|e] eqn:Henc; try done.
  - unfold Cursor.removeNthNode. run.
    unfold MathExpression.removeNthNode. by case_decide.
  - apply getEnclosingExpression_throws in Henc as ->. done.
Qed.

(** C7.  [removeEnclosingNode] throws the no-enclosing-node error exactly
    when the path is empty, and the cursor is then unchanged; with a path
    that is not empty it pops the last link, removes the node at that
    link's node index from the expression that is now the enclosing one,
    and sets the position to that index. *)
Theorem removeEnclosingNode_claim (c : Cursor) :
  wf c → removeEnclosingNode_outcome c.
Proof.
  intros Hwf. repeat split.
  - intros [c' Hthrow].
    destruct (snoc_cases (path c)) as [Hp|(p & l & Hp)]; [done|].
    by eapply removeEnclosingNode_below_root in Hthrow.
  - intros Hp. eexists. by apply removeEnclosingNode_at_root.
  - apply removeEnclosingNode_at_root.
  - intros p l Hp. unfold wf in Hwf. rewrite Hp in Hwf.
    apply wf_at_snoc in Hwf
        as (Hnp & _ & ep & node & child & Hep & Hn & _).
    exists ep, node. eexists.
    split; [done|]. split; [done|].
    split; [by eapply removeEnclosingNode_spec|].
    autorewrite with relocate. repeat split.
    rewrite getEnclosingExpression_spec
      with (e := delete (Z.to_nat (nodeIndex l)) ep); [done..|].
    autorewrite with relocate. by eapply expr_at_write.
Qed.

Lemma removeEnclosingNode_claim_witness :
  wf in_denominator ∧ removeEnclosingNode_outcome in_denominator.
Proof.
  split.
  - exact in_denominator_wf.
  - exact (removeEnclosingNode_claim in_denominator in_denominator_wf).
Defined.

(** From the denominator of [x] followed by a fraction, the fraction goes
    and the cursor stands after [x]. *)
Example removeEnclosingNode_in_denominator :
  let c' := snd (Cursor.removeEnclosingNode in_denominator) in
  root c' = [MathCharacter "n1" "x"] ∧ path c' = [] ∧ _cursorIndex c' = 1.
Proof. by repeat split. Qed.

(** ** Backspace *)

(** C10.  [handleKeydown] with key [Backspace], the cursor at root and at
    position 0, throws the no-enclosing-node error, and the tree, the path
    and the position are as before the call. *)
Theorem handleKeydown_Backspace_at_root (c : Cursor)
    (event : Cursor.KeyboardEvent) :
  Cursor.key event = "Backspace" →
  path c = [] →
  _cursorIndex c = 0 →
  ∃ c' : Cursor,
    Cursor.handleKeydown event c = (Thrown NoEnclosingNode, c') ∧
    root c' = root c ∧ path c' = path c ∧ _cursorIndex c' = _cursorIndex c.
Proof.
  intros Hkey Hp Hi. destruct event as [k t fresh rect]. simpl in Hkey.
  subst k. fields c. subst.
  eexists. split; [reflexivity|]. by repeat split.
Qed.

Lemma handleKeydown_Backspace_at_root_witness :
  ∃ c' : Cursor,
    Cursor.handleKeydown (Cursor.mkKeyboardEvent "Backspace" 1000 "n9" None)
      (Cursor.new fraction_root)
    = (Thrown NoEnclosingNode, c') ∧
    root c' = fraction_root ∧ path c' = [] ∧ _cursorIndex c' = 0.
Proof.
  apply (handleKeydown_Backspace_at_root (Cursor.new fraction_root)
           (Cursor.mkKeyboardEvent "Backspace" 1000 "n9" None));
    reflexivity.
Defined.

(** ** Inserting into an expression *)

Lemma splice_insert_nonneg {A} (l : list A) (start : Z) (x : A) :
  0 ≤ start →
  Js.splice_insert l start x
  = take (Z.to_nat start) l ++ x :: drop (Z.to_nat start) l.
Proof.
  intros Hs. unfold Js.splice_insert, Js.splice_start.
  case_decide; [lia|].
  destruct (decide (start ≤ Z.of_nat (length l))) as [Hin|Hout].
  - by rewrite Z.min_l by lia.
  - rewrite Z.min_r by lia. rewrite Nat2Z.id.
    by rewrite !take_ge, !drop_ge by lia.
Qed.

(** C8.  [insertNode(before, node)] with a non-negative integer [before]
    always yields an array (the model's function is total: [splice] throws
    nothing); beyond the length the node is appended; and in every case
    the array is one longer, the node sits at index min(before, length),
    the nodes before it stay and the nodes from there on move one to the
    right. *)
Theorem insertNode_claim (nodes : list MathNode) (before : Z)
    (node : MathNode) :
  0 ≤ before → insertNode_outcome nodes before node.
Proof.
  intros Hb. unfold insertNode_outcome, MathExpression.insertNode.
  rewrite splice_insert_nonneg by done. cbv zeta.
  set (len := length nodes).
  assert (Z.to_nat (Z.min before (Z.of_nat len))
          = Nat.min (Z.to_nat before) len) as -> by lia.
  repeat split.
  - rewrite length_app. simpl. rewrite length_take, length_drop. lia.
  - intros Hout. rewrite take_ge, drop_ge by lia. done.
  - rewrite lookup_app_r; rewrite length_take; [|lia].
    by replace (_ - _)%nat with 0%nat by lia.
  - intros j Hj. rewrite lookup_app_l by (rewrite length_take; lia).
    apply lookup_take_lt. lia.
  - intros j Hj. rewrite lookup_app_r; rewrite length_take; [|lia].
    fold len.
    replace (S j - Nat.min (Z.to_nat before) len)%nat
      with (S (j - Nat.min (Z.to_nat before) len)) by lia.
    simpl. rewrite lookup_drop.
    destruct (decide (Z.to_nat before ≤ len)%nat) as [Hin|Hout].
    + f_equal. lia.
    + rewrite !lookup_ge_None_2; [done|lia..].
Qed.

Lemma insertNode_claim_witness :
  0 ≤ 4 ∧
  insertNode_outcome fraction_root 4 (MathCharacter "n3" "y").
Proof.
  split; [lia|].
  apply (insertNode_claim fraction_root 4 (MathCharacter "n3" "y")). lia.
Defined.

(** The two calls of the source's own documentation. *)
Example insertNode_doc (a b c d e : MathNode) :
  MathExpression.insertNode [b; c; d] 0 a = [a; b; c; d] ∧
  MathExpression.insertNode [a; b; c; d] 4 e = [a; b; c; d; e] ∧
  MathExpression.insertNode [a; b; c; d] 9 e = [a; b; c; d; e].
Proof. by repeat split. Qed.

(** ** Rendering *)

Lemma join_empty (parts : list string) :
  Js.join " " parts = "" → parts = [] ∨ parts = [""].
Proof.
  destruct parts as [|p [|q parts]]; simpl.
  - by left.
  - intros ->. by right.
  - by destruct p.
Qed.

(** C9.  When the cursor's enclosing expression has no nodes and the
    cursor is not focused, the cursor's marker is the empty string and the
    expression renders as the placeholder [~], although the marker was
    spliced in. *)
Theorem empty_enclosing_unfocused_renders_placeholder (c : Cursor)
    (enclosing : ExprRef) :
  CursorLocation.getEnclosingExpression (_location c)
  = Returned (Some enclosing) →
  getNodes enclosing = [] →
  _focused c = false →
  Cursor.renderAsLatex c = "" ∧
  Js.splice_insert [] (Cursor.getCursorIndex c) (Cursor.renderAsLatex c)
  = [""] ∧
  MathExpression_renderAsLaTeX c (address enclosing) (getNodes enclosing)
  = Returned "~".
Proof.
  intros Henc Hnodes Hfocus.
  assert (Cursor.renderAsLatex c = "") as Hmarker.
  { unfold Cursor.renderAsLatex. by rewrite Hfocus. }
  assert (Js.splice_insert [] (Cursor.getCursorIndex c) "" = [""]) as Hsplice.
  { unfold Js.splice_insert. by rewrite take_nil, drop_nil. }
  split; [done|]. split; [by rewrite Hmarker|].
  unfold MathExpression_renderAsLaTeX, render_expression.
  rewrite Hnodes. simpl. rewrite Henc. simpl.
  rewrite decide_True by done. by rewrite Hmarker, Hsplice.
Qed.

Lemma empty_enclosing_unfocused_renders_placeholder_witness :
  MathExpression_renderAsLaTeX in_denominator [(1, 1)] [] = Returned "~".
Proof.
  apply (empty_enclosing_unfocused_renders_placeholder in_denominator
           (mkExprRef [(1, 1)] []));
    reflexivity.
Defined.

Lemma map_from_returns {A B} (f : Z → A → Outcome B) (l : list A) :
  Forall (λ x, ∀ i, ∃ y, f i x = Returned y) l →
  ∀ i, ∃ ys, map_from f i l = Returned ys.
Proof.
  induction 1 as [|x l Hx _ IH]; intros i; simpl; [eauto|].
  destruct (Hx i) as [y ->]. destruct (IH (i + 1)) as [ys ->]. eauto.
Qed.

Lemma map_from_Returned {A B} (f : Z → A → Outcome B) (l : list A) :
  ∀ (i : Z) (ys : list B),
    map_from f i l = Returned ys →
    length ys = length l ∧
    ∀ (j : nat) (x : A),
      l !! j = Some x →
      ∃ y, ys !! j = Some y ∧ f (i + Z.of_nat j) x = Returned y.
Proof.
  induction l as [|x l IH]; intros i ys; simpl.
  - intros [= <-]. split; [done|]. intros j x. by rewrite lookup_nil.
  - destruct (f i x) as [y|] eqn:Hy; [|done].
    destruct (map_from f (i + 1) l) as [ys'|] eqn:Hys; [|done].
    intros [= <-]. destruct (IH _ _ Hys) as [Hlen Hnth].
    split; [simpl; by rewrite Hlen|].
    intros [|j] x'; simpl.
    + intros [= <-]. exists y. by rewrite Z.add_0_r.
    + intros Hj. destruct (Hnth j x' Hj) as (y' & Hy' & Hf).
      exists y'. split; [done|].
      by replace (i + Z.of_nat (S j)) with (i + 1 + Z.of_nat j) by lia.
Qed.

Section RenderReturns.
Context (c : Cursor) (enclosing : option ExprRef).
Hypothesis Henc :
  CursorLocation.getEnclosingExpression (_location c) = Returned enclosing.

Lemma render_expression_returns (f : Z → MathNode → Outcome string)
    (this : Address) (nodes : list MathNode) :
  Forall (λ n, ∀ i, ∃ s, f i n = Returned s) nodes →
  ∃ s, render_expression c f this nodes = Returned s.
Proof using Henc.
  intros Hnodes. unfold render_expression.
  destruct (map_from_returns f nodes Hnodes 0) as [parts ->].
  rewrite Henc. destruct (String.eqb _ ""); eauto.
Qed.

(** Every node renders, to a fragment that is not empty: it starts with
    the node's [htmlId] prefix. *)
Lemma MathNode_renders (n : MathNode) :
  ∀ (parent : Address) (index : Z),
    ∃ s, MathNode_renderAsLaTeX c parent index n = Returned s ∧ s ≠ "".
Proof using Henc.
  induction n as [id ch|id k c0 IH0|id k c0 c1 IH0 IH1]
    using MathNode_nested_ind; intros parent index; simpl.
  - eauto.
  - destruct (render_expression_returns
                (MathNode_renderAsLaTeX c (parent ++ [(index, 0)]))
                (parent ++ [(index, 0)]) c0) as [s0 ->]; [|eauto].
    eapply Forall_impl; [exact IH0|]. intros n Hn i.
    destruct (Hn (parent ++ [(index, 0)]) i) as (s & -> & _). eauto.
  - destruct (render_expression_returns
                (MathNode_renderAsLaTeX c (parent ++ [(index, 0)]))
                (parent ++ [(index, 0)]) c0) as [s0 ->].
    { eapply Forall_impl; [exact IH0|]. intros n Hn i.
      destruct (Hn (parent ++ [(index, 0)]) i) as (s & -> & _). eauto. }
    destruct (render_expression_returns
                (MathNode_renderAsLaTeX c (parent ++ [(index, 1)]))
                (parent ++ [(index, 1)]) c1) as [s1 ->]; [|eauto].
    eapply Forall_impl; [exact IH1|]. intros n Hn i.
    destruct (Hn (parent ++ [(index, 1)]) i) as (s & -> & _). eauto.
Qed.

End RenderReturns.

(** C4.  Rendering an expression renders each of its nodes in order and
    joins the fragments with a space; the cursor's marker is spliced into
    the fragments at index [position] if the expression is the cursor's
    enclosing expression, and only then; an expression with no nodes that
    is not the cursor's renders as the placeholder [~]. *)
Theorem renderAsLaTeX_claim (c : Cursor) (enclosing : option ExprRef)
    (this : Address) (nodes : list MathNode) :
  CursorLocation.getEnclosingExpression (_location c) = Returned enclosing →
  0 ≤ _cursorIndex c →
  renderAsLaTeX_outcome c enclosing this nodes.
Proof.
  intros Henc Hpos.
  unfold renderAsLaTeX_outcome, MathExpression_renderAsLaTeX,
    render_expression.
  destruct (map_from_returns (MathNode_renderAsLaTeX c this) nodes)
    with (i := 0) as [fragments Hmap].
  { apply Forall_forall. intros n _ i.
    destruct (MathNode_renders c enclosing Henc n this i) as (s & -> & _).
    eauto. }
  rewrite Hmap, Henc.
  destruct (map_from_Returned _ _ _ _ Hmap) as [Hlen Hnth].
  exists fragments. split; [done|]. split.
  { intros i n Hn. destruct (Hnth i n Hn) as (s & Hs & Hr). eauto. }
  cbv zeta. unfold Cursor.getCursorIndex. repeat split.
  - intros Hthis Hshown. rewrite decide_True by done.
    rewrite splice_insert_nonneg by done.
    destruct (String.eqb_spec
                (Js.join " "
                   (take (Z.to_nat (_cursorIndex c)) fragments
                    ++ Cursor.renderAsLatex c
                    :: drop (Z.to_nat (_cursorIndex c)) fragments)) "")
      as [Hempty|]; [|done].
    exfalso. apply join_empty in Hempty as [Hnil|Hone].
    { by destruct (take _ fragments). }
    assert (fragments = [] ∧ Cursor.renderAsLatex c = "") as [-> Hmarker].
    { apply (f_equal length) in Hone as Hl.
      rewrite length_app in Hl. simpl in Hl.
      rewrite length_take, length_drop in Hl.
      assert (length fragments = 0%nat) as ->%nil_length_inv by lia.
      rewrite take_nil, drop_nil in Hone. simpl in Hone.
      by injection Hone as ->. }
    destruct Hshown as [Hnodes|Hfocus].
    + by destruct nodes.
    + unfold Cursor.renderAsLatex in Hmarker. by rewrite Hfocus in Hmarker.
  - intros Hother Hnodes. rewrite decide_False by done.
    destruct (String.eqb_spec (Js.join " " fragments) "") as [Hempty|];
      [|done].
    exfalso. destruct nodes as [|n nodes]; [done|].
    destruct (Hnth 0%nat n) as (s & Hs & Hr); [done|].
    destruct (MathNode_renders c enclosing Henc n this 0) as (s' & Hr' & Hne).
    change (0 + Z.of_nat 0) with 0 in Hr. rewrite Hr in Hr'.
    injection Hr' as <-.
    apply join_empty in Hempty as [->| ->]; simpl in Hs; congruence.
  - intros Hother ->. rewrite decide_False by done.
    apply nil_length_inv in Hlen as ->. done.
  - intros Hthis -> Hfocus. rewrite decide_True by done.
    apply nil_length_inv in Hlen as ->.
    unfold Js.splice_insert, Cursor.renderAsLatex.
    by rewrite take_nil, drop_nil, Hfocus.
Qed.

Lemma renderAsLaTeX_claim_witness :
  renderAsLaTeX_outcome focused_in_denominator
    (Some (mkExprRef [(1, 1)] [])) [] fraction_root.
Proof.
  apply (renderAsLaTeX_claim focused_in_denominator
           (Some (mkExprRef [(1, 1)] [])) [] fraction_root).
  - reflexivity.
  - simpl. lia.
Defined.

(** The whole tree with that cursor, and the same tree once the cursor has
    lost focus. *)
Example render_focused_in_denominator :
  MathExpression_renderAsLaTeX focused_in_denominator [] fraction_root
  = Returned
      "\htmlId{node-n1}x \htmlId{node-n2}{\frac{~}{\!\htmlId{__cursor}{\textcolor{black}{|}}}}"
  ∧
  MathExpression_renderAsLaTeX (snd (Cursor.blur focused_in_denominator)) []
    fraction_root
  = Returned "\htmlId{node-n1}x \htmlId{node-n2}{\frac{~}{~}}".
Proof. by split. Qed.

(** * Further properties of the tree *)

(** ** insertNode and removeNthNode *)

Lemma splice_start_range (len start : Z) :
  0 ≤ len → 0 ≤ Js.splice_start len start ≤ len.
Proof. intros Hlen. unfold Js.splice_start. case_decide; lia. Qed.

Lemma insertNode_at (nodes : list MathNode) (before : Z) (node : MathNode) :
  let k := Z.to_nat (Js.splice_start (Z.of_nat (length nodes)) before) in
  MathExpression.insertNode nodes before node
  = take k nodes ++ node :: drop k nodes ∧
  (k ≤ length nodes)%nat.
Proof.
  cbv zeta. split; [done|].
  pose proof (splice_start_range (Z.of_nat (length nodes)) before). lia.
Qed.

(** X1.  Removing, right after an insertion, the index at which [splice]
    put the node gives back the node array as it was; for [before] within
    0..length that index is [before] itself. *)
Theorem insertNode_removeNthNode (nodes : list MathNode) (before : Z)
    (node : MathNode) :
  MathExpression.removeNthNode
    (MathExpression.insertNode nodes before node)
    (Js.splice_start (Z.of_nat (length nodes)) before)
  = Returned nodes ∧
  (0 ≤ before ≤ Z.of_nat (length nodes) →
   MathExpression.removeNthNode
     (MathExpression.insertNode nodes before node) before
   = Returned nodes).
Proof.
  assert (MathExpression.removeNthNode
            (MathExpression.insertNode nodes before node)
            (Js.splice_start (Z.of_nat (length nodes)) before)
          = Returned nodes) as Hgeneral.
  { destruct (insertNode_at nodes before node) as [-> Hk].
    pose proof (splice_start_range (Z.of_nat (length nodes)) before).
    rewrite removeNthNode_in_range.
    - f_equal.
      rewrite <- (length_take_le nodes
                    (Z.to_nat (Js.splice_start (Z.of_nat (length nodes))
                                 before))) at 1 by done.
      rewrite delete_middle. apply take_drop.
    - rewrite length_app. simpl. rewrite length_take, length_drop. lia. }
  split; [done|]. intros Hin.
  replace before with (Js.splice_start (Z.of_nat (length nodes)) before)
    at 2; [done|].
  unfold Js.splice_start. case_decide; lia.
Qed.

(** X2.  [insertNode] does not check its index: with a negative [before]
    the node goes in counting from the end, at index max(length + before,
    0), and at the front when [before] is at or below -length; the array
    is one longer and the other nodes keep their order. *)
Theorem insertNode_negative (nodes : list MathNode) (before : Z)
    (node : MathNode) :
  before < 0 → insertNode_negative_outcome nodes before node.
Proof.
  intros Hneg. unfold insertNode_negative_outcome.
  destruct (insertNode_at nodes before node) as [-> Hk]. revert Hk.
  unfold Js.splice_start. rewrite decide_True by done. cbv zeta.
  set (k := Z.to_nat (Z.max (Z.of_nat (length nodes) + before) 0)).
  intros Hk. repeat split.
  - rewrite length_app. simpl. rewrite length_take, length_drop. lia.
  - intros Hfront. assert (k = 0%nat) as -> by lia. done.
  - rewrite lookup_app_r; rewrite length_take; [|lia].
    by replace (_ - _)%nat with 0%nat by lia.
  - intros j Hj. rewrite lookup_app_l by (rewrite length_take; lia).
    apply lookup_take_lt. lia.
  - intros j Hj. rewrite lookup_app_r; rewrite length_take; [|lia].
    replace (S j - Nat.min k (length nodes))%nat
      with (S (j - k)) by lia.
    simpl. rewrite lookup_drop. f_equal. lia.
Qed.

Lemma insertNode_negative_witness :
  -1 < 0 ∧
  insertNode_negative_outcome fraction_root (-1) (MathCharacter "n3" "y").
Proof.
  split; [lia|].
  apply (insertNode_negative fraction_root (-1) (MathCharacter "n3" "y")).
  lia.
Defined.

(** X3.  [removeNthNode] throws exactly when the index is below 0 or not
    below the length, and the error is the out-of-bounds one; otherwise it
    returns the array without the node at that index: one shorter, the
    nodes before the index in place, the nodes after it one to the left. *)
Theorem removeNthNode_outcome (nodes : list MathNode) (index : Z) :
  ((∃ e, MathExpression.removeNthNode nodes index = Thrown e)
   ↔ index < 0 ∨ Z.of_nat (length nodes) ≤ index) ∧
  (index < 0 ∨ Z.of_nat (length nodes) ≤ index →
   MathExpression.removeNthNode nodes index
   = Thrown (Error "Attempted to remove node out of bounds")) ∧
  (0 ≤ index < Z.of_nat (length nodes) →
   ∃ result removed,
     MathExpression.removeNthNode nodes index = Returned result ∧
     nodes !! Z.to_nat index = Some removed ∧
     S (length result) = length nodes ∧
     (∀ j : nat, (j < Z.to_nat index)%nat → result !! j = nodes !! j) ∧
     (∀ j : nat, (Z.to_nat index ≤ j)%nat → result !! j = nodes !! S j)).
Proof.
  repeat split.
  - intros [e He].
    destruct (decide (index < 0 ∨ Z.of_nat (length nodes) ≤ index));
      [done|].
    rewrite removeNthNode_in_range in He by lia. done.
  - intros Hout. eexists. by apply removeNthNode_out_of_range.
  - apply removeNthNode_out_of_range.
  - intros Hin.
    destruct (lookup_lt_is_Some_2 nodes (Z.to_nat index)) as [removed Hr];
      [lia|].
    exists (delete (Z.to_nat index) nodes), removed.
    split; [by apply removeNthNode_in_range|]. split; [done|].
    split; [rewrite length_delete by eauto; lia|]. split.
    + intros j Hj. by apply list_lookup_delete_lt.
    + intros j Hj. by apply list_lookup_delete_ge.
Qed.

(** ** Writing into the tree *)

Lemma with_child_same (node : MathNode) (c : Z) (child : MathExpression) :
  Js.index (children node) c = Some child → with_child node c child = node.
Proof.
  intros H. pose proof (index_bounds _ _ _ H) as Hc.
  apply index_Some in H as [_ H].
  destruct node as [i ch|i k c0|i k c0 c1]; simpl in *; [lia|..].
  - assert (c = 0) as -> by lia. simpl in H. by injection H as ->.
  - assert (c = 0 ∨ c = 1) as [-> | ->] by lia; simpl in H;
      by injection H as ->.
Qed.

Lemma with_child_with_child (node : MathNode) (c : Z)
    (child e1 e2 : MathExpression) :
  Js.index (children node) c = Some child →
  with_child (with_child node c e1) c e2 = with_child node c e2.
Proof.
  intros H. pose proof (index_bounds _ _ _ H) as Hc.
  destruct node as [i ch|i k c0|i k c0 c1]; simpl in *; [lia|..].
  - assert (c = 0) as -> by lia. done.
  - assert (c = 0 ∨ c = 1) as [-> | ->] by lia; done.
Qed.


(** Writing back what is there changes nothing. *)
Lemma write_expr_same (e : MathExpression) (a : Address)
    (old : list MathNode) :
  expr_at e a = Some old → write_expr e a old = e.
Proof.
  revert e. induction a as [|[n c] a IH]; intros e; simpl.
  - by intros [= ->].
  - destruct (Js.index e n) as [node|] eqn:Hn; simpl; [|done].
    destruct (Js.index (children node) c) as [child|] eqn:Hc; simpl; [|done].
    intros Hold. rewrite IH by done. rewrite with_child_same by done.
    apply list_insert_id. by apply index_Some in Hn as [_ ?].
Qed.

(** Of two writes at the same address the second one counts. *)
Lemma write_expr_write (e : MathExpression) (a : Address)
    (old new1 new2 : list MathNode) :
  expr_at e a = Some old →
  write_expr (write_expr e a new1) a new2 = write_expr e a new2.
Proof.
  revert e. induction a as [|[n c] a IH]; intros e; simpl; [done|].
  destruct (Js.index e n) as [node|] eqn:Hn; simpl; [|by rewrite Hn].
  destruct (Js.index (children node) c) as [child|] eqn:Hc; simpl;
    [|by rewrite Hn, Hc].
  intros Hold. erewrite index_insert by done.
  erewrite children_with_child by done.
  rewrite IH by done. erewrite with_child_with_child by done.
  apply list_insert_insert_eq.
Qed.


(** * Further properties of the cursor location *)

(** The loop of [resolveLinkInfo] walks the valid part of a path. *)
Lemma resolveLoop_prefix (prefix : list CursorPathLink) :
  ∀ (done rest : list CursorPathLink) (a : Address) (cur : MathExpression)
    (node0 : option MathNode) (trips : nat) (ep : MathExpression),
    expr_at cur (path_address prefix) = Some ep →
    ∃ node1 : option MathNode,
      CursorLocation.resolveLoop (done ++ prefix ++ rest)
        (length prefix + trips) (Z.of_nat (length done))
        (Some (mkExprRef a cur)) node0
      = CursorLocation.resolveLoop (done ++ prefix ++ rest) trips
          (Z.of_nat (length done) + Z.of_nat (length prefix))
          (Some (mkExprRef (a ++ path_address prefix) ep)) node1.
Proof.
  induction prefix as [|l0 prefix IH];
    intros done rest a cur node0 trips ep Hep.
  - simpl in Hep. injection Hep as <-. exists node0. simpl.
    by rewrite Z.add_0_r, app_nil_r.
  - simpl in Hep.
    destruct (Js.index cur (nodeIndex l0)) as [nd|] eqn:Hn0; [|done].
    simpl in Hep.
    destruct (Js.index (children nd) (childIndex l0)) as [ch|] eqn:Hc0;
      [|done].
    simpl in Hep.
    destruct (IH (done ++ [l0]) rest (a ++ [(nodeIndex l0, childIndex l0)])
                ch (Some nd) trips ep Hep) as [node1 Hwalk].
    exists node1.
    change (length (l0 :: prefix) + trips)%nat
      with (S (length prefix + trips)).
    erewrite resolveLoop_step;
      [|rewrite <- app_comm_cons; apply index_middle|exact Hn0].
    rewrite Hc0. simpl mbind. simpl address.
    rewrite length_app in Hwalk. simpl length in Hwalk.
    rewrite <- !app_assoc in Hwalk. simpl app in Hwalk.
    replace (Z.of_nat (length done + 1)) with (Z.of_nat (length done) + 1)
      in Hwalk by lia.
    rewrite <- app_comm_cons. rewrite Hwalk. simpl path_address.
    f_equal. simpl length. lia.
Qed.

(** [resolveLinkInfo] on the [k]-th link of a numbered path whose first
    [k] links resolve. *)
Lemma resolveLinkInfo_at (p : list CursorPathLink) (k : nat)
    (l : CursorPathLink) (r ep : MathExpression) :
  numbered p → p !! k = Some l →
  expr_at r (path_address (take k p)) = Some ep →
  CursorLocation.resolveLinkInfo (mkLocation p r) l
  = match Js.index ep (nodeIndex l) with
    | Some node =>
        Returned
          (mkLocationInfo
             (child ← Js.index (children node) (childIndex l);
              Some (mkExprRef
                      (path_address (take k p)
                       ++ [(nodeIndex l, childIndex l)]) child))
             (Some node))
    | None => Thrown TypeError
    end.
Proof.
  intros Hnum Hk Hep. unfold CursorLocation.resolveLinkInfo.
  simpl _path. simpl _root. rewrite (Hnum k l Hk).
  replace (Z.to_nat (Z.of_nat k + 1)) with (length (take k p) + 1)%nat
    by (rewrite length_take_le; [lia|apply lookup_lt_Some in Hk; lia]).
  pose proof (take_drop_middle p k l Hk) as Hsplit.
  destruct (resolveLoop_prefix (take k p) [] (l :: drop (S k) p) [] r None 1
              ep Hep) as [node1 Hwalk].
  simpl app in Hwalk. rewrite Hsplit in Hwalk.
  change (Z.of_nat (@length CursorPathLink [])) with 0 in Hwalk.
  rewrite Hwalk. clear Hwalk. rewrite Z.add_0_l.
  assert (Js.index p (Z.of_nat (length (take k p))) = Some l) as Hl.
  { rewrite <- Hsplit at 1. apply index_middle. }
  unfold CursorLocation.resolveLoop. rewrite Hl. simpl getNodes.
  by destruct (Js.index ep (nodeIndex l)).
Qed.

Lemma getEnclosingExpression_snoc (p : list CursorPathLink)
    (l : CursorPathLink) (r ep : MathExpression) :
  numbered (p ++ [l]) →
  expr_at r (path_address p) = Some ep →
  CursorLocation.getEnclosingExpression (mkLocation (p ++ [l]) r)
  = match Js.index ep (nodeIndex l) with
    | Some node =>
        Returned
          (child ← Js.index (children node) (childIndex l);
           Some (mkExprRef (path_address (p ++ [l])) child))
    | None => Thrown TypeError
    end.
Proof.
  intros Hnum Hep. unfold CursorLocation.getEnclosingExpression.
  rewrite atRoot_snoc. simpl negb. cbv iota. simpl _path.
  rewrite index_last.
  rewrite (resolveLinkInfo_at (p ++ [l]) (length p) l r ep); try done.
  - rewrite take_app_length, path_address_snoc.
    by destruct (Js.index ep (nodeIndex l)).
  - by apply list_lookup_middle.
  - by rewrite take_app_length.
Qed.

(** X4.  [resolveLinkInfo], given any link of a numbered path, returns the
    expression that the path up to and including that link leads to, and
    the node that link addresses, whatever links follow. *)
Theorem resolveLinkInfo_prefix (p : list CursorPathLink) (k : nat)
    (l : CursorPathLink) (r e : MathExpression) :
  numbered p → p !! k = Some l →
  expr_at r (path_address (take (S k) p)) = Some e →
  ∃ (parent : MathExpression) (node : MathNode),
    expr_at r (path_address (take k p)) = Some parent ∧
    Js.index parent (nodeIndex l) = Some node ∧
    CursorLocation.resolveLinkInfo (mkLocation p r) l
    = Returned
        (mkLocationInfo
           (Some (mkExprRef (path_address (take (S k) p)) e)) (Some node)).
Proof.
  intros Hnum Hk He. erewrite take_S_r in He |- * by done.
  rewrite path_address_snoc in He |- *.
  apply expr_at_snoc in He as (ep & node & Hep & Hn & Hc).
  exists ep, node. split; [done|]. split; [done|].
  erewrite resolveLinkInfo_at by done. by rewrite Hn, Hc.
Qed.

Lemma resolveLinkInfo_prefix_witness :
  ∃ (parent : MathExpression) (node : MathNode),
    expr_at fraction_root (path_address (take 0 [mkLink 1 1 0]))
    = Some parent ∧
    Js.index parent 1 = Some node ∧
    CursorLocation.resolveLinkInfo
      (mkLocation [mkLink 1 1 0] fraction_root) (mkLink 1 1 0)
    = Returned (mkLocationInfo (Some (mkExprRef [(1, 1)] [])) (Some node)).
Proof.
  apply (resolveLinkInfo_prefix [mkLink 1 1 0] 0 (mkLink 1 1 0)
           fraction_root []).
  - intros [|k] l; [by intros [= <-]|done].
  - reflexivity.
  - reflexivity.
Defined.

(** X5.  In a numbered path [getParent] gives, for the link at index
    [k+1], the link at index [k], and nothing for the first link. *)
Theorem getParent_numbered (p : list CursorPathLink) (r : MathExpression)
    (k : nat) (l : CursorPathLink) :
  numbered p → p !! k = Some l →
  CursorLocation.getParent (mkLocation p r) l
  = match k with
    | O => None
    | S k' => p !! k'
    end.
Proof.
  intros Hnum Hk. unfold CursorLocation.getParent. rewrite (Hnum k l Hk).
  destruct k as [|k'].
  - by rewrite decide_True.
  - rewrite decide_False by lia. simpl _path. unfold Js.index.
    rewrite decide_True by lia. f_equal. lia.
Qed.

Lemma getParent_numbered_witness :
  CursorLocation.getParent
    (mkLocation [mkLink 1 0 0; mkLink 0 0 1] fraction_root) (mkLink 0 0 1)
  = Some (mkLink 1 0 0).
Proof.
  apply (getParent_numbered [mkLink 1 0 0; mkLink 0 0 1] fraction_root 1
           (mkLink 0 0 1)).
  - intros [|[|k]] l; try done; by intros [= <-].
  - reflexivity.
Defined.

(** * Further properties of the cursor *)

(** ** Entering and leaving *)

(** X6.  [leaveNode] throws exactly when the cursor is at root; the error
    is the empty-stack one of [pop], and the cursor is unchanged: position
    untouched, nobody notified. *)
Theorem leaveNode_throws_at_root (c : Cursor) (d : Direction) :
  ((∃ e c', Cursor.leaveNode d c = (Thrown e, c')) ↔ path c = []) ∧
  (path c = [] →
   Cursor.leaveNode d c
   = (Thrown (Error "Cannot pop cursor path link off stack; stack is empty"),
      c)).
Proof.
  assert (path c = [] →
          Cursor.leaveNode d c
          = (Thrown
               (Error "Cannot pop cursor path link off stack; stack is empty"),
             c)) as Hroot.
  { intros Hp. unfold Cursor.leaveNode, Cursor.pop. run.
    rewrite location_eta, Hp. unfold CursorLocation.pop.
    replace (CursorLocation.atRoot (mkLocation [] (root c))) with true
      by (symmetry; by apply atRoot_true).
    f_equal. unfold set_location. rewrite <- Hp, <- location_eta.
    by destruct c. }
  split; [|done]. split.
  - intros (e & c' & Hthrow).
    destruct (snoc_cases (path c)) as [Hp|(p & l & Hp)]; [done|].
    by erewrite leaveNode_spec in Hthrow.
  - intros Hp. eexists _, _. by apply Hroot.
Qed.

(** X7.  [enterNode] does not check its indices.  On a well-formed cursor,
    with indices that address no child expression of the enclosing
    expression, the link is pushed all the same: towards the left the call
    then throws [TypeError] with the link left on the path and nobody
    notified; towards the right it returns, and the cursor it leaves has no
    enclosing expression any more. *)
Theorem enterNode_unchecked (c : Cursor) (n ch : Z) :
  wf c → ¬ precondition (EnterNode n ch Left) c →
  enterNode_unchecked_outcome c n ch.
Proof.
  intros [Hnum (e & He & Hi)] Hpre.
  assert (CursorLocation.getEnclosingExpression
            (mkLocation
               (path c ++ [mkLink n ch (Z.of_nat (length (path c)))])
               (root c)) = Thrown TypeError
          ∨ CursorLocation.getEnclosingExpression
              (mkLocation
                 (path c ++ [mkLink n ch (Z.of_nat (length (path c)))])
                 (root c)) = Returned None) as Hbad.
  { erewrite getEnclosingExpression_snoc; [|by apply numbered_snoc|done].
    simpl. destruct (Js.index e n) as [node|] eqn:Hn; [|by left].
    destruct (Js.index (children node) ch) as [child|] eqn:Hc; [|by right].
    destruct Hpre. simpl.
    exists (mkExprRef (path_address (path c)) e), node, child.
    split; [by apply getEnclosingExpression_spec|done]. }
  clear Hpre. fields c. split.
  - eexists. split.
    { unfold Cursor.enterNode, Cursor.getEnclosingExpression. run.
      by destruct Hbad as [-> | ->]. }
    by repeat split.
  - eexists. split.
    { unfold Cursor.enterNode, Cursor.notifyUpdates. by run. }
    repeat split.
    intros e'. unfold Cursor.getEnclosingExpression. run.
    destruct Hbad as [-> | ->]; congruence.
Qed.

Lemma enterNode_unchecked_witness :
  wf (Cursor.new fraction_root) ∧
  enterNode_unchecked_outcome (Cursor.new fraction_root) 0 0.
Proof.
  assert (wf (Cursor.new fraction_root)) as Hwf by (by apply initial_wf).
  split; [exact Hwf|].
  apply (enterNode_unchecked (Cursor.new fraction_root) 0 0 Hwf).
  intros (e & node & child & He & Hn & Hc).
  vm_compute in He. injection He as <-.
  vm_compute in Hn. injection Hn as <-.
  vm_compute in Hc. discriminate.
Defined.

(** X8.  After [enterNode(n, ch, d)] within its precondition, [leaveNode]
    returns the link just pushed and puts the cursor back in the expression
    it came from, immediately before node [n] when leaving to the left and
    immediately after it when leaving to the right; the tree is
    untouched. *)
Theorem enterNode_leaveNode (c : Cursor) (n ch : Z) (d d' : Direction) :
  wf c → precondition (EnterNode n ch d) c →
  enterNode_leaveNode_outcome c n ch d d'.
Proof.
  intros [Hnum (e & He & Hi)] (e' & node & child & He' & Hn & Hc).
  erewrite getEnclosingExpression_spec in He' by done.
  injection He' as <-. simpl in Hn.
  unfold enterNode_leaveNode_outcome.
  erewrite enterNode_spec by done. simpl snd.
  erewrite leaveNode_spec by (by autorewrite with relocate).
  eexists. split; [done|]. autorewrite with relocate.
  repeat split; try done.
  exists e. split; [done|]. apply index_bounds in Hn.
  autorewrite with relocate. simpl. destruct d'; lia.
Qed.

Lemma enterNode_leaveNode_witness :
  wf (Cursor.new fraction_root) ∧
  enterNode_leaveNode_outcome (Cursor.new fraction_root) 1 1 Left Right.
Proof.
  assert (wf (Cursor.new fraction_root)) as Hwf by (by apply initial_wf).
  split; [exact Hwf|].
  apply (enterNode_leaveNode (Cursor.new fraction_root) 1 1 Left Right Hwf).
  exists (mkExprRef [] fraction_root),
    (DoubleChildMathNode "n2" Fraction [] []), [].
  by repeat split.
Defined.

(** ** Horizontal moves *)

Lemma snoc_not_self {A} (p : list A) (x : A) : p ++ [x] ≠ p.
Proof.
  intros H. apply (f_equal length) in H. rewrite length_app in H.
  simpl in H. lia.
Qed.

(** X9.  On a well-formed cursor [moveRight] leaves path and position as
    they are exactly when the cursor is at the end of the root expression,
    and [moveLeft] exactly when it is at the start of the root
    expression. *)
Theorem horizontal_moves_stop_at_root_ends (c : Cursor) :
  wf c →
  (same_place c (snd (Cursor.moveRight c))
   ↔ path c = [] ∧ _cursorIndex c = Z.of_nat (length (root c))) ∧
  (same_place c (snd (Cursor.moveLeft c))
   ↔ path c = [] ∧ _cursorIndex c = 0).
Proof.
  intros Hwf. pose proof Hwf as [Hnum (e0 & He0 & Hi0)]. split.
  - destruct (moveRight_runs c Hwf) as (c' & -> & Hstep). simpl snd.
    destruct Hstep as [e He Hi Hp|e p l He Hi Hp|e node child He Hn Hc
                      |e node He Hn Hc];
      unfold same_place; autorewrite with relocate.
    + rewrite Hp in He. simpl in He. injection He as <-. tauto.
    + rewrite Hp. split.
      * intros [Hpath _]. by apply snoc_not_self in Hpath.
      * intros [Hnil _]. by destruct p.
    + split.
      * intros [Hpath _]. symmetry in Hpath. by apply snoc_not_self in Hpath.
      * intros [Hnil Hend]. rewrite Hnil in He. simpl in He.
        injection He as <-. apply index_bounds in Hn. lia.
    + split; [lia|].
      intros [Hnil Hend]. rewrite Hnil in He. simpl in He.
      injection He as <-. apply index_bounds in Hn. lia.
  - destruct (moveLeft_runs c Hwf) as (c' & -> & Hstep). simpl snd.
    destruct Hstep as [Hi Hp|p l Hi Hp|e node child He Hi Hn Hc
                      |e node He Hi Hn Hc];
      unfold same_place; autorewrite with relocate.
    + tauto.
    + rewrite Hp. split.
      * intros [Hpath _]. by apply snoc_not_self in Hpath.
      * intros [Hnil _]. by destruct p.
    + split; [|tauto].
      intros [Hpath _]. symmetry in Hpath. by apply snoc_not_self in Hpath.
    + split; [lia|tauto].
Qed.

Lemma horizontal_moves_stop_at_root_ends_witness :
  wf in_denominator ∧
  ¬ same_place in_denominator (snd (Cursor.moveRight in_denominator)).
Proof.
  split; [exact in_denominator_wf|].
  intros Hsame.
  apply (horizontal_moves_stop_at_root_ends in_denominator in_denominator_wf)
    in Hsame as [Hroot _].
  discriminate Hroot.
Defined.

(** X10.  [moveLeft] followed by [moveRight], neither a no-op, brings a
    well-formed cursor back to the original path and position, provided
    the cursor was not at the start of a child expression other than its
    node's first. *)
Theorem moveLeft_moveRight_round_trip (c : Cursor) :
  let c1 := snd (Cursor.moveLeft c) in
  let c2 := snd (Cursor.moveRight c1) in
  wf c →
  ¬ same_place c c1 →
  ¬ same_place c1 c2 →
  (_cursorIndex c = 0 → in_first_child c) →
  same_place c c2.
Proof.
  intros c1 c2 Hwf Hmoved1 Hmoved2 Hfirst. subst c1 c2.
  destruct (moveLeft_runs c Hwf) as (c1 & Hrun1 & Hstep1).
  rewrite Hrun1 in *. simpl snd in *.
  pose proof (moveLeft_step_wf c c1 Hwf Hstep1) as Hwf1.
  destruct (moveRight_runs c1 Hwf1) as (c2 & Hrun2 & Hstep2).
  rewrite Hrun2 in *. simpl snd in *. clear Hrun1 Hrun2.
  pose proof Hwf as [Hnum (e0 & He0 & Hi0)].
  destruct Hstep1 as [Hi Hp|p l Hi Hp|e node child He Hi Hn Hc
                     |e node He Hi Hn Hc].
  - destruct Hmoved1. by split; autorewrite with relocate.
  - (* out of a node, then back into its first child *)
    assert (childIndex l = 0) as Hl0.
    { apply Hfirst; [done|]. rewrite Hp. apply last_snoc. }
    unfold wf in Hwf. rewrite Hp in Hwf.
    apply wf_at_snoc in Hwf
        as (Hnp & Hil & ep & nd & ch & Hep & Hnd & Hch & _).
    apply index_bounds in Hnd as Hnb. rewrite Hl0 in Hch.
    inversion Hstep2 as [e' He' Hi' Hp'|e' p' l' He' Hi' Hp'
                        |e' nd' ch' He' Hn' Hc'|e' nd' He' Hn' Hc'];
      autorewrite with relocate in *; simpl in *.
    + assert (e' = ep) as -> by congruence. lia.
    + assert (e' = ep) as -> by congruence. lia.
    + split; autorewrite with relocate; [|done]. rewrite Hp. do 2 f_equal.
      apply (numbered_last p); [by rewrite <- Hp|done].
    + assert (e' = ep) as -> by congruence.
      assert (nd' = nd) as -> by congruence.
      rewrite Hc' in Hch. by apply index_Some in Hch as [_ ?].
  - (* into a node at its end, then out of it again *)
    assert (expr_at (root c)
              (path_address
                 (path c ++
                  [mkLink (_cursorIndex c - 1) 0
                     (Z.of_nat (length (path c)))])) = Some child) as Hchild.
    { rewrite path_address_snoc. apply expr_at_snoc. simpl. eauto. }
    inversion Hstep2 as [e' He' Hi' Hp'|e' p' l' He' Hi' Hp'
                        |e' nd' ch' He' Hn' Hc'|e' nd' He' Hn' Hc'];
      autorewrite with relocate in *; simpl in *.
    + by destruct (path c).
    + apply app_inj_tail in Hp' as [<- <-].
      split; autorewrite with relocate; [done|]. simpl. lia.
    + assert (e' = child) as -> by congruence.
      apply index_bounds in Hn'. lia.
    + assert (e' = child) as -> by congruence.
      apply index_bounds in Hn'. lia.
  - (* over a childless node, and back *)
    apply index_bounds in Hn as Hnb.
    inversion Hstep2 as [e' He' Hi' Hp'|e' p' l' He' Hi' Hp'
                        |e' nd' ch' He' Hn' Hc'|e' nd' He' Hn' Hc'];
      autorewrite with relocate in *; simpl in *.
    + assert (e' = e) as -> by congruence. lia.
    + assert (e' = e) as -> by congruence. lia.
    + assert (e' = e) as -> by congruence.
      assert (nd' = node) as -> by congruence.
      rewrite Hc in Hc'. by apply index_Some in Hc' as [_ ?].
    + split; autorewrite with relocate; [done|lia].
Qed.

Lemma moveLeft_moveRight_round_trip_witness :
  let c := snd (Cursor.moveRight (Cursor.new [MathCharacter "n1" "x"])) in
  wf c ∧ same_place c (snd (Cursor.moveRight (snd (Cursor.moveLeft c)))).
Proof.
  assert (wf (snd (Cursor.moveRight (Cursor.new [MathCharacter "n1" "x"]))))
    as Hwf.
  { split; [apply numbered_nil|].
    exists [MathCharacter "n1" "x"]. split; [done|]. simpl. lia. }
  split; [exact Hwf|].
  apply (moveLeft_moveRight_round_trip
           (snd (Cursor.moveRight (Cursor.new [MathCharacter "n1" "x"])))).
  - exact Hwf.
  - intros [_ H]. vm_compute in H. discriminate.
  - intros [_ H]. vm_compute in H. discriminate.
  - intros H. vm_compute in H. discriminate.
Defined.

(** ** Vertical moves *)

Lemma link_eta (l : CursorPathLink) (n ch i : Z) :
  nodeIndex l = n → childIndex l = ch → _i l = i → mkLink n ch i = l.
Proof. destruct l. simpl. by intros -> -> ->. Qed.

(** X11.  On a well-formed cursor, whenever [moveDown] moves, a [moveUp]
    right after it brings the cursor back into the child expression it
    came from, at position 0; whenever [moveUp] moves, a [moveDown] right
    after it brings the cursor back into the child expression it came
    from, at its end.  The path is restored, the position is not. *)
Theorem vertical_moves_compose (c : Cursor) : wf c → vertical_round_trips c.
Proof.
  intros Hwf. pose proof Hwf as [Hnum (e & He & Hi)].
  destruct (snoc_cases (path c)) as [Hp|(p & l & Hp)].
  { split; intros Hmoved; destruct Hmoved.
    - by rewrite moveDown_at_root.
    - by rewrite moveUp_at_root. }
  unfold wf in Hwf. rewrite Hp in Hwf.
  apply wf_at_snoc in Hwf
      as (Hnp & Hil & ep & node & child & Hep & Hn & Hc & _).
  assert (e = child) as ->.
  { rewrite Hp, path_address_snoc in He.
    apply expr_at_snoc in He as (ep' & nd' & Hep' & Hnd' & Hch').
    congruence. }
  apply index_bounds in Hc as Hcb. split.
  - intros Hmoved.
    destruct (decide (childIndex l = Z.of_nat (length (children node)) - 1))
      as [Hlast|Hmore].
    { destruct Hmoved. by erewrite moveDown_at_last_child. }
    destruct (index_in_range (children node) (childIndex l + 1))
      as [sibling Hs]; [lia|].
    erewrite moveDown_to_sibling by done. cbv zeta. simpl snd.
    erewrite (moveUp_to_sibling _ p
                (mkLink (nodeIndex l) (childIndex l + 1)
                   (Z.of_nat (length p))) ep node sibling);
      autorewrite with relocate; simpl; try done.
    + simpl. autorewrite with relocate. rewrite Hp.
      repeat split. do 2 f_equal. apply link_eta; [done|lia|done].
    + by apply numbered_snoc.
    + lia.
    + by replace (childIndex l + 1 - 1) with (childIndex l) by lia.
  - intros Hmoved.
    destruct (decide (childIndex l = 0)) as [Hfirst|Hmore].
    { destruct Hmoved. by erewrite moveUp_at_first_child. }
    destruct (index_in_range (children node) (childIndex l - 1))
      as [sibling Hs]; [lia|].
    erewrite moveUp_to_sibling; [|done..|lia|done]. cbv zeta. simpl snd.
    exists (mkExprRef (path_address (path c)) child).
    split; [by apply getEnclosingExpression_spec|].
    erewrite (moveDown_to_sibling _ p
                (mkLink (nodeIndex l) (childIndex l - 1)
                   (Z.of_nat (length p))) ep node sibling);
      autorewrite with relocate; simpl; try done.
    + simpl. autorewrite with relocate. rewrite Hp.
      repeat split. do 2 f_equal. apply link_eta; [done|lia|done].
    + by apply numbered_snoc.
    + by replace (childIndex l - 1 + 1) with (childIndex l) by lia.
Qed.

Lemma vertical_moves_compose_witness :
  wf in_denominator ∧ vertical_round_trips in_denominator.
Proof.
  split.
  - exact in_denominator_wf.
  - exact (vertical_moves_compose in_denominator in_denominator_wf).
Defined.

(** ** Edits *)

(** X12.  On a well-formed cursor, typing a character and deleting it
    again gives back the tree, the path and the position. *)
Theorem insertCharacterAtCursor_deleteCharacterAtCursor (c : Cursor)
    (id character : string) :
  wf c → insert_delete_outcome c id character.
Proof.
  intros [Hnum (e & He & Hi)]. unfold insert_delete_outcome.
  eexists _, _. split; [by eapply insertCharacterAtCursor_spec|].
  set (e1 := MathExpression.insertNode e (_cursorIndex c)
               (MathCharacter id character)).
  assert (length e1 = S (length e)) as Hlen by apply length_insertNode.
  split.
  { eapply deleteCharacterAtCursor_spec; autorewrite with relocate.
    - done.
    - by eapply expr_at_write.
    - fold e1. lia. }
  autorewrite with relocate. split; [|split; [done|lia]].
  erewrite write_expr_write by done.
  replace (delete (Z.to_nat (_cursorIndex c + 1 - 1)) e1) with e;
    [by apply write_expr_same|].
  subst e1. unfold MathExpression.insertNode.
  rewrite splice_insert_nonneg by lia.
  replace (Z.to_nat (_cursorIndex c + 1 - 1))
    with (length (take (Z.to_nat (_cursorIndex c)) e))
    by (rewrite length_take; lia).
  rewrite delete_middle. by rewrite take_drop.
Qed.

Lemma insertCharacterAtCursor_deleteCharacterAtCursor_witness :
  wf in_denominator ∧ insert_delete_outcome in_denominator "n3" "y".
Proof.
  split; [exact in_denominator_wf|].
  exact (insertCharacterAtCursor_deleteCharacterAtCursor in_denominator
           "n3" "y" in_denominator_wf).
Defined.



(** X14.  The navigation operations ([enterNode], [leaveNode] and the four
    moves), called within their preconditions on a well-formed cursor,
    never change the tree. *)
Theorem navigation_keeps_tree (c : Cursor) (op : Operation) :
  wf c → precondition op c → navigates op = true →
  root (snd (perform op c)) = root c.
Proof.
  intros Hwf Hpre Hop. pose proof Hwf as [Hnum (e & He & Hi)].
  destruct op as [n ch d|d| | | | | | |id ch|node]; try done; simpl in *.
  - destruct Hpre as (e' & node & child & He' & Hn & Hc).
    erewrite getEnclosingExpression_spec in He' by done.
    injection He' as <-. simpl in Hn.
    by erewrite enterNode_spec.
  - apply not_atRoot_snoc in Hpre as (p & l & Hp).
    by erewrite bind_returned by (by eapply leaveNode_spec).
  - destruct (moveRight_runs c Hwf) as (c' & -> & Hstep).
    by destruct Hstep.
  - destruct (moveLeft_runs c Hwf) as (c' & -> & Hstep).
    by destruct Hstep.
  - destruct (snoc_cases (path c)) as [Hp|(p' & l & Hp)];
      [by rewrite moveUp_at_root|].
    unfold wf in Hwf. rewrite Hp in Hwf.
    apply wf_at_snoc in Hwf
        as (Hnp & Hil & ep & node & child & Hep & Hn & Hc & Hic).
    destruct (decide (childIndex l = 0)) as [Hfirst|Hmore];
      [by erewrite moveUp_at_first_child|].
    apply index_bounds in Hc as Hcb.
    destruct (index_in_range (children node) (childIndex l - 1))
      as [sibling Hs]; [lia|].
    by erewrite moveUp_to_sibling; [|done..|lia|done].
  - destruct (snoc_cases (path c)) as [Hp|(p' & l & Hp)];
      [by rewrite moveDown_at_root|].
    unfold wf in Hwf. rewrite Hp in Hwf.
    apply wf_at_snoc in Hwf
        as (Hnp & Hil & ep & node & child & Hep & Hn & Hc & Hic).
    apply index_bounds in Hc as Hcb.
    destruct (decide (childIndex l = Z.of_nat (length (children node)) - 1))
      as [Hlast|Hmore]; [by erewrite moveDown_at_last_child|].
    destruct (index_in_range (children node) (childIndex l + 1))
      as [sibling Hs]; [lia|].
    by erewrite moveDown_to_sibling.
Qed.

Lemma navigation_keeps_tree_witness :
  root (snd (perform MoveUp in_denominator)) = root in_denominator.
Proof.
  apply (navigation_keeps_tree in_denominator MoveUp in_denominator_wf);
    done.
Defined.

(** * The keyboard *)

Lemma index_insertNode (e : list MathNode) (i : Z) (node : MathNode) :
  0 ≤ i ≤ Z.of_nat (length e) →
  Js.index (MathExpression.insertNode e i node) i = Some node.
Proof.
  intros Hi. unfold MathExpression.insertNode.
  rewrite splice_insert_nonneg by lia. apply index_Some. split; [lia|].
  rewrite lookup_app_r; rewrite length_take; [|lia].
  by replace (_ - _)%nat with 0%nat by lia.
Qed.

(** Inserting a node with a first child and entering that child. *)
Lemma insertAndEnter_spec (c : Cursor) (node : MathNode)
    (e child : MathExpression) :
  numbered (path c) →
  expr_at (root c) (path_address (path c)) = Some e →
  0 ≤ _cursorIndex c ≤ Z.of_nat (length e) →
  Js.index (children node) 0 = Some child →
  Cursor.insertAndEnter node c
  = (Returned tt,
     relocate c
       (write_expr (root c) (path_address (path c))
          (MathExpression.insertNode e (_cursorIndex c) node))
       (path c ++ [mkLink (_cursorIndex c) 0 (Z.of_nat (length (path c)))])
       0 2).
Proof.
  intros Hnum He Hi Hc. unfold Cursor.insertAndEnter.
  erewrite bind_returned by (by eapply insertNodeAtCursor_spec).
  erewrite enterNode_spec; autorewrite with relocate.
  - by rewrite relocate_relocate.
  - done.
  - by eapply expr_at_write.
  - by apply index_insertNode.
  - done.
Qed.

Lemma atRoot_false_snoc (c : Cursor) :
  path c ≠ [] → CursorLocation.atRoot (_location c) = false.
Proof.
  intros Hp. destruct (CursorLocation.atRoot (_location c)) eqn:Hroot;
    [|done].
  by apply atRoot_true in Hroot.
Qed.

(** On a well-formed cursor [handleKeydown] ends in one of the three ways,
    and leaves the cursor reset by the key, relocated and
    well-formed, its observers notified at least once. *)
Lemma handleKeydown_runs (event : Cursor.KeyboardEvent) (c : Cursor) :
  wf c →
  ∃ o r p i k menu,
    Cursor.handleKeydown event c
    = (o, relocate (keyed c (Cursor.now event) menu) r p i (S k)) ∧
    wf_at r p i ∧ keydown_end event c o.
Proof.
  intros Hwf. pose proof Hwf as [Hnum (e & He & Hi)].
  unfold Cursor.handleKeydown.
  erewrite bind_returned by reflexivity.
  erewrite bind_returned by apply notifyUpdates_spec.
  change (relocate _ _ _ _ 1)
    with (relocate (keyed c (Cursor.now event) (searchMenu c)) (root c)
            (path c) (_cursorIndex c) 1).
  remember (relocate (keyed c (Cursor.now event) (searchMenu c)) (root c)
              (path c) (_cursorIndex c) 1) as c1 eqn:Hc1.
  assert (wf c1) as Hwf1 by (by subst c1).
  assert (∀ op, precondition op c1 →
          ∃ o r p i k menu,
            perform op c1
            = (o, relocate (keyed c (Cursor.now event) menu) r p i (S k)) ∧
            wf_at r p i ∧ keydown_end event c o) as Hop.
  { intros op Hpre.
    destruct (perform_relocates c1 op Hwf1 Hpre)
      as (r & p & i & k & Hrun & Hwf' & _).
    exists (Returned tt), r, p, i, k, (searchMenu c).
    split; [|split; [done|by left]].
    rewrite Hrun, Hc1. by rewrite relocate_relocate. }
  assert (∀ node,
          Js.index (children node) 0 = Some [] →
          ∃ o r p i k menu,
            Cursor.insertAndEnter node c1
            = (o, relocate (keyed c (Cursor.now event) menu) r p i (S k)) ∧
            wf_at r p i ∧ keydown_end event c o) as Hnode.
  { intros node Hchild.
    exists (Returned tt). eexists _, _, _, _, (searchMenu c).
    split; [|split; [|by left]].
    - erewrite insertAndEnter_spec; subst c1; autorewrite with relocate;
        try done.
      by rewrite relocate_relocate.
    - apply wf_at_snoc. repeat split; try done.
      eexists _, node, []. split; [by eapply expr_at_write|].
      split; [by apply index_insertNode|]. done. }
  assert (∃ o r p i k menu,
            (Returned tt, c1)
            = (o, relocate (keyed c (Cursor.now event) menu) r p i (S k)) ∧
            wf_at r p i ∧ keydown_end event c o) as Hstay.
  { exists (Returned tt), (root c), (path c), (_cursorIndex c), 0%nat,
      (searchMenu c).
    split; [by rewrite Hc1|]. split; [done|by left]. }
  destruct (Js.includes Cursor.ALPHANUM (Cursor.key event));
    [exact (Hop (InsertCharacterAtCursor _ _) I)|].
  destruct (Js.includes "!@#&-=+':<>,.?|" (Cursor.key event));
    [exact (Hop (InsertCharacterAtCursor _ _) I)|].
  destruct (String.eqb (Cursor.key event) "*");
    [exact (Hop (InsertCharacterAtCursor _ _) I)|].
  destruct (String.eqb (Cursor.key event) "%");
    [exact (Hop (InsertCharacterAtCursor _ _) I)|].
  destruct (String.eqb (Cursor.key event) "$");
    [exact (Hop (InsertCharacterAtCursor _ _) I)|].
  destruct (String.eqb (Cursor.key event) " ");
    [exact (Hop (InsertCharacterAtCursor _ _) I)|].
  destruct (String.eqb_spec (Cursor.key event) "Backspace") as [Hkey|_].
  { rewrite bind_returned with (a := c1) (c' := c1) by done.
    assert (_cursorIndex c1 = _cursorIndex c) as Hi1 by (by subst c1).
    assert (path c1 = path c) as Hp1 by (by subst c1).
    destruct (decide (_cursorIndex c1 = 0)) as [H0|Hpos].
    - destruct (snoc_cases (path c)) as [Hp|(p & l & Hp)].
      + rewrite removeEnclosingNode_at_root by congruence.
        exists (Thrown NoEnclosingNode), (root c), (path c), (_cursorIndex c),
          0%nat, (searchMenu c).
        split; [by rewrite Hc1|]. split; [done|].
        right. left. repeat split; congruence.
      + apply (Hop RemoveEnclosingNode). simpl.
        apply atRoot_false_snoc. rewrite Hp1, Hp. by destruct p.
    - apply (Hop DeleteCharacterAtCursor). simpl. lia. }
  destruct (String.eqb_spec (Cursor.key event) "\") as [Hkey|_].
  { unfold Cursor.getCursorElement.
    destruct (Cursor.cursorElement event) as [rect|] eqn:Hrect.
    - exists (Returned tt), (root c), (path c), (_cursorIndex c), 0%nat,
        (mkSearchMenu true).
      split; [by rewrite Hc1|]. split; [done|by left].
    - exists (Thrown (Error "Cursor is not being displayed!")), (root c),
        (path c), (_cursorIndex c), 0%nat, (searchMenu c).
      split; [by rewrite Hc1|]. split; [done|].
      right. right. by repeat split. }
  destruct (String.eqb (Cursor.key event) "("); [by apply Hnode|].
  destruct (String.eqb (Cursor.key event) "{"); [by apply Hnode|].
  destruct (String.eqb (Cursor.key event) "["); [by apply Hnode|].
  destruct (String.eqb (Cursor.key event) "/"); [by apply Hnode|].
  destruct (String.eqb (Cursor.key event) "_"); [by apply Hnode|].
  destruct (String.eqb (Cursor.key event) "^"); [by apply Hnode|].
  destruct (String.eqb (Cursor.key event) "ArrowRight");
    [exact (Hop MoveRight I)|].
  destruct (String.eqb (Cursor.key event) "ArrowLeft");
    [exact (Hop MoveLeft I)|].
  destruct (String.eqb (Cursor.key event) "ArrowDown");
    [exact (Hop MoveDown I)|].
  destruct (String.eqb (Cursor.key event) "ArrowUp");
    [exact (Hop MoveUp I)|].
  exact Hstay.
Qed.

(** X15.  Whatever the key, and whether the call returns or throws,
    [handleKeydown] on a well-formed cursor leaves a well-formed cursor,
    with the blink phase visible, the time of the key press recorded, the
    focus as it was, and every registered observer notified at least once
    (the dispatcher notifies before it dispatches, so this holds for
    ArrowUp and ArrowDown too). *)
Theorem handleKeydown_effects (event : Cursor.KeyboardEvent) (c : Cursor) :
  wf c → keydown_effects event c.
Proof.
  intros Hwf.
  destruct (handleKeydown_runs event c Hwf)
    as (o & r & p & i & k & menu & Hrun & Hwf' & _).
  unfold keydown_effects. rewrite Hrun. simpl snd. cbv zeta.
  repeat split; try done.
  - by destruct Hwf'.
  - by destruct Hwf'.
  - eexists. split; [reflexivity|]. intros cb Hcb. simpl.
    apply elem_of_app. by left.
Qed.

Lemma handleKeydown_effects_witness :
  wf observed_at_root ∧
  keydown_effects (Cursor.mkKeyboardEvent "ArrowDown" 1000 "n9" None)
    observed_at_root.
Proof.
  assert (wf observed_at_root) as Hwf by (by apply initial_wf).
  split; [exact Hwf|].
  exact (handleKeydown_effects
           (Cursor.mkKeyboardEvent "ArrowDown" 1000 "n9" None)
           observed_at_root Hwf).
Defined.

(** X16.  On a well-formed cursor [handleKeydown] throws in two cases
    only: Backspace with the cursor at root and at position 0, and a
    backslash while the cursor's element is not in the document. *)
Theorem handleKeydown_throws (event : Cursor.KeyboardEvent) (c : Cursor) :
  wf c →
  ((∃ e, fst (Cursor.handleKeydown event c) = Thrown e)
   ↔ (Cursor.key event = "Backspace" ∧ path c = [] ∧ _cursorIndex c = 0)
     ∨ (Cursor.key event = "\" ∧ Cursor.cursorElement event = None)).
Proof.
  intros Hwf. split.
  - intros [e He].
    destruct (handleKeydown_runs event c Hwf)
      as (o & r & p & i & k & menu & Hrun & _ & Hend).
    rewrite Hrun in He. simpl in He.
    destruct Hend as [->|[(_ & ? & ? & ?)|(_ & ? & ?)]]; [done|tauto..].
  - destruct event as [k t fresh rect]. simpl.
    intros [(-> & Hp & Hi)|(-> & ->)].
    + fields c. subst. eexists. reflexivity.
    + eexists. reflexivity.
Qed.

Lemma handleKeydown_throws_witness :
  wf in_denominator ∧
  ¬ ∃ e,
      fst (Cursor.handleKeydown
             (Cursor.mkKeyboardEvent "Backspace" 1000 "n9" None)
             in_denominator) = Thrown e.
Proof.
  split; [exact in_denominator_wf|].
  intros Hthrow.
  apply (handleKeydown_throws
           (Cursor.mkKeyboardEvent "Backspace" 1000 "n9" None)
           in_denominator in_denominator_wf) in Hthrow
      as [(_ & Hp & _)|(Hkey & _)]; discriminate.
Defined.

(** ** The shorthand keys *)

Lemma bind_get {A} (k : Cursor → M A) (c : Cursor) : bind get k c = k c c.
Proof. done. Qed.

Lemma keydown_prologue_spec (event : Cursor.KeyboardEvent) (c : Cursor) :
  keydown_prologue event c
  = (Returned tt,
     relocate (keyed c (Cursor.now event) (searchMenu c)) (root c) (path c)
       (_cursorIndex c) 1).
Proof.
  unfold keydown_prologue.
  erewrite bind_returned by reflexivity. by rewrite notifyUpdates_spec.
Qed.

Lemma handleKeydown_shorthand (event : Cursor.KeyboardEvent) :
  Cursor.key event ∈ shorthand_keys →
  ∃ node child0,
    Js.index (children node) 0 = Some child0 ∧
    MathNode_id node = Cursor.newID event ∧
    (∀ e, e ∈ children node → e = []) ∧
    Cursor.handleKeydown event
    = bind (keydown_prologue event) (λ _, Cursor.insertAndEnter node).
Proof.
  destruct event as [k t fresh rect]. unfold shorthand_keys. simpl.
  rewrite !elem_of_cons, elem_of_nil.
  assert (∀ e : MathExpression, e ∈ [[]] → e = []) as Hone.
  { intros e. rewrite list_elem_of_singleton. done. }
  assert (∀ e : MathExpression, e ∈ [[]; []] → e = []) as Htwo.
  { intros e. rewrite !elem_of_cons, elem_of_nil. tauto. }
  intros [->|[->|[->|[->|[->|[->|[]]]]]]];
    eexists _, _; (split; [|split; [|split; [|reflexivity]]]);
    simpl; done.
Qed.

Lemma handleKeydown_Backspace (event : Cursor.KeyboardEvent) :
  Cursor.key event = "Backspace" →
  Cursor.handleKeydown event
  = bind (keydown_prologue event)
      (λ _, bind get (λ c,
         if decide (_cursorIndex c = 0) then Cursor.removeEnclosingNode
         else Cursor.deleteCharacterAtCursor)).
Proof. destruct event as [k t fresh rect]. simpl. by intros ->. Qed.

(** X17.  On a well-formed cursor each of the keys ( { [ / _ ^ inserts,
    at the cursor, a new node whose child expressions are all empty, and
    puts the cursor at position 0 of the node's first child expression. *)
Theorem handleKeydown_shorthand_enters (event : Cursor.KeyboardEvent)
    (c : Cursor) :
  wf c → Cursor.key event ∈ shorthand_keys → shorthand_outcome event c.
Proof.
  intros [Hnum (e & He & Hi)] Hkey.
  destruct (handleKeydown_shorthand event Hkey)
    as (node & child0 & Hc0 & Hid & Hempty & Hdispatch).
  unfold shorthand_outcome. rewrite Hdispatch.
  assert (child0 = []) as ->.
  { apply Hempty. apply index_Some in Hc0 as [_ Hc0].
    by eapply list_elem_of_lookup_2. }
  erewrite bind_returned by apply keydown_prologue_spec.
  erewrite insertAndEnter_spec; autorewrite with relocate; try done.
  rewrite relocate_relocate.
  eexists _, (mkExprRef (path_address (path c)) e), node.
  split; [reflexivity|].
  split; [by apply getEnclosingExpression_spec|].
  split; [done|]. split; [by destruct node|]. split; [done|].
  autorewrite with relocate. repeat split.
  apply getEnclosingExpression_spec; autorewrite with relocate.
  - by apply numbered_snoc.
  - rewrite path_address_snoc. apply expr_at_snoc. simpl.
    eexists _, node. split; [by eapply expr_at_write|].
    split; [by apply index_insertNode|done].
Qed.

Lemma handleKeydown_shorthand_enters_witness :
  wf in_denominator ∧
  shorthand_outcome (Cursor.mkKeyboardEvent "^" 1000 "n9" None)
    in_denominator.
Proof.
  split; [exact in_denominator_wf|].
  apply (handleKeydown_shorthand_enters
           (Cursor.mkKeyboardEvent "^" 1000 "n9" None) in_denominator
           in_denominator_wf).
  unfold shorthand_keys. simpl. rewrite !elem_of_cons. tauto.
Defined.

(** X18.  On a well-formed cursor, Backspace pressed right after one of
    the keys ( { [ / _ ^ removes the node just inserted: the tree, the
    path and the position are what they were before the two keys. *)
Theorem handleKeydown_shorthand_Backspace
    (event backspace : Cursor.KeyboardEvent) (c : Cursor) :
  wf c →
  Cursor.key event ∈ shorthand_keys →
  Cursor.key backspace = "Backspace" →
  shorthand_undone event backspace c.
Proof.
  intros [Hnum (e & He & Hi)] Hkey Hback.
  destruct (handleKeydown_shorthand event Hkey)
    as (node & child0 & Hc0 & _ & _ & Hdispatch).
  unfold shorthand_undone.
  rewrite Hdispatch, (handleKeydown_Backspace backspace Hback).
  set (e1 := MathExpression.insertNode e (_cursorIndex c) node).
  set (link := mkLink (_cursorIndex c) 0 (Z.of_nat (length (path c)))).
  set (r1 := write_expr (root c) (path_address (path c)) e1).
  exists (relocate (keyed c (Cursor.now event) (searchMenu c)) r1
            (path c ++ [link]) 0 3).
  eexists. split.
  { erewrite bind_returned by apply keydown_prologue_spec.
    erewrite insertAndEnter_spec; autorewrite with relocate; try done.
    by rewrite relocate_relocate. }
  split.
  { erewrite bind_returned by apply keydown_prologue_spec.
    autorewrite with relocate. rewrite bind_get.
    autorewrite with relocate. rewrite decide_True by done.
    erewrite (removeEnclosingNode_spec _ (path c) link e1 node);
      autorewrite with relocate;
      [reflexivity|done..|by eapply expr_at_write
      |by apply index_insertNode]. }
  autorewrite with relocate. simpl. repeat split.
  subst r1. erewrite write_expr_write by done.
  replace (delete (Z.to_nat (_cursorIndex c)) e1) with e;
    [by apply write_expr_same|].
  subst e1. unfold MathExpression.insertNode.
  rewrite splice_insert_nonneg by lia.
  rewrite <- (length_take_le e (Z.to_nat (_cursorIndex c))) at 1 by lia.
  rewrite delete_middle. by rewrite take_drop.
Qed.

Lemma handleKeydown_shorthand_Backspace_witness :
  wf in_denominator ∧
  shorthand_undone (Cursor.mkKeyboardEvent "/" 1000 "n9" None)
    (Cursor.mkKeyboardEvent "Backspace" 2000 "n10" None) in_denominator.
Proof.
  split; [exact in_denominator_wf|].
  apply (handleKeydown_shorthand_Backspace
           (Cursor.mkKeyboardEvent "/" 1000 "n9" None)
           (Cursor.mkKeyboardEvent "Backspace" 2000 "n10" None)
           in_denominator in_denominator_wf).
  - unfold shorthand_keys. simpl. rewrite !elem_of_cons. tauto.
  - reflexivity.
Defined.

(** * Operations on reachable cursors *)

(** X19.  When no expression object contains itself at the start, and on
    a cursor reachable from there, every operation called within its
    precondition
    ([insertNodeAtCursor] with a node that does not contain the expression
    the cursor is in) returns: none of the errors of the cursor, the
    location or the expression is thrown.  The cursor it leaves satisfies
    the invariant, and every operation other than [moveUp] and [moveDown]
    has invoked every registered observer. *)
Theorem shared_operations_return_and_notify (c : Shared.Cursor)
    (op : Shared.Operation) :
  Shared.reachable_acyclic c → Shared.precondition_acyclic op c →
  ∃ c',
    Shared.perform op c = (Returned tt, c') ∧ Shared.invariant c' ∧
    (Shared.notifies op = true → Shared.all_notified c c').
Proof.
  intros Hreach Hpre.
  destruct (SharedFacts.shared_perform_relocates c op
              (SharedFacts.reachable_acyclic_wf c Hreach) Hpre)
    as (s & p & i & k & Hrun & _ & Hwf & Hk).
  eexists. split; [exact Hrun|]. split.
  - by apply SharedFacts.shared_wf_invariant.
  - intros Hop. specialize (Hk Hop). destruct k as [|k]; [lia|].
    eexists. split; [reflexivity|]. intros cb Hcb. simpl.
    apply elem_of_app. by left.
Qed.

Lemma shared_operations_return_and_notify_witness :
  ∃ c',
    Shared.perform Shared.MoveLeft Shared.in_numerator = (Returned tt, c') ∧
    Shared.invariant c' ∧
    (Shared.notifies Shared.MoveLeft = true →
     Shared.all_notified Shared.in_numerator c').
Proof.
  apply (shared_operations_return_and_notify Shared.in_numerator
           Shared.MoveLeft SharedFacts.in_numerator_reachable_acyclic).
  split; exact I.
Defined.

(** * Further properties of rendering *)

Lemma map_from_throws {A B} (f : Z → A → Outcome B) (l : list A) (e : Exn) :
  Forall (λ x, ∀ i, (∃ y, f i x = Returned y) ∨ f i x = Thrown e) l →
  ∀ i, (∃ ys, map_from f i l = Returned ys) ∨ map_from f i l = Thrown e.
Proof.
  induction 1 as [|x l Hx _ IH]; intros i; simpl; [by left; eauto|].
  destruct (Hx i) as [[y ->]| ->]; [|by right].
  destruct (IH (i + 1)) as [[ys ->]| ->]; [left; eauto|by right].
Qed.

Section RenderThrows.
Context (c : Cursor) (e : Exn).
Hypothesis Henc :
  CursorLocation.getEnclosingExpression (_location c) = Thrown e.

Lemma render_expression_throws (f : Z → MathNode → Outcome string)
    (this : Address) (nodes : list MathNode) :
  Forall (λ n, ∀ i, (∃ s, f i n = Returned s) ∨ f i n = Thrown e) nodes →
  render_expression c f this nodes = Thrown e.
Proof using Henc.
  intros Hnodes. unfold render_expression.
  destruct (map_from_throws f nodes e Hnodes 0) as [[parts ->]| ->];
    [|done].
  by rewrite Henc.
Qed.

Lemma MathNode_render_throws (n : MathNode) :
  ∀ (parent : Address) (index : Z),
    (∃ s, MathNode_renderAsLaTeX c parent index n = Returned s) ∨
    MathNode_renderAsLaTeX c parent index n = Thrown e.
Proof using Henc.
  induction n as [id ch|id k c0 IH0|id k c0 c1 IH0 IH1]
    using MathNode_nested_ind; intros parent index; simpl.
  - left. eauto.
  - right. rewrite render_expression_throws; [done|].
    eapply Forall_impl; [exact IH0|]. intros n Hn i. apply Hn.
  - right. rewrite render_expression_throws; [done|].
    eapply Forall_impl; [exact IH0|]. intros n Hn i. apply Hn.
Qed.

End RenderThrows.

(** X20.  [renderAsLaTeX] returns exactly when the cursor's path resolves:
    if [getEnclosingExpression] returns, so does the rendering of any
    expression, and the text is never empty; if [getEnclosingExpression]
    throws, the rendering of any expression throws the same exception. *)
Theorem renderAsLaTeX_returns (c : Cursor) (this : Address)
    (nodes : list MathNode) :
  (∀ enclosing,
     CursorLocation.getEnclosingExpression (_location c) = Returned enclosing →
     ∃ s, MathExpression_renderAsLaTeX c this nodes = Returned s ∧ s ≠ "") ∧
  (∀ e,
     CursorLocation.getEnclosingExpression (_location c) = Thrown e →
     MathExpression_renderAsLaTeX c this nodes = Thrown e).
Proof.
  split.
  - intros enclosing Henc.
    unfold MathExpression_renderAsLaTeX, render_expression.
    destruct (map_from_returns (MathNode_renderAsLaTeX c this) nodes)
      with (i := 0) as [fragments ->].
    { apply Forall_forall. intros n _ i.
      destruct (MathNode_renders c enclosing Henc n this i) as (s & -> & _).
      eauto. }
    rewrite Henc.
    destruct (String.eqb_spec
                (Js.join " "
                   (if decide (address <$> enclosing = Some this)
                    then Js.splice_insert fragments (Cursor.getCursorIndex c)
                           (Cursor.renderAsLatex c)
                    else fragments)) ""); eauto.
  - intros e Henc. apply render_expression_throws; [done|].
    apply Forall_forall. intros n _ i.
    by apply MathNode_render_throws.
Qed.

(** X21.  Whatever its class, a node's rendering starts with the node's
    own [htmlId] prefix, which carries its identifier. *)
Theorem fragment_starts_with_prefix (c : Cursor) (parent : Address)
    (index : Z) (n : MathNode) (s : string) :
  MathNode_renderAsLaTeX c parent index n = Returned s →
  ∃ rest : string,
    s = (getHTMLPrefix n ++ rest)%string ∧
    getHTMLPrefix n = ("\htmlId{node-" ++ MathNode_id n ++ "}")%string.
Proof.
  destruct n as [id ch|id k c0|id k c0 c1]; simpl.
  - intros [= <-]. eauto.
  - destruct (render_expression c _ _ c0); [|done]. intros [= <-]. eauto.
  - destruct (render_expression c _ _ c0); [|done].
    destruct (render_expression c _ _ c1); [|done]. intros [= <-]. eauto.
Qed.

Lemma fragment_starts_with_prefix_witness :
  ∃ rest : string,
    ("\htmlId{node-n2}{\frac{~}{~}}"
     = getHTMLPrefix (DoubleChildMathNode "n2" Fraction [] []) ++ rest)%string
    ∧ getHTMLPrefix (DoubleChildMathNode "n2" Fraction [] [])
      = "\htmlId{node-n2}".
Proof.
  apply (fragment_starts_with_prefix in_denominator [] 1
           (DoubleChildMathNode "n2" Fraction [] [])
           "\htmlId{node-n2}{\frac{~}{~}}").
  reflexivity.
Defined.
